(** * A shallow embedding of [src/data/Graph.ts]

    The graph of echarts is an object graph: [Graph], [GraphNode] and
    [GraphEdge] instances point at each other and are mutated in place.
    The embedding keeps that shape.  Every object lives in a store
    ([Heap]) and is named by its position there; a reference is that
    position.  Methods take the reference of [this] and the store, and
    give back a result and the new store.

    The outer [option] of a method's result is the JavaScript completion:
    [None] stands for an exception ([TypeError] on a property of
    [undefined]) or for a reference that names no object, which no
    JavaScript execution produces.  An inner [option] is a value that may
    be [undefined]. *)

From stdpp Require Import gmap strings list fin_maps pretty.

Open Scope string_scope.
Open Scope list_scope.
Open Scope Z_scope.

(** ** References *)

Abbreviation nref := nat (only parsing).
Abbreviation eref := nat (only parsing).
Abbreviation gref := nat (only parsing).
Abbreviation lref := nat (only parsing).

(** ** The classes *)

(** [class GraphNode].  [__visited] is declared without initialiser, so it
    starts [undefined]; the code only ever reads it through [!], hence
    [undefined] and [false] are one value here. *)
Record GraphNode := mkGraphNode {
  node_id : string;
  node_inEdges : list eref;
  node_outEdges : list eref;
  node_edges : list eref;
  node_hostGraph : option gref;
  node_dataIndex : Z;
  node___visited : bool
}.

(** [class GraphEdge]. *)
Record GraphEdge := mkGraphEdge {
  edge_node1 : nref;
  edge_node2 : nref;
  edge_dataIndex : Z;
  edge_hostGraph : option gref
}.

(** [class Graph].  [_nodesMap] and [_edgesMap] are plain objects used as
    dictionaries.  Their keys start with [_EC_], respectively contain
    [-], so no key meets a property inherited from [Object.prototype]. *)
Record Graph := mkGraph {
  graph_nodes : list nref;
  graph_edges : list eref;
  graph_data : option lref;
  graph_edgeData : option lref;
  graph__directed : bool;
  graph__nodesMap : gmap string nref;
  graph__edgesMap : gmap string eref
}.

(** Modelled from the spec: the record table [List] ([src/data/List.ts])
    is not part of the sources at hand.  Section 6 of the specification
    gives its contract: a live view that maps a position to a storage
    index ([getRawIndex]), the number of live positions ([count]) and
    [filterSelf], which keeps the positions accepted by a predicate.  The
    view is the sequence of storage indices that survive filtering. *)
Record List := mkList {
  list__indices : list nat
}.

(** ** The store *)

Record Heap := mkHeap {
  heap_nodes : list GraphNode;
  heap_edges : list GraphEdge;
  heap_graphs : list Graph;
  heap_lists : list List
}.

Definition empty_heap : Heap := mkHeap [] [] [] [].

Definition alter_node (f : GraphNode → GraphNode) (n : nref) (h : Heap) : Heap :=
  mkHeap (alter f n (heap_nodes h)) (heap_edges h) (heap_graphs h) (heap_lists h).

Definition alter_edge (f : GraphEdge → GraphEdge) (e : eref) (h : Heap) : Heap :=
  mkHeap (heap_nodes h) (alter f e (heap_edges h)) (heap_graphs h) (heap_lists h).

Definition alter_graph (f : Graph → Graph) (g : gref) (h : Heap) : Heap :=
  mkHeap (heap_nodes h) (heap_edges h) (alter f g (heap_graphs h)) (heap_lists h).

Definition alter_list (f : List → List) (l : lref) (h : Heap) : Heap :=
  mkHeap (heap_nodes h) (heap_edges h) (heap_graphs h) (alter f l (heap_lists h)).

Definition alloc_node (N : GraphNode) (h : Heap) : nref * Heap :=
  (length (heap_nodes h),
   mkHeap (heap_nodes h ++ [N]) (heap_edges h) (heap_graphs h) (heap_lists h)).

Definition alloc_edge (E : GraphEdge) (h : Heap) : eref * Heap :=
  (length (heap_edges h),
   mkHeap (heap_nodes h) (heap_edges h ++ [E]) (heap_graphs h) (heap_lists h)).

Definition alloc_graph (G : Graph) (h : Heap) : gref * Heap :=
  (length (heap_graphs h),
   mkHeap (heap_nodes h) (heap_edges h) (heap_graphs h ++ [G]) (heap_lists h)).

Definition alloc_list (L : List) (h : Heap) : lref * Heap :=
  (length (heap_lists h),
   mkHeap (heap_nodes h) (heap_edges h) (heap_graphs h) (heap_lists h ++ [L])).

(** ** Field updates *)

Definition set_node_hostGraph (g : gref) (N : GraphNode) : GraphNode :=
  mkGraphNode (node_id N) (node_inEdges N) (node_outEdges N) (node_edges N)
    (Some g) (node_dataIndex N) (node___visited N).

Definition set_node_dataIndex (i : Z) (N : GraphNode) : GraphNode :=
  mkGraphNode (node_id N) (node_inEdges N) (node_outEdges N) (node_edges N)
    (node_hostGraph N) i (node___visited N).

Definition set_node___visited (b : bool) (N : GraphNode) : GraphNode :=
  mkGraphNode (node_id N) (node_inEdges N) (node_outEdges N) (node_edges N)
    (node_hostGraph N) (node_dataIndex N) b.

Definition push_node_inEdges (e : eref) (N : GraphNode) : GraphNode :=
  mkGraphNode (node_id N) (node_inEdges N ++ [e]) (node_outEdges N) (node_edges N)
    (node_hostGraph N) (node_dataIndex N) (node___visited N).

Definition push_node_outEdges (e : eref) (N : GraphNode) : GraphNode :=
  mkGraphNode (node_id N) (node_inEdges N) (node_outEdges N ++ [e]) (node_edges N)
    (node_hostGraph N) (node_dataIndex N) (node___visited N).

Definition push_node_edges (e : eref) (N : GraphNode) : GraphNode :=
  mkGraphNode (node_id N) (node_inEdges N) (node_outEdges N) (node_edges N ++ [e])
    (node_hostGraph N) (node_dataIndex N) (node___visited N).

Definition set_edge_hostGraph (g : gref) (E : GraphEdge) : GraphEdge :=
  mkGraphEdge (edge_node1 E) (edge_node2 E) (edge_dataIndex E) (Some g).

Definition set_edge_dataIndex (i : Z) (E : GraphEdge) : GraphEdge :=
  mkGraphEdge (edge_node1 E) (edge_node2 E) i (edge_hostGraph E).

Definition graph_register_node (key : string) (n : nref) (G : Graph) : Graph :=
  mkGraph (graph_nodes G ++ [n]) (graph_edges G) (graph_data G) (graph_edgeData G)
    (graph__directed G) (<[key := n]> (graph__nodesMap G)) (graph__edgesMap G).

Definition graph_register_edge (key : string) (e : eref) (G : Graph) : Graph :=
  mkGraph (graph_nodes G) (graph_edges G ++ [e]) (graph_data G) (graph_edgeData G)
    (graph__directed G) (graph__nodesMap G) (<[key := e]> (graph__edgesMap G)).

Definition set_graph_data (l : lref) (G : Graph) : Graph :=
  mkGraph (graph_nodes G) (graph_edges G) (Some l) (graph_edgeData G)
    (graph__directed G) (graph__nodesMap G) (graph__edgesMap G).

Definition set_graph_edgeData (l : lref) (G : Graph) : Graph :=
  mkGraph (graph_nodes G) (graph_edges G) (graph_data G) (Some l)
    (graph__directed G) (graph__nodesMap G) (graph__edgesMap G).

(** ** Constructors *)

(** [new GraphNode(id, dataIndex)]: both arguments are optional. *)
Definition new_GraphNode (id : option string) (dataIndex : option Z) : GraphNode :=
  mkGraphNode (default "" id) [] [] [] None (default (-1) dataIndex) false.

(** [new GraphEdge(n1, n2, dataIndex)]. *)
Definition new_GraphEdge (n1 n2 : nref) (dataIndex : option Z) : GraphEdge :=
  mkGraphEdge n1 n2 (default (-1) dataIndex) None.

(** [new Graph(directed)]: [this._directed = directed || false]. *)
Definition new_Graph (directed : option bool) (h : Heap) : gref * Heap :=
  alloc_graph (mkGraph [] [] None None (default false directed) ∅ ∅) h.

(** ** Strings *)

Definition generateNodeKey (id : string) : string := "_EC_" +:+ id.

(** *** Numbers as text

    A number of the program is a double.  An integer [v ≥ 0] stands for the
    double nearest to it, ties going to the even significand of 53 bits; from
    [2 ^ 1024] on it is [Infinity] ([None]).  Up to [2 ^ 53] every integer is
    its own double. *)
Definition to_double (v : Z) : option Z :=
  let bits := Z.log2 v + 1 in
  if bool_decide (bits ≤ 53) then Some v
  else
    let shift := bits - 53 in
    let q := Z.shiftr v shift in
    let r := v - Z.shiftl q shift in
    let half := Z.shiftl 1 (shift - 1) in
    let q' := if bool_decide (half < r ∨ (r = half ∧ Z.odd q)) then q + 1 else q in
    let x := Z.shiftl q' shift in
    if bool_decide (2 ^ 1024 ≤ x) then None else Some x.

Definition decimal_length (v : Z) : nat := String.length (pretty v).

(** The digits the language prints for the double [x > 0]
    ([Number::toString]): the integer with the fewest significant digits that
    still reads back as [x], the nearest to [x] among those, the even one on
    a tie.  [p] is the power of ten the candidates are multiples of, from
    the leading digit down. *)
Fixpoint shortest_digits (fuel : nat) (x p : Z) : Z :=
  match fuel with
  | O => x
  | S fuel =>
    let lo := x / p * p in
    let hi := lo + p in
    let lo_ok := bool_decide (to_double lo = Some x) in
    let hi_ok := bool_decide (to_double hi = Some x) in
    if lo_ok && hi_ok then
      if bool_decide (x - lo < hi - x) then lo
      else if bool_decide (hi - x < x - lo) then hi
      else if Z.even (x / p) then lo else hi
    else if lo_ok then lo
    else if hi_ok then hi
    else shortest_digits fuel x (p / 10)
  end.

Fixpoint strip_zeros (fuel : nat) (v : Z) : Z :=
  match fuel with
  | O => v
  | S fuel => if bool_decide (v `mod` 10 = 0) then strip_zeros fuel (v / 10) else v
  end.

(** [d.ddde+n], the notation from [10 ^ 21] on. *)
Definition exponential (v : Z) : string :=
  let n := decimal_length v in
  match pretty (strip_zeros n v) with
  | String d ds =>
    String d (match ds with "" => "" | _ => "." +:+ ds end)
      +:+ "e+" +:+ pretty (Z.of_nat n - 1)
  | "" => ""
  end.

Definition Number_toString_abs (v : Z) : string :=
  match to_double v with
  | None => "Infinity"
  | Some x =>
    let n := decimal_length x in
    let s := shortest_digits n x (10 ^ (Z.of_nat n - 1)) in
    if bool_decide (s < 10 ^ 21) then pretty s else exponential s
  end.

(** ['' + i] for an integer [i]: full decimal digits below [10 ^ 21]
    (rounded to the double from [2 ^ 53] on), exponent notation above. *)
Definition Number_toString (i : Z) : string :=
  if bool_decide (i < 0) then "-" +:+ Number_toString_abs (- i)
  else Number_toString_abs i.

(** ['' + dataIndex] for an optional integer argument. *)
Definition string_of_dataIndex (dataIndex : option Z) : string :=
  match dataIndex with
  | None => "undefined"
  | Some i => Number_toString i
  end.

(** The [id] of [addNode] after its first line. *)
Definition normalize_id (id : option string) (dataIndex : option Z) : string :=
  match id with
  | None => string_of_dataIndex dataIndex
  | Some s => s
  end.

Definition edge_key (id1 id2 : string) : string := id1 +:+ "-" +:+ id2.

(** ** [Graph.addNode], [Graph.getNodeById] *)

Definition addNode (g : gref) (id : option string) (dataIndex : option Z)
    (h : Heap) : option (option nref * Heap) :=
  G ← heap_graphs h !! g;
  let id := normalize_id id dataIndex in
  match graph__nodesMap G !! generateNodeKey id with
  | Some _ => Some (None, h)
  | None =>
      let '(node, h) :=
        alloc_node (set_node_hostGraph g (new_GraphNode (Some id) dataIndex)) h in
      Some (Some node, alter_graph (graph_register_node (generateNodeKey id) node) g h)
  end.

Definition getNodeById (g : gref) (id : string) (h : Heap) : option (option nref) :=
  G ← heap_graphs h !! g;
  Some (graph__nodesMap G !! generateNodeKey id).

(** ** [Graph.addEdge] *)

(** An endpoint argument: [GraphNode | number | string].  The number is an
    integer; any other number indexes [nodes] like an integer out of
    range. *)
Inductive NodeArg :=
  | ArgNode (n : nref)
  | ArgNumber (i : Z)
  | ArgId (s : string).

(** The value of [n1] between the two groups of [if]s of [addEdge]. *)
Inductive NodeVal :=
  | ValNode (n : nref)
  | ValString (s : string)
  | ValUndefined.

Definition index_Z {A} (l : list A) (i : Z) : option A :=
  if decide (0 ≤ i) then l !! Z.to_nat i else None.

(** [if (typeof n1 === 'number') n1 = this.nodes[n1]] *)
Definition node_of_number (G : Graph) (a : NodeArg) : NodeVal :=
  match a with
  | ArgNode n => ValNode n
  | ArgNumber i =>
      match index_Z (graph_nodes G) i with
      | Some n => ValNode n
      | None => ValUndefined
      end
  | ArgId s => ValString s
  end.

(** [if (!(n1 instanceof GraphNode)) n1 = nodesMap[generateNodeKey(n1)]];
    an [undefined] left by the step before is concatenated as the text
    [undefined]. *)
Definition node_of_key (G : Graph) (v : NodeVal) : option nref :=
  match v with
  | ValNode n => Some n
  | ValString s => graph__nodesMap G !! generateNodeKey s
  | ValUndefined => graph__nodesMap G !! generateNodeKey "undefined"
  end.

Definition resolve_node (G : Graph) (a : NodeArg) : option nref :=
  node_of_key G (node_of_number G a).

Definition addEdge (g : gref) (n1 n2 : NodeArg) (dataIndex : option Z)
    (h : Heap) : option (option eref * Heap) :=
  G ← heap_graphs h !! g;
  match resolve_node G n1, resolve_node G n2 with
  | Some n1, Some n2 =>
      N1 ← heap_nodes h !! n1;
      N2 ← heap_nodes h !! n2;
      let key := edge_key (node_id N1) (node_id N2) in
      match graph__edgesMap G !! key with
      | Some _ => Some (None, h)
      | None =>
          let '(edge, h) :=
            alloc_edge (set_edge_hostGraph g (new_GraphEdge n1 n2 dataIndex)) h in
          let h :=
            if graph__directed G
            then alter_node (push_node_inEdges edge) n2
                   (alter_node (push_node_outEdges edge) n1 h)
            else h in
          let h := alter_node (push_node_edges edge) n1 h in
          let h :=
            if decide (n1 = n2) then h
            else alter_node (push_node_edges edge) n2 h in
          Some (Some edge, alter_graph (graph_register_edge key edge) g h)
      end
  | _, _ => Some (None, h)
  end.

(** ** [Graph.getEdge] *)

Inductive NodeOrId :=
  | IsNode (n : nref)
  | IsId (s : string).

(** [if (n1 instanceof GraphNode) n1 = n1.id] *)
Definition id_of (h : Heap) (a : NodeOrId) : option string :=
  match a with
  | IsNode n => node_id <$> heap_nodes h !! n
  | IsId s => Some s
  end.

(** [a || b] on values that are an object or [undefined]. *)
Definition or_else {A} (a b : option A) : option A :=
  match a with
  | Some x => Some x
  | None => b
  end.

Definition getEdge (g : gref) (n1 n2 : NodeOrId) (h : Heap) : option (option eref) :=
  G ← heap_graphs h !! g;
  id1 ← id_of h n1;
  id2 ← id_of h n2;
  let edgesMap := graph__edgesMap G in
  if graph__directed G
  then Some (edgesMap !! edge_key id1 id2)
  else Some (or_else (edgesMap !! edge_key id1 id2) (edgesMap !! edge_key id2 id1)).

(** ** [Graph.breadthFirstTraverse] *)

Inductive Direction := DirNone | DirIn | DirOut.

(** [currentNode[edgeType]] *)
Definition edges_by (direction : Direction) (N : GraphNode) : list eref :=
  match direction with
  | DirOut => node_outEdges N
  | DirIn => node_inEdges N
  | DirNone => node_edges N
  end.

(** One invocation [cb.call(context, node, fromNode)] and what it
    returned. *)
Record Visit := mkVisit {
  visit_node : nref;
  visit_from : option nref;
  visit_stop : bool
}.

(** How the [for] loop over the edges of [currentNode] ends: it runs to
    its end and leaves a queue, or it leaves the whole method by
    [return]. *)
Inductive LoopExit :=
  | Continue (queue : list nref)
  | Return.

(** [for (var i = 0; i < this.nodes.length; i++) this.nodes[i].__visited = false] *)
Fixpoint reset___visited (nodes : list nref) (h : Heap) : Heap :=
  match nodes with
  | [] => h
  | n :: nodes => reset___visited nodes (alter_node (set_node___visited false) n h)
  end.

Section Traverse.
(** The callback reads and writes a context of its own; it does not
    touch the graph.  It answers whether the traversal is to stop. *)
Context {Ctx : Type}.
Variable cb : nref → option nref → Ctx → bool * Ctx.

Fixpoint traverse_edges (currentNode : nref) (edges : list eref)
    (queue : list nref) (h : Heap) (c : Ctx)
    : option (list Visit * LoopExit * Heap * Ctx) :=
  match edges with
  | [] => Some ([], Continue queue, h, c)
  | e :: edges =>
      E ← heap_edges h !! e;
      let otherNode :=
        if decide (edge_node1 E = currentNode) then edge_node2 E else edge_node1 E in
      O ← heap_nodes h !! otherNode;
      if node___visited O then traverse_edges currentNode edges queue h c
      else
        let '(stop, c) := cb otherNode (Some currentNode) c in
        let v := mkVisit otherNode (Some currentNode) stop in
        if stop then Some ([v], Return, h, c)
        else
          '(vs, exit, h, c) ←
            traverse_edges currentNode edges (queue ++ [otherNode])
              (alter_node (set_node___visited true) otherNode h) c;
          Some (v :: vs, exit, h, c)
  end.

(** The [while (queue.length)] loop.  The boolean of the result tells
    whether the loop came to its end within [fuel] rounds. *)
Fixpoint traverse_queue (fuel : nat) (direction : Direction)
    (queue : list nref) (h : Heap) (c : Ctx)
    : option (list Visit * bool * Heap * Ctx) :=
  match queue with
  | [] => Some ([], true, h, c)
  | currentNode :: queue =>
      match fuel with
      | O => Some ([], false, h, c)
      | S fuel =>
          C ← heap_nodes h !! currentNode;
          '(vs, exit, h, c) ←
            traverse_edges currentNode (edges_by direction C) queue h c;
          match exit with
          | Return => Some (vs, true, h, c)
          | Continue queue =>
              '(vs', fin, h, c) ← traverse_queue fuel direction queue h c;
              Some (vs ++ vs', fin, h, c)
          end
      end
  end.

(** [if (!(startNode instanceof GraphNode)) startNode = this._nodesMap[...]] *)
Definition start_node (G : Graph) (startNode : NodeOrId) : option nref :=
  match startNode with
  | IsNode n => Some n
  | IsId s => graph__nodesMap G !! generateNodeKey s
  end.

(** Every round of the queue loop takes a node off the queue, and a node
    is put on the queue only while its flag is still unset, so a round
    per node of the store and one for the start node are enough
    ([breadthFirstTraverse_completes]). *)
Definition traverse_fuel (h : Heap) : nat := S (length (heap_nodes h)).

Definition breadthFirstTraverse (g : gref) (startNode : NodeOrId)
    (direction : Direction) (h : Heap) (c : Ctx)
    : option (list Visit * bool * Heap * Ctx) :=
  G ← heap_graphs h !! g;
  match start_node G startNode with
  | None => Some ([], true, h, c)
  | Some startNode =>
      let h := reset___visited (graph_nodes G) h in
      let '(stop, c) := cb startNode None c in
      let v := mkVisit startNode None stop in
      if stop then Some ([v], true, h, c)
      else
        '(vs, fin, h, c) ←
          traverse_queue (traverse_fuel h) direction [startNode] h c;
        Some (v :: vs, fin, h, c)
  end.
End Traverse.

(** ** The record table *)

(** Modelled from the spec: [count] of the absent [List], the number of
    live positions. *)
Definition List_count (L : List) : nat := length (list__indices L).

(** Modelled from the spec: [getRawIndex] of the absent [List], from a live
    position to the storage index; [None] outside the live positions,
    which [Graph.update] never asks for. *)
Definition List_getRawIndex (L : List) (idx : nat) : option nat :=
  list__indices L !! idx.

(** Modelled from the spec: [filterSelf(cb)] of the absent [List] keeps the
    live positions the predicate accepts.  The callback of [Graph.update]
    passes its argument to [getRawIndex], so the predicate is asked about
    live positions, and it is asked against the view as it is before the
    filtering.  The callback may raise. *)
Fixpoint filter_indices (cb : nat → option bool) (idx : nat) (indices : list nat)
    : option (list nat) :=
  match indices with
  | [] => Some []
  | rawIdx :: indices =>
      keep ← cb idx;
      rest ← filter_indices cb (S idx) indices;
      Some (if keep : bool then rawIdx :: rest else rest)
  end.

(** Modelled from the spec: [filterSelf] of the absent [List], see
    [filter_indices]. *)
Definition List_filterSelf (cb : nat → option bool) (L : List) : option List :=
  mkList <$> filter_indices cb 0%nat (list__indices L).

(** ** [Graph.update] *)

(** [for (...) nodes[i].dataIndex = -1] *)
Fixpoint reset_node_dataIndex (nodes : list nref) (h : Heap) : Heap :=
  match nodes with
  | [] => h
  | n :: nodes => reset_node_dataIndex nodes (alter_node (set_node_dataIndex (-1)) n h)
  end.

(** [for (...) edges[i].dataIndex = -1] *)
Fixpoint reset_edge_dataIndex (edges : list eref) (h : Heap) : Heap :=
  match edges with
  | [] => h
  | e :: edges => reset_edge_dataIndex edges (alter_edge (set_edge_dataIndex (-1)) e h)
  end.

(** [nodes[data.getRawIndex(i)].dataIndex = i] for the positions [idxs];
    a storage index outside [nodes] raises. *)
Fixpoint assign_node_dataIndex (data : List) (nodes : list nref) (idxs : list nat)
    (h : Heap) : option Heap :=
  match idxs with
  | [] => Some h
  | i :: idxs =>
      rawIdx ← List_getRawIndex data i;
      n ← nodes !! rawIdx;
      assign_node_dataIndex data nodes idxs
        (alter_node (set_node_dataIndex (Z.of_nat i)) n h)
  end.

(** [edges[edgeData.getRawIndex(i)].dataIndex = i] *)
Fixpoint assign_edge_dataIndex (edgeData : List) (edges : list eref) (idxs : list nat)
    (h : Heap) : option Heap :=
  match idxs with
  | [] => Some h
  | i :: idxs =>
      rawIdx ← List_getRawIndex edgeData i;
      e ← edges !! rawIdx;
      assign_edge_dataIndex edgeData edges idxs
        (alter_edge (set_edge_dataIndex (Z.of_nat i)) e h)
  end.

(** The callback given to [edgeData.filterSelf]. *)
Definition both_ends_live (edgeData : List) (edges : list eref) (h : Heap)
    (idx : nat) : option bool :=
  rawIdx ← List_getRawIndex edgeData idx;
  e ← edges !! rawIdx;
  edge ← heap_edges h !! e;
  N1 ← heap_nodes h !! edge_node1 edge;
  if bool_decide (0 ≤ node_dataIndex N1)
  then N2 ← heap_nodes h !! edge_node2 edge;
       Some (bool_decide (0 ≤ node_dataIndex N2))
  else Some false.

Definition update (g : gref) (h : Heap) : option Heap :=
  G ← heap_graphs h !! g;
  let nodes := graph_nodes G in
  let edges := graph_edges G in
  let h := reset_node_dataIndex nodes h in
  data ← graph_data G;
  dataL ← heap_lists h !! data;
  h ← assign_node_dataIndex dataL nodes (seq 0 (List_count dataL)) h;
  edgeData ← graph_edgeData G;
  edgeDataL ← heap_lists h !! edgeData;
  filtered ← List_filterSelf (both_ends_live edgeDataL edges h) edgeDataL;
  let h := alter_list (λ _, filtered) edgeData h in
  let h := reset_edge_dataIndex edges h in
  edgeDataL ← heap_lists h !! edgeData;
  assign_edge_dataIndex edgeDataL edges (seq 0 (List_count edgeDataL)) h.

(** ** [Graph.clone] *)

(** [graph.addNode(nodes[i].id, nodes[i].dataIndex)] for the nodes of the
    source; the source's array is not written while the loop runs. *)
Fixpoint clone_nodes (graph : gref) (nodes : list nref) (h : Heap) : option Heap :=
  match nodes with
  | [] => Some h
  | n :: nodes =>
      N ← heap_nodes h !! n;
      '(_, h) ← addNode graph (Some (node_id N)) (Some (node_dataIndex N)) h;
      clone_nodes graph nodes h
  end.

(** [graph.addEdge(e.node1.id, e.node2.id, e.dataIndex)] *)
Fixpoint clone_edges (graph : gref) (edges : list eref) (h : Heap) : option Heap :=
  match edges with
  | [] => Some h
  | e :: edges =>
      E ← heap_edges h !! e;
      N1 ← heap_nodes h !! edge_node1 E;
      N2 ← heap_nodes h !! edge_node2 E;
      '(_, h) ← addEdge graph (ArgId (node_id N1)) (ArgId (node_id N2))
                  (Some (edge_dataIndex E)) h;
      clone_edges graph edges h
  end.

Definition clone (g : gref) (h : Heap) : option (gref * Heap) :=
  G ← heap_graphs h !! g;
  let '(graph, h) := new_Graph (Some (graph__directed G)) h in
  h ← clone_nodes graph (graph_nodes G) h;
  h ← clone_edges graph (graph_edges G) h;
  Some (graph, h).

(** ** [createGraphDataProxyMixin] *)

(** The second argument of [createGraphDataProxyMixin]: the name of the
    property of the host graph that holds the record table. *)
Inductive DataName := Name_data | Name_edgeData.

(** [graph[dataName]] *)
Definition graph_table (dataName : DataName) (G : Graph) : option lref :=
  match dataName with
  | Name_data => graph_data G
  | Name_edgeData => graph_edgeData G
  end.

(** The [this] of a mixed-in method. *)
Inductive Host :=
  | HostNode (n : nref)
  | HostEdge (e : eref).

Definition host_hostGraph (h : Heap) (this : Host) : option (option gref) :=
  match this with
  | HostNode n => node_hostGraph <$> heap_nodes h !! n
  | HostEdge e => edge_hostGraph <$> heap_edges h !! e
  end.

Definition host_dataIndex (h : Heap) (this : Host) : option Z :=
  match this with
  | HostNode n => node_dataIndex <$> heap_nodes h !! n
  | HostEdge e => edge_dataIndex <$> heap_edges h !! e
  end.

(** [this[hostName][dataName]]; reading a property of [undefined]
    raises, and so does calling a method of an [undefined] table. *)
Definition host_table (dataName : DataName) (h : Heap) (this : Host) : option lref :=
  hostGraph ← host_hostGraph h this;
  g ← hostGraph;
  G ← heap_graphs h !! g;
  graph_table dataName G.

Section Mixin.
(** The payloads handed through to the table ([any] in the source). *)
Context {Value : Type}.

(** The methods of [List] the mixin calls, with their arguments.  The
    table itself is outside the graph; a mixed-in method is described
    by the table it calls and the call it makes. *)
Inductive ListCall :=
  | Call_get_getDimension (dimension : string) (idx : Z)
      (* [data.get(data.getDimension(dimension), idx)] *)
  | Call_setItemVisual (idx : Z) (key : string) (value : option Value)
  | Call_getItemVisual (idx : Z) (key : string) (ignoreParent : option bool)
  | Call_setItemLayout (idx : Z) (layout : Value) (merge : option bool)
  | Call_getItemLayout (idx : Z)
  | Call_getItemGraphicEl (idx : Z)
  | Call_getRawIndex (idx : Z)
  | Call_getItemModel_getModel (idx : Z) (path : list string)
      (* [data.getItemModel(idx).getModel(path)] *).

(** A method either raises ([None]), or returns without calling the
    table ([Some None]), or calls the table [l]. *)
Definition Delegation : Type := option (option (lref * ListCall)).

Definition delegate (dataName : DataName) (h : Heap) (this : Host)
    (call : Z → ListCall) : Delegation :=
  l ← host_table dataName h this;
  idx ← host_dataIndex h this;
  Some (Some (l, call idx)).

(** [this.dataIndex >= 0 && this[hostName][dataName].m(...)] *)
Definition delegate_if_bound (dataName : DataName) (h : Heap) (this : Host)
    (call : Z → ListCall) : Delegation :=
  idx ← host_dataIndex h this;
  if bool_decide (0 ≤ idx) then delegate dataName h this call
  else Some None.

(** [dimension || 'value'] *)
Definition dimension_or_value (dimension : option string) : string :=
  match dimension with
  | None | Some "" => "value"
  | Some d => d
  end.

Record ProxyMixin := mkProxyMixin {
  getValue : Host → option string → Heap → Delegation;
  setVisual : Host → string → option Value → Heap → Delegation;
  getVisual : Host → string → option bool → Heap → Delegation;
  setLayout : Host → Value → option bool → Heap → Delegation;
  getLayout : Host → Heap → Delegation;
  getGraphicEl : Host → Heap → Delegation;
  getRawIndex : Host → Heap → Delegation
}.

Definition createGraphDataProxyMixin (dataName : DataName) : ProxyMixin :=
  {| getValue this dimension h :=
       delegate dataName h this
         (Call_get_getDimension (dimension_or_value dimension));
     setVisual this key value h :=
       delegate_if_bound dataName h this (λ idx, Call_setItemVisual idx key value);
     getVisual this key ignoreParent h :=
       delegate dataName h this (λ idx, Call_getItemVisual idx key ignoreParent);
     setLayout this layout merge h :=
       delegate_if_bound dataName h this (λ idx, Call_setItemLayout idx layout merge);
     getLayout this h := delegate dataName h this Call_getItemLayout;
     getGraphicEl this h := delegate dataName h this Call_getItemGraphicEl;
     getRawIndex this h := delegate dataName h this Call_getRawIndex |}.

(** [zrUtil.mixin(GraphEdge, createGraphDataProxyMixin('hostGraph', 'data'))];
    [mixin] copies the methods onto the class's prototype, which has none
    of these names. *)
Definition GraphEdge_mixin : ProxyMixin := createGraphDataProxyMixin Name_data.

(** [zrUtil.mixin(GraphNode, createGraphDataProxyMixin('hostGraph', 'edgeData'))] *)
Definition GraphNode_mixin : ProxyMixin := createGraphDataProxyMixin Name_edgeData.

(** [GraphNode.getModel(path)], a method of the class itself: nothing for
    a node without row, else [graph.data.getItemModel(...).getModel(path)]. *)
Definition GraphNode_getModel (n : nref) (path : list string) (h : Heap)
    : Delegation :=
  N ← heap_nodes h !! n;
  if bool_decide (node_dataIndex N < 0) then Some None
  else
    graph ← node_hostGraph N;
    G ← heap_graphs h !! graph;
    data ← graph_data G;
    Some (Some (data, Call_getItemModel_getModel (node_dataIndex N) path)).

(** [GraphEdge.getModel(path)]: the same on [graph.edgeData]. *)
Definition GraphEdge_getModel (e : eref) (path : list string) (h : Heap)
    : Delegation :=
  E ← heap_edges h !! e;
  if bool_decide (edge_dataIndex E < 0) then Some None
  else
    graph ← edge_hostGraph E;
    G ← heap_graphs h !! graph;
    edgeData ← graph_edgeData G;
    Some (Some (edgeData, Call_getItemModel_getModel (edge_dataIndex E) path)).
End Mixin.

Arguments ListCall : clear implicits.
Arguments Delegation : clear implicits.
Arguments ProxyMixin : clear implicits.

(** ** Sequences of calls *)

(** A sequence of [addNode] calls on one graph, with what each returned. *)
Fixpoint addNodes (g : gref) (calls : list (option string * option Z)) (h : Heap)
    : option (list (option nref) * Heap) :=
  match calls with
  | [] => Some ([], h)
  | (id, dataIndex) :: calls =>
      '(node, h) ← addNode g id dataIndex h;
      '(nodes, h) ← addNodes g calls h;
      Some (node :: nodes, h)
  end.

(** The id under which a call of [addNode] registers its node. *)
Definition call_id (call : option string * option Z) : string :=
  normalize_id call.1 call.2.

(** ** Views of the store *)

(** The store a call leaves behind. *)
Definition after {A} (o : option (A * Heap)) : Heap := default empty_heap (snd <$> o).

(** The graph object at [g]. *)
Definition graph_at (h : Heap) (g : gref) : Graph :=
  default (mkGraph [] [] None None false ∅ ∅) (heap_graphs h !! g).

(** The node at position [m] after [addEdge] has linked the new edge
    [edge] from [n1] to [n2] ([addEdge_fresh]). *)
Definition linked_node (directed : bool) (edge : eref) (n1 n2 m : nref)
    (N : GraphNode) : GraphNode :=
  mkGraphNode (node_id N)
    (node_inEdges N ++ if directed && bool_decide (m = n2) then [edge] else [])
    (node_outEdges N ++ if directed && bool_decide (m = n1) then [edge] else [])
    (node_edges N ++ if bool_decide (m = n1 ∨ m = n2) then [edge] else [])
    (node_hostGraph N) (node_dataIndex N) (node___visited N).

(** All edges a node lists, whatever the list. *)
Definition node_edge_lists (N : GraphNode) : list eref :=
  node_inEdges N ++ node_outEdges N ++ node_edges N.

(** [e] is exactly one element of [l]. *)
Definition occurs_once (e : eref) (l : list eref) : Prop :=
  length (filter (λ x, x = e) l) = 1%nat.

(** An edge keeps its ends when its [dataIndex] is written. *)
Definition same_ends (E E' : GraphEdge) : Prop :=
  edge_node1 E' = edge_node1 E ∧ edge_node2 E' = edge_node2 E.

(** What [breadthFirstTraverse] and [update] leave alone: the graphs, and
    of every node and edge all but [__visited] and [dataIndex]. *)
Definition node_topology (N : GraphNode)
    : string * list eref * list eref * list eref * option gref :=
  (node_id N, node_inEdges N, node_outEdges N, node_edges N, node_hostGraph N).

Definition edge_ends (E : GraphEdge) : nref * nref := (edge_node1 E, edge_node2 E).

Definition same_topology (h h' : Heap) : Prop :=
  heap_graphs h' = heap_graphs h ∧
  node_topology <$> heap_nodes h' = node_topology <$> heap_nodes h ∧
  edge_ends <$> heap_edges h' = edge_ends <$> heap_edges h.

(** The id and [dataIndex] of the node [n]. *)
Definition node_view (h : Heap) (n : nref) : option (string * Z) :=
  (λ N, (node_id N, node_dataIndex N)) <$> heap_nodes h !! n.

(** The ids of the two ends of the edge [e], and its [dataIndex]. *)
Definition edge_view (h : Heap) (e : eref) : option (string * string * Z) :=
  E ← heap_edges h !! e;
  N1 ← heap_nodes h !! edge_node1 E;
  N2 ← heap_nodes h !! edge_node2 E;
  Some (node_id N1, node_id N2, edge_dataIndex E).






(** ** Views of a traversal *)

(** The callback invocations of a traversal, in order. *)
Definition traversal_visits {Ctx} (r : option (list Visit * bool * Heap * Ctx))
    : option (list Visit) :=
  (λ r, r.1.1.1) <$> r.

(** [replays cb c vs c'] holds when [vs] is what the callback answers,
    one call after the other, from the context [c] to the context [c']. *)
Fixpoint replays {Ctx} (cb : nref → option nref → Ctx → bool * Ctx)
    (c : Ctx) (vs : list Visit) (c' : Ctx) : Prop :=
  match vs with
  | [] => c' = c
  | v :: vs =>
      (cb (visit_node v) (visit_from v) c).1 = visit_stop v ∧
      replays cb (cb (visit_node v) (visit_from v) c).2 vs c'
  end.

(** No call in [vs] asked to stop. *)
Definition all_continue (vs : list Visit) : Prop :=
  Forall (λ v, visit_stop v = false) vs.

(** The last call of [vs] asked to stop and no call before it did. *)
Definition stopped_by_last (vs : list Visit) : Prop :=
  ∃ front v, vs = front ++ [v] ∧ all_continue front ∧ visit_stop v = true.

(** The number of nodes whose [__visited] is not set. *)
Definition unvisited (nodes : list GraphNode) : nat :=
  length (filter (λ N, node___visited N = false) nodes).

(** The node [n] has its [__visited] set. *)
Definition flagged (h : Heap) (n : nref) : Prop :=
  ∃ N, heap_nodes h !! n = Some N ∧ node___visited N = true.

(** ** Well-formed stores *)

(** Every edge a node lists is an object of the store. *)
Definition node_closed (h : Heap) (N : GraphNode) : Prop :=
  Forall (λ e, (e < length (heap_edges h))%nat) (node_edge_lists N).

(** Both ends of an edge are objects of the store. *)
Definition edge_closed (h : Heap) (E : GraphEdge) : Prop :=
  (edge_node1 E < length (heap_nodes h))%nat ∧
  (edge_node2 E < length (heap_nodes h))%nat.

(** No reference between nodes and edges dangles; a JavaScript heap is
    always so. *)
Definition heap_closed (h : Heap) : Prop :=
  Forall (node_closed h) (heap_nodes h) ∧ Forall (edge_closed h) (heap_edges h).

(** ** Invariants of the object graph *)

(** The graph [G], stored at [g], is as [addNode] and [addEdge] build it
    from nodes of its own: its nodes and edges are objects of the store,
    each once; a node belongs to [g] and is indexed under its id; the index
    names only such nodes; an edge joins two nodes of the graph and is
    indexed under the key of their ids. *)
Record graph_wf (h : Heap) (g : gref) (G : Graph) : Prop := mk_graph_wf {
  wf_nodes_NoDup : NoDup (graph_nodes G);
  wf_edges_NoDup : NoDup (graph_edges G);
  wf_node : ∀ n, n ∈ graph_nodes G →
    ∃ N, heap_nodes h !! n = Some N ∧
         node_hostGraph N = Some g ∧
         graph__nodesMap G !! generateNodeKey (node_id N) = Some n;
  wf_nodesMap : ∀ k n, graph__nodesMap G !! k = Some n → n ∈ graph_nodes G;
  wf_edge : ∀ e, e ∈ graph_edges G →
    ∃ E N1 N2,
      heap_edges h !! e = Some E ∧
      edge_node1 E ∈ graph_nodes G ∧
      edge_node2 E ∈ graph_nodes G ∧
      heap_nodes h !! edge_node1 E = Some N1 ∧
      heap_nodes h !! edge_node2 E = Some N2 ∧
      graph__edgesMap G !! edge_key (node_id N1) (node_id N2) = Some e
}.

(** Adjacency as the code keeps it: an edge of the graph is once in the
    [edges] of each of its ends (a self-loop has one end and is there
    once), and in a directed graph in [outEdges] of its first and
    [inEdges] of its second end; what a node of the graph lists is an edge
    of the graph; in an undirected graph [inEdges] and [outEdges] are
    empty. *)
Record adjacency_consistent (h : Heap) (G : Graph) : Prop := mk_adjacency_consistent {
  adj_edge : ∀ e E N1 N2,
    e ∈ graph_edges G →
    heap_edges h !! e = Some E →
    heap_nodes h !! edge_node1 E = Some N1 →
    heap_nodes h !! edge_node2 E = Some N2 →
    occurs_once e (node_edges N1) ∧
    occurs_once e (node_edges N2) ∧
    (graph__directed G = true → e ∈ node_outEdges N1 ∧ e ∈ node_inEdges N2);
  adj_node : ∀ n N e,
    n ∈ graph_nodes G →
    heap_nodes h !! n = Some N →
    e ∈ node_edge_lists N →
    e ∈ graph_edges G;
  adj_undirected : graph__directed G = false →
    ∀ n N, n ∈ graph_nodes G → heap_nodes h !! n = Some N →
      node_inEdges N = [] ∧ node_outEdges N = []
}.

(** Every graph of the store is well formed and adjacency-consistent. *)
Definition heap_inv (h : Heap) : Prop :=
  ∀ g G, heap_graphs h !! g = Some G → graph_wf h g G ∧ adjacency_consistent h G.

(** An endpoint given as a node object is a node of the graph. *)
Definition arg_in_graph (G : Graph) (a : NodeArg) : Prop :=
  match a with
  | ArgNode n => n ∈ graph_nodes G
  | ArgNumber _ | ArgId _ => True
  end.

(** ** [Graph.isDirected] *)

Definition isDirected (g : gref) (h : Heap) : option bool :=
  graph__directed <$> heap_graphs h !! g.

(** ** [Graph.getNodeByIndex], [Graph.getEdgeByIndex] *)

(** Modelled from the spec: [getRawIndex] of the absent [List] on a
    number; it answers on the live positions only ([List_getRawIndex]). *)
Definition getRawIndex_of (L : List) (dataIndex : Z) : option nat :=
  if decide (0 ≤ dataIndex) then List_getRawIndex L (Z.to_nat dataIndex) else None.

(** [this.nodes[this.data.getRawIndex(dataIndex)]]; an unset [data]
    raises, a storage index outside [nodes] gives [undefined]. *)
Definition getNodeByIndex (g : gref) (dataIndex : Z) (h : Heap)
    : option (option nref) :=
  G ← heap_graphs h !! g;
  data ← graph_data G;
  dataL ← heap_lists h !! data;
  rawIdx ← getRawIndex_of dataL dataIndex;
  Some (graph_nodes G !! rawIdx).

(** [this.edges[this.edgeData.getRawIndex(dataIndex)]] *)
Definition getEdgeByIndex (g : gref) (dataIndex : Z) (h : Heap)
    : option (option eref) :=
  G ← heap_graphs h !! g;
  edgeData ← graph_edgeData G;
  edgeDataL ← heap_lists h !! edgeData;
  rawIdx ← getRawIndex_of edgeDataL dataIndex;
  Some (graph_edges G !! rawIdx).

(** ** [Graph.eachNode], [Graph.eachEdge] *)

Section Each.
(** The callback gets the object and its position in [nodes] or [edges];
    like the callback of a traversal it has a context of its own and does
    not touch the graph. *)
Context {Ctx : Type}.
Variable cb : nat → nat → Ctx → Ctx.

(** [for (var i = 0; i < len; i++) if (nodes[i].dataIndex >= 0) cb(nodes[i], i)],
    from position [i] on; the result lists the calls made. *)
Fixpoint eachNode_from (i : nat) (nodes : list nref) (h : Heap) (c : Ctx)
    : option (list (nref * nat) * Ctx) :=
  match nodes with
  | [] => Some ([], c)
  | n :: nodes =>
      N ← heap_nodes h !! n;
      if bool_decide (0 ≤ node_dataIndex N)
      then '(calls, c) ← eachNode_from (S i) nodes h (cb n i c);
           Some ((n, i) :: calls, c)
      else eachNode_from (S i) nodes h c
  end.

Definition eachNode (g : gref) (h : Heap) (c : Ctx)
    : option (list (nref * nat) * Ctx) :=
  G ← heap_graphs h !! g;
  eachNode_from 0%nat (graph_nodes G) h c.

(** [edges[i].dataIndex >= 0 && edges[i].node1.dataIndex >= 0
     && edges[i].node2.dataIndex >= 0] *)
Definition edge_is_live (h : Heap) (E : GraphEdge) : option bool :=
  if bool_decide (0 ≤ edge_dataIndex E)
  then N1 ← heap_nodes h !! edge_node1 E;
       if bool_decide (0 ≤ node_dataIndex N1)
       then N2 ← heap_nodes h !! edge_node2 E;
            Some (bool_decide (0 ≤ node_dataIndex N2))
       else Some false
  else Some false.

Fixpoint eachEdge_from (i : nat) (edges : list eref) (h : Heap) (c : Ctx)
    : option (list (eref * nat) * Ctx) :=
  match edges with
  | [] => Some ([], c)
  | e :: edges =>
      E ← heap_edges h !! e;
      live ← edge_is_live h E;
      if live : bool
      then '(calls, c) ← eachEdge_from (S i) edges h (cb e i c);
           Some ((e, i) :: calls, c)
      else eachEdge_from (S i) edges h c
  end.

Definition eachEdge (g : gref) (h : Heap) (c : Ctx)
    : option (list (eref * nat) * Ctx) :=
  G ← heap_graphs h !! g;
  eachEdge_from 0%nat (graph_edges G) h c.
End Each.

(** ** [GraphNode.degree], [inDegree], [outDegree] *)

Definition degree (n : nref) (h : Heap) : option nat :=
  (λ N, length (node_edges N)) <$> heap_nodes h !! n.

Definition inDegree (n : nref) (h : Heap) : option nat :=
  (λ N, length (node_inEdges N)) <$> heap_nodes h !! n.

Definition outDegree (n : nref) (h : Heap) : option nat :=
  (λ N, length (node_outEdges N)) <$> heap_nodes h !! n.

(** ** What no operation undoes *)

(** A node keeps its id and its graph; its three lists only get longer,
    at their end. *)
Record node_grows (N N' : GraphNode) : Prop := mk_node_grows {
  grows_id : node_id N' = node_id N;
  grows_hostGraph : node_hostGraph N' = node_hostGraph N;
  grows_node_inEdges : node_inEdges N `prefix_of` node_inEdges N';
  grows_node_outEdges : node_outEdges N `prefix_of` node_outEdges N';
  grows_node_edges : node_edges N `prefix_of` node_edges N'
}.

(** A graph keeps its flag and its tables; [nodes] and [edges] only get
    longer, at their end, and the two indices keep what they hold. *)
Record graph_grows (G G' : Graph) : Prop := mk_graph_grows {
  grows_directed : graph__directed G' = graph__directed G;
  grows_data : graph_data G' = graph_data G;
  grows_edgeData : graph_edgeData G' = graph_edgeData G;
  grows_nodes : graph_nodes G `prefix_of` graph_nodes G';
  grows_edges : graph_edges G `prefix_of` graph_edges G';
  grows_nodesMap : graph__nodesMap G ⊆ graph__nodesMap G';
  grows_edgesMap : graph__edgesMap G ⊆ graph__edgesMap G'
}.

(** Every object of [h] is an object of [h'], grown at most. *)
Definition store_grows (h h' : Heap) : Prop :=
  (∀ n N, heap_nodes h !! n = Some N →
     ∃ N', heap_nodes h' !! n = Some N' ∧ node_grows N N') ∧
  (∀ e E, heap_edges h !! e = Some E →
     ∃ E', heap_edges h' !! e = Some E' ∧ edge_ends E' = edge_ends E) ∧
  (∀ g G, heap_graphs h !! g = Some G →
     ∃ G', heap_graphs h' !! g = Some G' ∧ graph_grows G G').

(** ** The store while [clone] runs *)

(** [h'] holds the objects of [h] as they were, then the objects made
    since; the graph made last has no tables and indexes only nodes made
    since. *)
Definition cloning (h h' : Heap) : Prop :=
  ∃ nodes edges Gc,
    heap_nodes h' = heap_nodes h ++ nodes ∧
    heap_edges h' = heap_edges h ++ edges ∧
    heap_graphs h' = heap_graphs h ++ [Gc] ∧
    heap_lists h' = heap_lists h ∧
    graph_data Gc = None ∧
    graph_edgeData Gc = None ∧
    ∀ k n, graph__nodesMap Gc !! k = Some n → (length (heap_nodes h) ≤ n)%nat.

(** ** Adjacency, exactly *)

(** The node [n] is an end of the edge [e]; its first end; its second
    end. *)
Definition edge_at (h : Heap) (n : nref) (e : eref) : bool :=
  match heap_edges h !! e with
  | Some E => bool_decide (n = edge_node1 E ∨ n = edge_node2 E)
  | None => false
  end.

Definition edge_from (h : Heap) (n : nref) (e : eref) : bool :=
  match heap_edges h !! e with
  | Some E => bool_decide (n = edge_node1 E)
  | None => false
  end.

Definition edge_to (h : Heap) (n : nref) (e : eref) : bool :=
  match heap_edges h !! e with
  | Some E => bool_decide (n = edge_node2 E)
  | None => false
  end.

(** The two ends of the edge [e] are one node. *)
Definition is_loop (h : Heap) (e : eref) : bool :=
  match heap_edges h !! e with
  | Some E => bool_decide (edge_node1 E = edge_node2 E)
  | None => false
  end.

(** The lists of a node of the graph are the [edges] of the graph with
    the edges of other nodes left out, in the order of [edges]: [edges]
    keeps the edges the node is an end of, and in a directed graph
    [outEdges] those it is the first and [inEdges] those it is the second
    end of; in an undirected graph the two are empty. *)
Record adjacency_exact (h : Heap) (G : Graph) : Prop := mk_adjacency_exact {
  exact_edges : ∀ n N, n ∈ graph_nodes G → heap_nodes h !! n = Some N →
    node_edges N = filter (λ e, edge_at h n e) (graph_edges G);
  exact_outEdges : ∀ n N, n ∈ graph_nodes G → heap_nodes h !! n = Some N →
    node_outEdges N =
      if graph__directed G then filter (λ e, edge_from h n e) (graph_edges G)
      else [];
  exact_inEdges : ∀ n N, n ∈ graph_nodes G → heap_nodes h !! n = Some N →
    node_inEdges N =
      if graph__directed G then filter (λ e, edge_to h n e) (graph_edges G)
      else []
}.

Definition heap_exact (h : Heap) : Prop :=
  ∀ g G, heap_graphs h !! g = Some G → adjacency_exact h G.

(** ** Reachability *)

(** [m] is the [otherNode] of an edge that [n] lists for the direction:
    one step of a traversal from [n]. *)
Definition step (h : Heap) (direction : Direction) (n m : nref) : Prop :=
  ∃ N e E,
    heap_nodes h !! n = Some N ∧
    e ∈ edges_by direction N ∧
    heap_edges h !! e = Some E ∧
    m = if decide (edge_node1 E = n) then edge_node2 E else edge_node1 E.

(** An edge of the graph leads from [n] to [m]: for the direction [out]
    along the edge, for [in] against it, both in a directed graph only;
    for [none] either way. *)
Definition linked (h : Heap) (G : Graph) (direction : Direction) (n m : nref)
    : Prop :=
  ∃ e E,
    e ∈ graph_edges G ∧
    heap_edges h !! e = Some E ∧
    match direction with
    | DirNone =>
        (edge_node1 E = n ∧ edge_node2 E = m) ∨
        (edge_node2 E = n ∧ edge_node1 E = m)
    | DirOut => graph__directed G = true ∧ edge_node1 E = n ∧ edge_node2 E = m
    | DirIn => graph__directed G = true ∧ edge_node2 E = n ∧ edge_node1 E = m
    end.

(** ** Stores built by the operations *)

(** Both invariants of the object graph. *)
Definition store_ok (h : Heap) : Prop := heap_inv h ∧ heap_exact h.

(** ** What a traversal writes *)

(** [h'] is [h] but for the [__visited] of nodes. *)
Definition only_flags (h h' : Heap) : Prop :=
  heap_edges h' = heap_edges h ∧
  heap_graphs h' = heap_graphs h ∧
  heap_lists h' = heap_lists h ∧
  set_node___visited false <$> heap_nodes h'
    = set_node___visited false <$> heap_nodes h.

(** ** Sample stores

    A store holds one graph, at reference 0, unless said otherwise; its
    nodes are numbered in the order of the [addNode] calls. *)

Definition sample_addNode_calls : list (option string * option Z) :=
  [(Some "A", Some 0); (None, Some 7); (Some "B", None)].

(** An undirected graph with the node [A]. *)
Definition heap_A : Heap :=
  after (addNode 0%nat (Some "A") None (new_Graph None empty_heap).2).

(** An undirected graph with the nodes [A] and [B] and no edge. *)
Definition heap_A_B : Heap := after (addNode 0%nat (Some "B") None heap_A).

(** [heap_A_B] with the edge between [A] and [B]. *)
Definition heap_A_B_linked : Heap :=
  after (addEdge 0%nat (ArgId "A") (ArgId "B") None heap_A_B).

(** [heap_A_B_linked] with a second edge, from [B] to [A]. *)
Definition heap_B_A_linked : Heap :=
  after (addEdge 0%nat (ArgId "B") (ArgNode 0%nat) None heap_A_B_linked).

(** [heap_A_B] with a self-loop on [A]. *)
Definition heap_A_A_linked : Heap :=
  after (addEdge 0%nat (ArgId "A") (ArgNumber 0) None heap_A_B).

(** A directed graph with the nodes [A] and [B] and no edge. *)
Definition heap_directed_A_B : Heap :=
  let '(g, h) := new_Graph (Some true) empty_heap in
  let h := after (addNode g (Some "A") None h) in
  after (addNode g (Some "B") None h).

(** [heap_directed_A_B] with the edge from [A] to [B]. *)
Definition heap_directed_A_B_linked : Heap :=
  after (addEdge 0%nat (ArgId "A") (ArgNumber 1) None heap_directed_A_B).

(** A directed graph with the nodes [x] and [x-x] and no edge. *)
Definition heap_directed_x_xx : Heap :=
  let '(g, h) := new_Graph (Some true) empty_heap in
  let h := after (addNode g (Some "x") None h) in
  after (addNode g (Some "x-x") None h).

(** The directed path A -> B -> C of the specification's traversal
    scenario. *)
Definition heap_path_A_B_C : Heap :=
  let '(g, h) := new_Graph (Some true) empty_heap in
  let h := after (addNode g (Some "A") (Some 0) h) in
  let h := after (addNode g (Some "B") (Some 1) h) in
  let h := after (addNode g (Some "C") (Some 2) h) in
  let h := after (addEdge g (ArgId "A") (ArgId "B") None h) in
  after (addEdge g (ArgId "B") (ArgId "C") None h).

(** A graph bound to two record tables, as the code that builds a graph
    for a series binds them ([graph.data = ...; graph.edgeData = ...]):
    table 0 has one live node row, table 1 no live edge row. *)
Definition heap_A_bound : Heap :=
  let '(g, h) := new_Graph None empty_heap in
  let h := after (addNode g (Some "A") (Some 0) h) in
  let '(nodeData, h) := alloc_list (mkList [0%nat]) h in
  let '(edgeData, h) := alloc_list (mkList []) h in
  alter_graph (set_graph_edgeData edgeData) g
    (alter_graph (set_graph_data nodeData) g h).

(** The directed cycle A -> B -> C -> A bound to a node table whose live
    rows are the storage indices 2 and 0, and to an edge table whose live
    rows are the storage indices 0, 2 and 1. *)
Definition heap_A_B_C_bound : Heap :=
  let '(g, h) := new_Graph (Some true) empty_heap in
  let h := after (addNode g (Some "A") (Some 0) h) in
  let h := after (addNode g (Some "B") (Some 1) h) in
  let h := after (addNode g (Some "C") (Some 2) h) in
  let h := after (addEdge g (ArgId "A") (ArgId "B") (Some 0) h) in
  let h := after (addEdge g (ArgId "B") (ArgId "C") (Some 1) h) in
  let h := after (addEdge g (ArgId "C") (ArgId "A") (Some 2) h) in
  let '(nodeData, h) := alloc_list (mkList [2%nat; 0%nat]) h in
  let '(edgeData, h) := alloc_list (mkList [0%nat; 2%nat; 1%nat]) h in
  alter_graph (set_graph_edgeData edgeData) g
    (alter_graph (set_graph_data nodeData) g h).

(** Two undirected graphs in one store: graph 0 with the node [A]
    (node 0), graph 1 with the node [B] (node 1). *)
Definition heap_two_graphs : Heap :=
  let '(g0, h) := new_Graph None empty_heap in
  let '(g1, h) := new_Graph None h in
  let h := after (addNode g0 (Some "A") None h) in
  after (addNode g1 (Some "B") None h).

(** [heap_two_graphs] after [addEdge] on graph 0 from its node [A] to the
    node object [B], which belongs to graph 1. *)
Definition heap_foreign_end : Heap :=
  after (addEdge 0%nat (ArgId "A") (ArgNode 1%nat) None heap_two_graphs).

(** A callback that never stops the traversal and keeps no context. *)
Definition visit_all (node : nref) (fromNode : option nref) (c : unit) : bool * unit :=
  (false, c).

(** A callback that stops at the node [target]. *)
Definition stop_at (target : nref) (node : nref) (fromNode : option nref) (c : unit)
    : bool * unit :=
  (bool_decide (node = target), c).

(** * Properties *)

(** ** The sample stores, spelled out *)

Example heap_A_B_linked_spelled_out :
  heap_A_B_linked =
    mkHeap
      [mkGraphNode "A" [] [] [0%nat] (Some 0%nat) (-1) false;
       mkGraphNode "B" [] [] [0%nat] (Some 0%nat) (-1) false]
      [mkGraphEdge 0%nat 1%nat (-1) (Some 0%nat)]
      [mkGraph [0%nat; 1%nat] [0%nat] None None false
         (<["_EC_B" := 1%nat]> (<["_EC_A" := 0%nat]> ∅))
         (<["A-B" := 0%nat]> ∅)]
      [].
Proof. vm_compute. reflexivity. Qed.

Example heap_directed_A_B_linked_spelled_out :
  heap_directed_A_B_linked =
    mkHeap
      [mkGraphNode "A" [] [0%nat] [0%nat] (Some 0%nat) (-1) false;
       mkGraphNode "B" [0%nat] [] [0%nat] (Some 0%nat) (-1) false]
      [mkGraphEdge 0%nat 1%nat (-1) (Some 0%nat)]
      [mkGraph [0%nat; 1%nat] [0%nat] None None true
         (<["_EC_B" := 1%nat]> (<["_EC_A" := 0%nat]> ∅))
         (<["A-B" := 0%nat]> ∅)]
      [].
Proof. vm_compute. reflexivity. Qed.

Example heap_A_A_linked_spelled_out :
  heap_A_A_linked =
    mkHeap
      [mkGraphNode "A" [] [] [0%nat] (Some 0%nat) (-1) false;
       mkGraphNode "B" [] [] [] (Some 0%nat) (-1) false]
      [mkGraphEdge 0%nat 0%nat (-1) (Some 0%nat)]
      [mkGraph [0%nat; 1%nat] [0%nat] None None false
         (<["_EC_B" := 1%nat]> (<["_EC_A" := 0%nat]> ∅))
         (<["A-A" := 0%nat]> ∅)]
      [].
Proof. vm_compute. reflexivity. Qed.

Example heap_A_bound_spelled_out :
  heap_A_bound =
    mkHeap
      [mkGraphNode "A" [] [] [] (Some 0%nat) 0 false]
      []
      [mkGraph [0%nat] [] (Some 0%nat) (Some 1%nat) false
         (<["_EC_A" := 0%nat]> ∅) ∅]
      [mkList [0%nat]; mkList []].
Proof. vm_compute. reflexivity. Qed.

(** ** Keys *)

Lemma generateNodeKey_inj id1 id2 :
  generateNodeKey id1 = generateNodeKey id2 → id1 = id2.
Proof. unfold generateNodeKey. cbv [String.append]. congruence. Qed.

(** The text of a number: every digit up to [2 ^ 53], the digits of the
    nearest double above, the exponent notation from [10 ^ 21] on. *)
Example Number_toString_values :
  Number_toString <$>
    [0; 7; -3; 2 ^ 53; 2 ^ 53 + 1; 2 ^ 60; 10 ^ 21 - 1; 10 ^ 21; 2 ^ 70;
     - 2 ^ 70; 2 ^ 1024]
  = ["0"; "7"; "-3"; "9007199254740992"; "9007199254740992";
     "1152921504606847000"; "1e+21"; "1e+21"; "1.1805916207174113e+21";
     "-1.1805916207174113e+21"; "Infinity"].
Proof. vm_compute. reflexivity. Qed.

(** A node added without id is found under the text of its [dataIndex]. *)
Example addNode_without_id :
  let h := (new_Graph None empty_heap).2 in
  getNodeById 0%nat "7" (after (addNode 0%nat None (Some 7) h))
    = Some (Some 0%nat) ∧
  getNodeById 0%nat "1e+21" (after (addNode 0%nat None (Some (10 ^ 21)) h))
    = Some (Some 0%nat) ∧
  getNodeById 0%nat "1000000000000000000000"
      (after (addNode 0%nat None (Some (10 ^ 21)) h))
    = Some None ∧
  getNodeById 0%nat "undefined" (after (addNode 0%nat None None h))
    = Some (Some 0%nat).
Proof. split_and!; vm_compute; reflexivity. Qed.

(** ** [addNode] *)

Lemma addNode_duplicate g id dataIndex h G n :
  heap_graphs h !! g = Some G →
  graph__nodesMap G !! generateNodeKey (normalize_id id dataIndex) = Some n →
  addNode g id dataIndex h = Some (None, h).
Proof.
  intros HG Hn. unfold addNode. rewrite HG. simpl. by rewrite Hn.
Qed.

Lemma addNode_fresh g id dataIndex h G :
  heap_graphs h !! g = Some G →
  graph__nodesMap G !! generateNodeKey (normalize_id id dataIndex) = None →
  addNode g id dataIndex h =
    Some (Some (length (heap_nodes h)),
          mkHeap
            (heap_nodes h ++
               [set_node_hostGraph g
                  (new_GraphNode (Some (normalize_id id dataIndex)) dataIndex)])
            (heap_edges h)
            (alter (graph_register_node
                      (generateNodeKey (normalize_id id dataIndex))
                      (length (heap_nodes h))) g (heap_graphs h))
            (heap_lists h)).
Proof.
  intros HG Hn. unfold addNode. rewrite HG. simpl. by rewrite Hn.
Qed.

Lemma addNodes_unique g calls : ∀ h G,
  heap_graphs h !! g = Some G →
  NoDup (call_id <$> calls) →
  (∀ call, call ∈ calls →
     graph__nodesMap G !! generateNodeKey (call_id call) = None) →
  ∃ nodes h' G',
    addNodes g calls h = Some (nodes, h') ∧
    heap_graphs h' !! g = Some G' ∧
    (∀ k n, graph__nodesMap G !! k = Some n → graph__nodesMap G' !! k = Some n) ∧
    (∀ n N, heap_nodes h !! n = Some N → heap_nodes h' !! n = Some N) ∧
    (graph_nodes G' = graph_nodes G ++ seq (length (heap_nodes h)) (length calls) ∧
     graph_edges G' = graph_edges G ∧
     graph__directed G' = graph__directed G ∧
     graph__edgesMap G' = graph__edgesMap G ∧
     heap_edges h' = heap_edges h ∧
     length (heap_nodes h') = (length (heap_nodes h) + length calls)%nat) ∧
    ∀ (i : nat) call, calls !! i = Some call →
      ∃ N, nodes !! i = Some (Some (length (heap_nodes h) + i)%nat) ∧
           graph__nodesMap G' !! generateNodeKey (call_id call)
             = Some (length (heap_nodes h) + i)%nat ∧
           heap_nodes h' !! (length (heap_nodes h) + i)%nat = Some N ∧
           node_id N = call_id call ∧
           node_dataIndex N = default (-1) call.2.
Proof.
  induction calls as [|[id dataIndex] calls IH]; intros h G HG Hdup Hnew.
  - exists [], h, G. simpl. rewrite app_nil_r, Nat.add_0_r.
    split_and!; try done.
  - apply NoDup_cons in Hdup as [Hnotin Hdup].
    pose proof (Hnew (id, dataIndex) ltac:(left)) as Hfree.
    unfold call_id in Hfree; simpl in Hfree.
    simpl. rewrite (addNode_fresh _ _ _ _ _ HG Hfree). simpl.
    set (N0 := set_node_hostGraph g _).
    set (h1 := mkHeap _ _ _ _).
    set (G1 := graph_register_node (generateNodeKey (normalize_id id dataIndex))
                 (length (heap_nodes h)) G).
    assert (HG1 : heap_graphs h1 !! g = Some G1).
    { simpl. rewrite list_lookup_alter_eq, HG. done. }
    assert (Hlen1 : length (heap_nodes h1) = S (length (heap_nodes h))).
    { simpl. rewrite length_app. simpl. lia. }
    destruct (IH h1 G1 HG1 Hdup)
      as (nodes & h' & G' & Hrun & HG' & Hmap & Hheap & Hframe & Hcalls).
    { intros call Hcall. simpl. rewrite lookup_insert_ne; [apply Hnew; by right|].
      intros Heq%generateNodeKey_inj. apply Hnotin.
      change (normalize_id id dataIndex) with (call_id (id, dataIndex)) in Heq.
      rewrite Heq. by apply list_elem_of_fmap_2. }
    destruct Hframe as (Hnodes & Hedges & Hdir & HedgesMap & Hheap_edges & Hlen).
    exists (Some (length (heap_nodes h)) :: nodes), h', G'.
    rewrite Hrun. simpl. split_and!; try done.
    + intros k n Hk. apply Hmap. simpl. rewrite lookup_insert_ne; [done|].
      intros <-. congruence.
    + intros n N Hn. apply Hheap. simpl. by apply lookup_app_l_Some.
    + rewrite Hnodes, Hlen1. simpl. by rewrite <- app_assoc.
    + rewrite Hlen, Hlen1. lia.
    + intros [|i] call Hcall; simpl in Hcall.
      * injection Hcall as <-. exists N0. rewrite Nat.add_0_r.
        split_and!; try done.
        -- apply Hmap. simpl. by rewrite lookup_insert_eq.
        -- apply Hheap. simpl. by apply list_lookup_middle.
      * destruct (Hcalls i call Hcall) as (N & ? & ? & ? & ? & ?).
        replace (length (heap_nodes h) + S i)%nat
          with (length (heap_nodes h1) + i)%nat by lia.
        exists N. split_and!; done.
Qed.

(** C5.  Calls of [addNode] whose normalized ids are pairwise different and
    not yet in the graph all succeed; each returns a node constructed by
    that call, [getNodeById] of the id returns this very node, and the node
    carries the id and the [dataIndex] of the call.  After that, [addNode]
    with an id that [getNodeById] finds returns nothing and leaves the
    whole store, so also [nodes] and [_nodesMap], as it was. *)
Theorem addNode_getNodeById g h G calls :
  heap_graphs h !! g = Some G →
  NoDup (call_id <$> calls) →
  (∀ call, call ∈ calls → getNodeById g (call_id call) h = Some None) →
  ∃ nodes h',
    addNodes g calls h = Some (nodes, h') ∧
    (∀ (i : nat) call, calls !! i = Some call →
       ∃ n N, nodes !! i = Some (Some n) ∧
              n = (length (heap_nodes h) + i)%nat ∧
              getNodeById g (call_id call) h' = Some (Some n) ∧
              heap_nodes h' !! n = Some N ∧
              node_id N = call_id call ∧
              node_dataIndex N = default (-1) call.2) ∧
    (∀ id dataIndex n,
       getNodeById g (normalize_id id dataIndex) h' = Some (Some n) →
       addNode g id dataIndex h' = Some (None, h')).
Proof.
  intros HG Hdup Hnew.
  destruct (addNodes_unique g calls h G HG Hdup)
    as (nodes & h' & G' & Hrun & HG' & _ & _ & _ & Hcalls).
  { intros call Hcall. specialize (Hnew call Hcall).
    unfold getNodeById in Hnew. rewrite HG in Hnew. simpl in Hnew.
    by injection Hnew. }
  exists nodes, h'. split_and!; [done| |].
  - intros i call Hcall. destruct (Hcalls i call Hcall) as (N & ? & ? & ? & ? & ?).
    exists (length (heap_nodes h) + i)%nat, N. split_and!; try done.
    unfold getNodeById. rewrite HG'. simpl. by f_equal.
  - intros id dataIndex n Hget. unfold getNodeById in Hget.
    rewrite HG' in Hget. simpl in Hget.
    eapply addNode_duplicate; [done|]. by injection Hget.
Qed.

Lemma addNode_getNodeById_witness :
  ∃ nodes h',
    addNodes 0%nat sample_addNode_calls (new_Graph None empty_heap).2
      = Some (nodes, h') ∧
    (∀ (i : nat) call, sample_addNode_calls !! i = Some call →
       ∃ n N, nodes !! i = Some (Some n) ∧
              n = (length (heap_nodes (new_Graph None empty_heap).2) + i)%nat ∧
              getNodeById 0%nat (call_id call) h' = Some (Some n) ∧
              heap_nodes h' !! n = Some N ∧
              node_id N = call_id call ∧
              node_dataIndex N = default (-1) call.2) ∧
    (∀ id dataIndex n,
       getNodeById 0%nat (normalize_id id dataIndex) h' = Some (Some n) →
       addNode 0%nat id dataIndex h' = Some (None, h')).
Proof.
  apply (addNode_getNodeById 0%nat (new_Graph None empty_heap).2
           (mkGraph [] [] None None false ∅ ∅) sample_addNode_calls).
  - reflexivity.
  - apply (bool_decide_unpack _). vm_compute. exact I.
  - intros call Hcall. unfold getNodeById. simpl. reflexivity.
Defined.

(** ** [addEdge] *)

Lemma resolve_node_register_edge G key e a :
  resolve_node (graph_register_edge key e G) a = resolve_node G a.
Proof. by destruct a. Qed.

(** How [addEdge] rewrites the node at position [m] when it links the new
    edge [edge] between [n1] and [n2]. *)
Lemma addEdge_fresh g a b dataIndex h G n1 n2 N1 N2 :
  heap_graphs h !! g = Some G →
  resolve_node G a = Some n1 →
  resolve_node G b = Some n2 →
  heap_nodes h !! n1 = Some N1 →
  heap_nodes h !! n2 = Some N2 →
  graph__edgesMap G !! edge_key (node_id N1) (node_id N2) = None →
  ∃ h',
    addEdge g a b dataIndex h = Some (Some (length (heap_edges h)), h') ∧
    heap_edges h' =
      heap_edges h ++ [mkGraphEdge n1 n2 (default (-1) dataIndex) (Some g)] ∧
    heap_graphs h' =
      alter (graph_register_edge (edge_key (node_id N1) (node_id N2))
               (length (heap_edges h))) g (heap_graphs h) ∧
    heap_lists h' = heap_lists h ∧
    length (heap_nodes h') = length (heap_nodes h) ∧
    ∀ m, heap_nodes h' !! m =
           linked_node (graph__directed G) (length (heap_edges h)) n1 n2 m
             <$> heap_nodes h !! m.
Proof.
  intros HG Ha Hb HN1 HN2 Hkey. unfold addEdge.
  rewrite HG. simpl. rewrite Ha, Hb, HN1. simpl. rewrite HN2. simpl.
  rewrite Hkey. eexists. split; [reflexivity|].
  split_and!.
  - by destruct (graph__directed G), (decide (n1 = n2)).
  - by destruct (graph__directed G), (decide (n1 = n2)).
  - by destruct (graph__directed G), (decide (n1 = n2)).
  - destruct (graph__directed G), (decide (n1 = n2)); simpl;
      by rewrite ?length_alter.
  - intros m. unfold linked_node.
    destruct (graph__directed G), (decide (n1 = n2)) as [->|Hne]; simpl;
      rewrite ?list_lookup_alter; repeat case_decide; subst;
      repeat case_bool_decide; subst; try done;
      destruct (heap_nodes h !! m) as [[]|]; simpl;
      rewrite ?app_nil_r; try done; exfalso; tauto.
Qed.

Lemma addEdge_Some_inv g a b dataIndex h e h' :
  addEdge g a b dataIndex h = Some (Some e, h') →
  ∃ G n1 n2 N1 N2,
    heap_graphs h !! g = Some G ∧
    resolve_node G a = Some n1 ∧
    resolve_node G b = Some n2 ∧
    heap_nodes h !! n1 = Some N1 ∧
    heap_nodes h !! n2 = Some N2 ∧
    graph__edgesMap G !! edge_key (node_id N1) (node_id N2) = None.
Proof.
  unfold addEdge. intros Hadd.
  destruct (heap_graphs h !! g) as [G|] eqn:HG; [simpl in Hadd|done].
  destruct (resolve_node G a) as [n1|] eqn:Ha; [|by simplify_eq].
  destruct (resolve_node G b) as [n2|] eqn:Hb; [|by simplify_eq].
  destruct (heap_nodes h !! n1) as [N1|] eqn:HN1; [simpl in Hadd|done].
  destruct (heap_nodes h !! n2) as [N2|] eqn:HN2; [simpl in Hadd|done].
  destruct (graph__edgesMap G !! _) eqn:Hkey; [by simplify_eq|].
  by exists G, n1, n2, N1, N2.
Qed.

Lemma addEdge_duplicate g a b dataIndex h G n1 n2 N1 N2 e :
  heap_graphs h !! g = Some G →
  resolve_node G a = Some n1 →
  resolve_node G b = Some n2 →
  heap_nodes h !! n1 = Some N1 →
  heap_nodes h !! n2 = Some N2 →
  graph__edgesMap G !! edge_key (node_id N1) (node_id N2) = Some e →
  addEdge g a b dataIndex h = Some (None, h).
Proof.
  intros HG Ha Hb HN1 HN2 Hkey. unfold addEdge.
  rewrite HG. simpl. rewrite Ha, Hb, HN1. simpl. rewrite HN2. simpl.
  by rewrite Hkey.
Qed.

Lemma linked_node_id directed edge n1 n2 m N :
  node_id (linked_node directed edge n1 n2 m N) = node_id N.
Proof. done. Qed.

(** C2 (amended).  The duplicate check of [addEdge] is by the ordered key
    [n1.id + '-' + n2.id], in a directed and in an undirected graph alike:
    once [addEdge(n1, n2)] has returned an edge, which lengthens [edges]
    by this one edge, a call with the same two endpoints in the same
    order, however they are given, returns nothing and leaves the store,
    so also [edges], unchanged. *)
Theorem addEdge_same_pair_again g n1 n2 dataIndex h e h' :
  addEdge g n1 n2 dataIndex h = Some (Some e, h') →
  ∃ G G',
    heap_graphs h !! g = Some G ∧
    heap_graphs h' !! g = Some G' ∧
    graph_edges G' = graph_edges G ++ [e] ∧
    ∀ n1' n2' dataIndex',
      resolve_node G' n1' = resolve_node G' n1 →
      resolve_node G' n2' = resolve_node G' n2 →
      addEdge g n1' n2' dataIndex' h' = Some (None, h').
Proof.
  intros Hadd.
  destruct (addEdge_Some_inv _ _ _ _ _ _ _ Hadd)
    as (G & r1 & r2 & N1 & N2 & HG & Ha & Hb & HN1 & HN2 & Hkey).
  destruct (addEdge_fresh g n1 n2 dataIndex h G r1 r2 N1 N2)
    as (h1 & Hadd1 & Hedges & Hgraphs & Hlists & Hlen & Hnodes); try done.
  rewrite Hadd in Hadd1. injection Hadd1 as -> ->.
  assert (HG' : heap_graphs h1 !! g = Some
            (graph_register_edge (edge_key (node_id N1) (node_id N2))
               (length (heap_edges h)) G)).
  { by rewrite Hgraphs, list_lookup_alter_eq, HG. }
  eexists _, _. split_and!; [done..|].
  intros n1' n2' dataIndex' Hn1' Hn2'.
  rewrite !resolve_node_register_edge, Ha in Hn1'.
  rewrite !resolve_node_register_edge, Hb in Hn2'.
  eapply addEdge_duplicate; first done.
  - done.
  - done.
  - by rewrite Hnodes, HN1.
  - by rewrite Hnodes, HN2.
  - simpl. by rewrite lookup_insert_eq.
Qed.

(** C2, as stated, fails: in an undirected graph with nodes [A] and [B],
    [addEdge("A", "B")] and then [addEdge("B", "A")] each return a new
    edge, and [edges] has length 2. *)
Lemma addEdge_reversed_pair_adds_edge :
  ('(e1, h) ← addEdge 0%nat (ArgId "A") (ArgId "B") None heap_A_B;
   '(e2, h) ← addEdge 0%nat (ArgId "B") (ArgId "A") None h;
   G ← heap_graphs h !! 0%nat;
   Some (e1, e2, graph__directed G, length (graph_edges G)))
  = Some (Some 0%nat, Some 1%nat, false, 2%nat).
Proof. reflexivity. Qed.

Lemma addEdge_same_pair_again_witness :
  addEdge 0%nat (ArgNode 0%nat) (ArgNumber 1) (Some 5) heap_A_B_linked
    = Some (None, heap_A_B_linked).
Proof.
  destruct (addEdge_same_pair_again 0%nat (ArgId "A") (ArgId "B") None
              heap_A_B 0%nat heap_A_B_linked)
    as (G & G' & HG & HG' & Hedges & Hagain).
  - vm_compute. reflexivity.
  - apply (Hagain (ArgNode 0%nat) (ArgNumber 1) (Some 5)).
    + assert (G' = graph_at heap_A_B_linked 0%nat) as ->.
      { unfold graph_at. by rewrite HG'. }
      vm_compute. reflexivity.
    + assert (G' = graph_at heap_A_B_linked 0%nat) as ->.
      { unfold graph_at. by rewrite HG'. }
      vm_compute. reflexivity.
Defined.

(** ** [getEdge] *)

Lemma getEdge_lookup g a b h G id1 id2 :
  heap_graphs h !! g = Some G →
  id_of h a = Some id1 →
  id_of h b = Some id2 →
  getEdge g a b h =
    Some (if graph__directed G
          then graph__edgesMap G !! edge_key id1 id2
          else or_else (graph__edgesMap G !! edge_key id1 id2)
                       (graph__edgesMap G !! edge_key id2 id1)).
Proof.
  intros HG Ha Hb. unfold getEdge. rewrite HG. simpl. rewrite Ha. simpl.
  rewrite Hb. simpl. by destruct (graph__directed G).
Qed.

(** C7 (amended).  [getEdge] turns a node into its id and looks up the
    ordered key [id1 + '-' + id2]; an undirected graph falls back on the
    key [id2 + '-' + id1].  After [addEdge(n1, n2)] has returned the edge
    [e], [getEdge(n1, n2)] returns [e].  In a directed graph
    [getEdge(n2, n1)] returns nothing provided the reversed key is another
    text than the key of [e] and no edge was stored under it; in an
    undirected graph [getEdge(n2, n1)] returns [e] provided no edge was
    stored under the reversed key. *)
Theorem getEdge_after_addEdge g a b dataIndex h G n1 n2 N1 N2 e h' :
  heap_graphs h !! g = Some G →
  resolve_node G a = Some n1 →
  resolve_node G b = Some n2 →
  heap_nodes h !! n1 = Some N1 →
  heap_nodes h !! n2 = Some N2 →
  addEdge g a b dataIndex h = Some (Some e, h') →
  let id1 := node_id N1 in
  let id2 := node_id N2 in
  let edgesMap := graph__edgesMap G in
  (∀ g0 x y h0 G0 i1 i2,
     heap_graphs h0 !! g0 = Some G0 →
     id_of h0 x = Some i1 →
     id_of h0 y = Some i2 →
     getEdge g0 x y h0 =
       Some (if graph__directed G0
             then graph__edgesMap G0 !! edge_key i1 i2
             else or_else (graph__edgesMap G0 !! edge_key i1 i2)
                          (graph__edgesMap G0 !! edge_key i2 i1))) ∧
  id_of h' (IsNode n1) = Some id1 ∧
  id_of h' (IsNode n2) = Some id2 ∧
  (∀ x y, id_of h' x = Some id1 → id_of h' y = Some id2 →
     getEdge g x y h' = Some (Some e)) ∧
  (∀ x y, id_of h' x = Some id2 → id_of h' y = Some id1 →
     edgesMap !! edge_key id2 id1 = None →
     if graph__directed G
     then edge_key id2 id1 ≠ edge_key id1 id2 → getEdge g x y h' = Some None
     else getEdge g x y h' = Some (Some e)).
Proof.
  intros HG Ha Hb HN1 HN2 Hadd id1 id2 edgesMap.
  destruct (addEdge_Some_inv _ _ _ _ _ _ _ Hadd)
    as (G0 & r1 & r2 & M1 & M2 & HG0 & Ha0 & Hb0 & HM1 & HM2 & Hkey).
  simplify_eq.
  destruct (addEdge_fresh g a b dataIndex h G n1 n2 N1 N2)
    as (h1 & Hadd1 & Hedges & Hgraphs & Hlists & Hlen & Hnodes); try done.
  rewrite Hadd in Hadd1. injection Hadd1 as -> ->.
  assert (HG' : heap_graphs h1 !! g = Some
            (graph_register_edge (edge_key id1 id2) (length (heap_edges h)) G)).
  { by rewrite Hgraphs, list_lookup_alter_eq, HG. }
  split_and!.
  - intros. by apply getEdge_lookup.
  - simpl. by rewrite Hnodes, HN1.
  - simpl. by rewrite Hnodes, HN2.
  - intros x y Hx Hy. rewrite (getEdge_lookup _ _ _ _ _ _ _ HG' Hx Hy). simpl.
    rewrite lookup_insert_eq. by destruct (graph__directed G).
  - intros x y Hx Hy Hrev.
    rewrite (getEdge_lookup _ _ _ _ _ _ _ HG' Hx Hy). simpl.
    destruct (graph__directed G); simpl.
    + intros Hne. rewrite lookup_insert_ne by done. fold edgesMap.
      by rewrite Hrev.
    + rewrite lookup_insert_eq.
      destruct (decide (edge_key id1 id2 = edge_key id2 id1)) as [<-|Hne].
      * by rewrite lookup_insert_eq.
      * rewrite lookup_insert_ne by done. fold edgesMap. by rewrite Hrev.
Qed.

(** C7, as stated, fails twice.  In the directed graph with the nodes [x]
    and [x-x] the edge added as [(x, x-x)] has the key [x-x-x], which is
    also the key of the reversed pair, so [getEdge("x-x", "x")] finds it.
    In the undirected graph with [A] and [B], after [addEdge("A", "B")] and
    [addEdge("B", "A")] the two argument orders of [getEdge] give two
    different edges. *)
Lemma getEdge_reversed_pair :
  ('(e, h) ← addEdge 0%nat (ArgId "x") (ArgId "x-x") None heap_directed_x_xx;
   G ← heap_graphs h !! 0%nat;
   back ← getEdge 0%nat (IsId "x-x") (IsId "x") h;
   Some (graph__directed G, e, back))
  = Some (true, Some 0%nat, Some 0%nat) ∧
  ('(_, h) ← addEdge 0%nat (ArgId "A") (ArgId "B") None heap_A_B;
   '(_, h) ← addEdge 0%nat (ArgId "B") (ArgId "A") None h;
   G ← heap_graphs h !! 0%nat;
   ab ← getEdge 0%nat (IsId "A") (IsId "B") h;
   ba ← getEdge 0%nat (IsId "B") (IsId "A") h;
   Some (graph__directed G, ab, ba))
  = Some (false, Some 0%nat, Some 1%nat).
Proof. split; reflexivity. Qed.

Lemma occurs_once_snoc (e : nat) (l : list nat) :
  e ∉ l → length (filter (λ x, x = e) (l ++ [e])) = 1%nat.
Proof.
  induction l as [|x l IH]; intros Hnotin; simpl.
  - by rewrite filter_cons_True.
  - apply not_elem_of_cons in Hnotin as [Hne Hnotin].
    rewrite filter_cons_False by done. by apply IH.
Qed.

(** C9.  When both arguments of a successful [addEdge] resolve to one
    node [n], whose [edges] hold only edges constructed so far, the new
    edge has [n] at both ends and is pushed on [n.edges] once: [n.edges]
    grows by this one element, which was not in it before. *)
Theorem addEdge_self_loop_once g a b dataIndex h G n N e h' :
  heap_graphs h !! g = Some G →
  resolve_node G a = Some n →
  resolve_node G b = Some n →
  heap_nodes h !! n = Some N →
  Forall (λ e', (e' < length (heap_edges h))%nat) (node_edges N) →
  addEdge g a b dataIndex h = Some (Some e, h') →
  ∃ N' E,
    heap_nodes h' !! n = Some N' ∧
    heap_edges h' !! e = Some E ∧
    edge_node1 E = n ∧ edge_node2 E = n ∧
    node_edges N' = node_edges N ++ [e] ∧
    (e ∉ node_edges N) ∧
    length (filter (λ x, x = e) (node_edges N')) = 1%nat.
Proof.
  intros HG Ha Hb HN Hold Hadd.
  destruct (addEdge_Some_inv _ _ _ _ _ _ _ Hadd)
    as (G0 & r1 & r2 & M1 & M2 & HG0 & Ha0 & Hb0 & HM1 & HM2 & Hkey).
  simplify_eq.
  destruct (addEdge_fresh g a b dataIndex h G n n N N)
    as (h1 & Hadd1 & Hedges & Hgraphs & Hlists & Hlen & Hnodes); try done.
  rewrite Hadd in Hadd1. injection Hadd1 as -> ->.
  assert (Hnew : length (heap_edges h) ∉ node_edges N).
  { intros Hin. rewrite Forall_forall in Hold. apply Hold in Hin. lia. }
  eexists _, _. split_and!.
  - by rewrite Hnodes, HN.
  - rewrite Hedges. by apply list_lookup_middle.
  - done.
  - done.
  - simpl. rewrite bool_decide_eq_true_2; [done|by left].
  - done.
  - simpl. rewrite bool_decide_eq_true_2 by (by left).
    by apply occurs_once_snoc.
Qed.

Lemma getEdge_after_addEdge_witness :
  getEdge 0%nat (IsId "A") (IsNode 1%nat) heap_directed_A_B_linked
    = Some (Some 0%nat) ∧
  getEdge 0%nat (IsNode 1%nat) (IsId "A") heap_directed_A_B_linked = Some None.
Proof.
  destruct (getEdge_after_addEdge 0%nat (ArgId "A") (ArgNumber 1) None
              heap_directed_A_B
              (mkGraph [0%nat; 1%nat] [] None None true
                 (<[generateNodeKey "B" := 1%nat]>
                    (<[generateNodeKey "A" := 0%nat]> ∅)) ∅)
              0%nat 1%nat
              (mkGraphNode "A" [] [] [] (Some 0%nat) (-1) false)
              (mkGraphNode "B" [] [] [] (Some 0%nat) (-1) false)
              0%nat heap_directed_A_B_linked)
    as (_ & _ & _ & Hfound & Hback);
    [vm_compute; reflexivity ..|].
  split.
  - apply Hfound; reflexivity.
  - apply (Hback (IsNode 1%nat) (IsId "A")); [reflexivity ..|].
    vm_compute. discriminate.
Defined.

Lemma addEdge_self_loop_once_witness :
  ∃ N' E,
    heap_nodes heap_A_A_linked !! 0%nat = Some N' ∧
    heap_edges heap_A_A_linked !! 0%nat = Some E ∧
    edge_node1 E = 0%nat ∧ edge_node2 E = 0%nat ∧
    node_edges N' = [] ++ [0%nat] ∧
    (0%nat ∉ @nil nat) ∧
    length (filter (λ x, x = 0%nat) (node_edges N')) = 1%nat.
Proof.
  apply (addEdge_self_loop_once 0%nat (ArgId "A") (ArgNumber 0) None heap_A_B
           (mkGraph [0%nat; 1%nat] [] None None false
              (<[generateNodeKey "B" := 1%nat]>
                 (<[generateNodeKey "A" := 0%nat]> ∅)) ∅)
           0%nat (mkGraphNode "A" [] [] [] (Some 0%nat) (-1) false)
           0%nat heap_A_A_linked).
  - vm_compute. reflexivity.
  - vm_compute. reflexivity.
  - vm_compute. reflexivity.
  - vm_compute. reflexivity.
  - constructor.
  - vm_compute. reflexivity.
Defined.

(** ** The mixed-in accessors *)

(** C1, what the code does.  The two [zrUtil.mixin] lines are crossed:
    every mixed-in accessor of a node calls the table in [edgeData] of its
    host graph, and every accessor of an edge the table in [data], each
    with the entity's own [dataIndex]; [setVisual] and [setLayout] make no
    call when the [dataIndex] is negative. *)
Theorem mixin_tables_crossed {Value : Type} (h : Heap) (g : gref) (G : Graph)
    (nodeData edgeData : lref) :
  heap_graphs h !! g = Some G →
  graph_data G = Some nodeData →
  graph_edgeData G = Some edgeData →
  (∀ n N, heap_nodes h !! n = Some N → node_hostGraph N = Some g →
     let this := HostNode n in
     let idx := node_dataIndex N in
     let mixin := @GraphNode_mixin Value in
     (∀ dimension, getValue mixin this dimension h =
        Some (Some (edgeData,
                    Call_get_getDimension (dimension_or_value dimension) idx))) ∧
     (∀ key value, setVisual mixin this key value h =
        Some (if bool_decide (0 ≤ idx)
              then Some (edgeData, Call_setItemVisual idx key value) else None)) ∧
     (∀ key ignoreParent, getVisual mixin this key ignoreParent h =
        Some (Some (edgeData, Call_getItemVisual idx key ignoreParent))) ∧
     (∀ layout merge, setLayout mixin this layout merge h =
        Some (if bool_decide (0 ≤ idx)
              then Some (edgeData, Call_setItemLayout idx layout merge) else None)) ∧
     getLayout mixin this h = Some (Some (edgeData, Call_getItemLayout idx)) ∧
     getGraphicEl mixin this h = Some (Some (edgeData, Call_getItemGraphicEl idx)) ∧
     getRawIndex mixin this h = Some (Some (edgeData, Call_getRawIndex idx))) ∧
  (∀ e E, heap_edges h !! e = Some E → edge_hostGraph E = Some g →
     let this := HostEdge e in
     let idx := edge_dataIndex E in
     let mixin := @GraphEdge_mixin Value in
     (∀ dimension, getValue mixin this dimension h =
        Some (Some (nodeData,
                    Call_get_getDimension (dimension_or_value dimension) idx))) ∧
     (∀ key value, setVisual mixin this key value h =
        Some (if bool_decide (0 ≤ idx)
              then Some (nodeData, Call_setItemVisual idx key value) else None)) ∧
     (∀ key ignoreParent, getVisual mixin this key ignoreParent h =
        Some (Some (nodeData, Call_getItemVisual idx key ignoreParent))) ∧
     (∀ layout merge, setLayout mixin this layout merge h =
        Some (if bool_decide (0 ≤ idx)
              then Some (nodeData, Call_setItemLayout idx layout merge) else None)) ∧
     getLayout mixin this h = Some (Some (nodeData, Call_getItemLayout idx)) ∧
     getGraphicEl mixin this h = Some (Some (nodeData, Call_getItemGraphicEl idx)) ∧
     getRawIndex mixin this h = Some (Some (nodeData, Call_getRawIndex idx))).
Proof.
  intros HG Hdata HedgeData. split.
  - intros n N HN Hhost this idx mixin.
    assert (Htable : host_table Name_edgeData h this = Some edgeData).
    { unfold host_table. simpl. rewrite HN. simpl. rewrite Hhost. simpl.
      by rewrite HG. }
    assert (Hidx : host_dataIndex h this = Some idx).
    { simpl. by rewrite HN. }
    subst mixin. unfold GraphNode_mixin, createGraphDataProxyMixin. simpl.
    unfold delegate_if_bound, delegate. rewrite Htable, Hidx. simpl.
    split_and!; intros; try done; by case_bool_decide.
  - intros e E HE Hhost this idx mixin.
    assert (Htable : host_table Name_data h this = Some nodeData).
    { unfold host_table. simpl. rewrite HE. simpl. rewrite Hhost. simpl.
      by rewrite HG. }
    assert (Hidx : host_dataIndex h this = Some idx).
    { simpl. by rewrite HE. }
    subst mixin. unfold GraphEdge_mixin, createGraphDataProxyMixin. simpl.
    unfold delegate_if_bound, delegate. rewrite Htable, Hidx. simpl.
    split_and!; intros; try done; by case_bool_decide.
Qed.

(** The methods the classes define themselves go the other way:
    [getModel] of a node calls [graph.data] and [getModel] of an edge
    [graph.edgeData]. *)
Lemma getModel_tables {Value : Type} (h : Heap) (g : gref) (G : Graph)
    (nodeData edgeData : lref) (path : list string) :
  heap_graphs h !! g = Some G →
  graph_data G = Some nodeData →
  graph_edgeData G = Some edgeData →
  (∀ n N, heap_nodes h !! n = Some N → node_hostGraph N = Some g →
     0 ≤ node_dataIndex N →
     @GraphNode_getModel Value n path h =
       Some (Some (nodeData, Call_getItemModel_getModel (node_dataIndex N) path))) ∧
  (∀ e E, heap_edges h !! e = Some E → edge_hostGraph E = Some g →
     0 ≤ edge_dataIndex E →
     @GraphEdge_getModel Value e path h =
       Some (Some (edgeData, Call_getItemModel_getModel (edge_dataIndex E) path))).
Proof.
  intros HG Hdata HedgeData. split.
  - intros n N HN Hhost Hidx. unfold GraphNode_getModel. rewrite HN. simpl.
    rewrite bool_decide_eq_false_2 by lia. rewrite Hhost. simpl.
    rewrite HG. simpl. by rewrite Hdata.
  - intros e E HE Hhost Hidx. unfold GraphEdge_getModel. rewrite HE. simpl.
    rewrite bool_decide_eq_false_2 by lia. rewrite Hhost. simpl.
    rewrite HG. simpl. by rewrite HedgeData.
Qed.

Lemma mixin_tables_crossed_witness :
  getRawIndex (@GraphNode_mixin unit) (HostNode 0%nat) heap_A_bound
    = Some (Some (1%nat, Call_getRawIndex 0)) ∧
  graph_data <$> heap_graphs heap_A_bound !! 0%nat = Some (Some 0%nat).
Proof.
  split; [|reflexivity].
  destruct (@mixin_tables_crossed unit heap_A_bound 0%nat
              (mkGraph [0%nat] [] (Some 0%nat) (Some 1%nat) false
                 (<[generateNodeKey "A" := 0%nat]> ∅) ∅) 0%nat 1%nat)
    as [Hnode _]; [vm_compute; reflexivity ..|].
  destruct (Hnode 0%nat (mkGraphNode "A" [] [] [] (Some 0%nat) 0 false))
    as (_ & _ & _ & _ & _ & _ & Hraw); [vm_compute; reflexivity ..|].
  exact Hraw.
Defined.

(** ** [breadthFirstTraverse] *)

(** C3, what the code does.  The start node is put on the queue without
    its flag being set: in the undirected graph with the one edge between
    [A] and [B], a traversal from [A] calls the callback on [A], on [B],
    and, coming back along the edge, on [A] a second time. *)
Theorem breadthFirstTraverse_revisits_start :
  traversal_visits
    (breadthFirstTraverse visit_all 0%nat (IsId "A") DirNone heap_A_B_linked tt)
  = Some [mkVisit 0%nat None false;
          mkVisit 1%nat (Some 0%nat) false;
          mkVisit 0%nat (Some 1%nat) false].
Proof. vm_compute. reflexivity. Qed.

Section TraverseProperties.
Context {Ctx : Type}.
Variable cb : nref → option nref → Ctx → bool * Ctx.

Lemma replays_app c vs c1 vs' c2 :
  replays cb c vs c1 → replays cb c1 vs' c2 → replays cb c (vs ++ vs') c2.
Proof.
  revert c. induction vs as [|v vs IH]; intros c; simpl.
  - by intros ->.
  - intros [Hstop Hrest] Hvs'. split; [done|]. by apply IH.
Qed.

Lemma stopped_by_last_cons v vs :
  visit_stop v = false → stopped_by_last vs → stopped_by_last (v :: vs).
Proof.
  intros Hv (front & w & -> & Hfront & Hw).
  exists (v :: front), w. split_and!; [done| |done]. by constructor.
Qed.

Lemma stopped_by_last_app vs vs' :
  all_continue vs → stopped_by_last vs' → stopped_by_last (vs ++ vs').
Proof.
  intros Hvs (front & w & -> & Hfront & Hw).
  exists (vs ++ front), w. split_and!; [by rewrite app_assoc| |done].
  by apply Forall_app.
Qed.

Lemma traverse_edges_visits currentNode edges :
  ∀ queue h c vs exit h' c',
    traverse_edges cb currentNode edges queue h c = Some (vs, exit, h', c') →
    replays cb c vs c' ∧
    match exit with
    | Continue _ => all_continue vs
    | Return => stopped_by_last vs
    end.
Proof.
  induction edges as [|e edges IH]; intros queue h c vs exit h' c' Hrun;
    simpl in Hrun.
  - simplify_eq. split; [done|constructor].
  - destruct (heap_edges h !! e) as [E|]; [simpl in Hrun|done].
    destruct (heap_nodes h !! _) as [O|]; [simpl in Hrun|done].
    destruct (node___visited O); [by eapply IH|].
    destruct (cb _ (Some currentNode) c) as [stop c1] eqn:Hcb.
    destruct stop.
    + simplify_eq. simpl. rewrite Hcb. split; [done|].
      exists [], (mkVisit
        (if decide (edge_node1 E = currentNode) then edge_node2 E
         else edge_node1 E) (Some currentNode) true).
      split_and!; [done|constructor|done].
    + destruct (traverse_edges _ _ _ _ _ _) as [[[[vs1 exit1] h1] c2]|] eqn:Hrest;
        [simpl in Hrun|done].
      simplify_eq. apply IH in Hrest as [Hreplay Hshape].
      split; [simpl; by rewrite Hcb|].
      destruct exit.
      * by constructor.
      * by apply stopped_by_last_cons.
Qed.

Lemma traverse_queue_visits fuel direction :
  ∀ queue h c vs fin h' c',
    traverse_queue cb fuel direction queue h c = Some (vs, fin, h', c') →
    replays cb c vs c' ∧
    (all_continue vs ∨ (stopped_by_last vs ∧ fin = true)).
Proof.
  induction fuel as [|fuel IH]; intros queue h c vs fin h' c' Hrun;
    destruct queue as [|currentNode queue]; simpl in Hrun;
    try (simplify_eq; split; [done|left; constructor]).
  destruct (heap_nodes h !! currentNode) as [C|]; [simpl in Hrun|done].
  destruct (traverse_edges _ _ _ _ _ _) as [[[[vs1 exit1] h1] c1]|] eqn:Hedges;
    [simpl in Hrun|done].
  apply traverse_edges_visits in Hedges as [Hreplay1 Hshape1].
  destruct exit1 as [queue1|].
  - destruct (traverse_queue _ _ _ _ _ _) as [[[[vs2 fin2] h2] c2]|] eqn:Hrest;
      [simpl in Hrun|done].
    simplify_eq. apply IH in Hrest as [Hreplay2 Hshape2].
    split; [by eapply replays_app|].
    destruct Hshape2 as [Hall|[Hlast ->]].
    + left. by apply Forall_app.
    + right. split; [|done]. by apply stopped_by_last_app.
  - simplify_eq. split; [done|]. by right.
Qed.

Lemma stopped_by_last_lookup vs (i : nat) v :
  all_continue vs ∨ stopped_by_last vs →
  vs !! i = Some v → visit_stop v = true →
  S i = length vs ∧ stopped_by_last vs.
Proof.
  intros [Hall|Hlast] Hi Hv.
  - unfold all_continue in Hall. rewrite Forall_lookup in Hall.
    specialize (Hall i v Hi). congruence.
  - split; [|done]. destruct Hlast as (front & w & -> & Hfront & Hw).
    apply lookup_snoc_Some in Hi as [[Hlt Hi]|[-> ->]].
    + unfold all_continue in Hfront. rewrite Forall_lookup in Hfront.
      specialize (Hfront i v Hi). congruence.
    + rewrite length_app. simpl. lia.
Qed.

Lemma breadthFirstTraverse_visits g startNode direction h c vs fin h' c' :
  breadthFirstTraverse cb g startNode direction h c = Some (vs, fin, h', c') →
  replays cb c vs c' ∧
  (∀ (i : nat) v, vs !! i = Some v → visit_stop v = true →
     S i = length vs ∧ fin = true) ∧
  (∀ G n, heap_graphs h !! g = Some G → start_node G startNode = Some n →
     (cb n None c).1 = true → vs = [mkVisit n None true]).
Proof.
  unfold breadthFirstTraverse. intros Hrun.
  destruct (heap_graphs h !! g) as [G|] eqn:HG; [|done].
  cbv beta iota delta [mbind option_bind] in Hrun.
  destruct (start_node G startNode) as [n|] eqn:Hstart.
  2:{ simplify_eq. split_and!; [done| |].
      - intros i v Hi. done.
      - intros G0 n0 ? ? ?. by simplify_eq. }
  destruct (cb n None c) as [stop c1] eqn:Hcb. destruct stop.
  - simplify_eq. split_and!.
    + simpl. by rewrite Hcb.
    + intros [|[|i]] v Hi Hv; simpl in *; simplify_eq; auto.
    + intros G0 n0 ? ? ?. by simplify_eq.
  - destruct (traverse_queue _ _ _ _ _ _) as [[[[vs1 fin1] h1] c2]|] eqn:Hqueue;
      [|done].
    simplify_eq. apply traverse_queue_visits in Hqueue as [Hreplay Hshape].
    split_and!.
    + simpl. by rewrite Hcb.
    + intros [|i] v Hi Hv; simpl in Hi; [by simplify_eq|].
      destruct Hshape as [Hall|[Hlast ->]].
      * destruct (stopped_by_last_lookup vs1 i v) as [? ?]; auto.
        simpl. split; [lia|].
        unfold all_continue in Hall. rewrite Forall_lookup in Hall.
        specialize (Hall i v Hi). congruence.
      * destruct (stopped_by_last_lookup vs1 i v) as [? ?]; auto.
        simpl. split; [lia|done].
    + intros G0 n0 ? ? Htrue. simplify_eq. rewrite Hcb in Htrue. done.
Qed.
End TraverseProperties.

(** The traversal scenario of the specification: on the directed path
    A -> B -> C a traversal from [A] along [outEdges] visits A, B, C. *)
Example breadthFirstTraverse_path :
  traversal_visits
    (breadthFirstTraverse visit_all 0%nat (IsId "A") DirOut heap_path_A_B_C tt)
  = Some [mkVisit 0%nat None false;
          mkVisit 1%nat (Some 0%nat) false;
          mkVisit 2%nat (Some 1%nat) false].
Proof. vm_compute. reflexivity. Qed.

(** *** The queue loop comes to its end *)

Lemma unvisited_le nodes : (unvisited nodes ≤ length nodes)%nat.
Proof. apply length_filter. Qed.

Lemma unvisited_mark nodes : ∀ (n : nat) N,
  nodes !! n = Some N →
  node___visited N = false →
  S (unvisited (alter (set_node___visited true) n nodes)) = unvisited nodes.
Proof.
  unfold unvisited.
  induction nodes as [|M nodes IH]; intros [|n] N Hn Hflag; simpl in *; try done.
  - simplify_eq. rewrite filter_cons_False by (simpl; congruence).
    by rewrite filter_cons_True.
  - destruct (decide (node___visited M = false)).
    + rewrite !filter_cons_True by done. simpl. f_equal. by eapply IH.
    + rewrite !filter_cons_False by done. by eapply IH.
Qed.

Lemma heap_closed_set___visited b n h :
  heap_closed h → heap_closed (alter_node (set_node___visited b) n h).
Proof.
  intros [Hnodes Hedges]. split.
  - simpl. apply Forall_lookup. intros m M HM.
    rewrite list_lookup_alter in HM. rewrite Forall_lookup in Hnodes.
    case_decide.
    + subst. destruct (heap_nodes h !! m) as [M0|] eqn:HM0; [|done].
      simpl in HM. simplify_eq. by apply (Hnodes m M0).
    + by apply (Hnodes m M).
  - simpl. eapply Forall_impl; [done|]. intros E [? ?].
    unfold edge_closed. simpl. by rewrite length_alter.
Qed.

Lemma heap_closed_reset___visited nodes : ∀ h,
  heap_closed h → heap_closed (reset___visited nodes h).
Proof.
  induction nodes as [|n nodes IH]; intros h Hh; simpl; [done|].
  apply IH. by apply heap_closed_set___visited.
Qed.

Lemma length_reset___visited nodes : ∀ h,
  length (heap_nodes (reset___visited nodes h)) = length (heap_nodes h).
Proof.
  induction nodes as [|n nodes IH]; intros h; simpl; [done|].
  rewrite IH. simpl. by rewrite length_alter.
Qed.

Section TraverseCompletes.
Context {Ctx : Type}.
Variable cb : nref → option nref → Ctx → bool * Ctx.

Lemma traverse_edges_total currentNode edges :
  ∀ queue h c,
    heap_closed h →
    Forall (λ e, (e < length (heap_edges h))%nat) edges →
    Forall (λ n, (n < length (heap_nodes h))%nat) queue →
    ∃ vs exit h' c',
      traverse_edges cb currentNode edges queue h c = Some (vs, exit, h', c') ∧
      heap_closed h' ∧
      length (heap_nodes h') = length (heap_nodes h) ∧
      match exit with
      | Continue queue' =>
          Forall (λ n, (n < length (heap_nodes h))%nat) queue' ∧
          (length queue' + unvisited (heap_nodes h')
           = length queue + unvisited (heap_nodes h))%nat
      | Return => True
      end.
Proof.
  induction edges as [|e edges IH]; intros queue h c Hh Hedges Hqueue; simpl.
  - by exists [], (Continue queue), h, c.
  - apply Forall_cons in Hedges as [He Hedges].
    apply lookup_lt_is_Some in He as [E HE]. rewrite HE. simpl.
    set (otherNode := if decide (edge_node1 E = currentNode)
                      then edge_node2 E else edge_node1 E).
    assert (Hother : (otherNode < length (heap_nodes h))%nat).
    { destruct Hh as [_ Hends]. rewrite Forall_lookup in Hends.
      destruct (Hends e E HE). unfold otherNode. by case_decide. }
    apply lookup_lt_is_Some in Hother as Hlookup. destruct Hlookup as [O HO].
    rewrite HO. simpl.
    destruct (node___visited O) eqn:Hflag; [by apply IH|].
    destruct (cb otherNode (Some currentNode) c) as [stop c1].
    destruct stop.
    + eexists _, Return, h, c1. by split_and!.
    + destruct (IH (queue ++ [otherNode])
                  (alter_node (set_node___visited true) otherNode h) c1)
        as (vs & exit & h' & c' & Hrun & Hh' & Hlen & Hexit).
      * by apply heap_closed_set___visited.
      * done.
      * simpl. rewrite length_alter. apply Forall_app. split; [done|].
        by constructor.
      * rewrite Hrun. simpl. eexists _, exit, h', c'.
        split_and!; [done|done| |].
        -- rewrite Hlen. simpl. by rewrite length_alter.
        -- destruct exit as [queue'|]; [|done].
           destruct Hexit as [Hvalid Hcount]. simpl in Hvalid, Hcount.
           rewrite length_alter in Hvalid. split; [done|].
           rewrite Hcount, length_app. simpl.
           pose proof (unvisited_mark (heap_nodes h) otherNode O HO Hflag).
           lia.
Qed.

Lemma traverse_queue_total fuel direction :
  ∀ queue h c,
    heap_closed h →
    Forall (λ n, (n < length (heap_nodes h))%nat) queue →
    (length queue + unvisited (heap_nodes h) ≤ fuel)%nat →
    ∃ vs h' c',
      traverse_queue cb fuel direction queue h c = Some (vs, true, h', c').
Proof.
  induction fuel as [|fuel IH]; intros queue h c Hh Hqueue Hfuel;
    destruct queue as [|currentNode queue]; simpl in *;
    try (by eexists _, _, _); try lia.
  apply Forall_cons in Hqueue as [Hcur Hqueue].
  apply lookup_lt_is_Some in Hcur as [C HC]. rewrite HC. simpl.
  destruct (traverse_edges_total currentNode (edges_by direction C) queue h c)
    as (vs & exit & h' & c' & Hrun & Hh' & Hlen & Hexit); [done| |done|].
  { destruct Hh as [Hnodes _]. rewrite Forall_lookup in Hnodes.
    specialize (Hnodes currentNode C HC).
    unfold node_closed, node_edge_lists in Hnodes.
    rewrite !Forall_app in Hnodes. destruct Hnodes as (? & ? & ?).
    by destruct direction. }
  rewrite Hrun. simpl. destruct exit as [queue'|]; [|by eexists _, _, _].
  destruct Hexit as [Hvalid Hcount].
  destruct (IH queue' h' c') as (vs' & h'' & c'' & Hrest);
    [done|by rewrite Hlen|lia|].
  rewrite Hrest. simpl. by eexists _, _, _.
Qed.

(** In a store without dangling references the traversal returns: the
    rounds [traverse_fuel] grants are enough for the queue loop. *)
Lemma breadthFirstTraverse_completes g G startNode direction h c :
  heap_closed h →
  heap_graphs h !! g = Some G →
  (∀ n, start_node G startNode = Some n → (n < length (heap_nodes h))%nat) →
  ∃ vs h' c',
    breadthFirstTraverse cb g startNode direction h c = Some (vs, true, h', c').
Proof.
  intros Hh HG Hstart. unfold breadthFirstTraverse. rewrite HG.
  cbv beta iota delta [mbind option_bind].
  destruct (start_node G startNode) as [n|]; [|by eexists _, _, _].
  destruct (cb n None c) as [stop c1].
  destruct stop; [by eexists _, _, _|].
  destruct (traverse_queue_total
              (traverse_fuel (reset___visited (graph_nodes G) h)) direction [n]
              (reset___visited (graph_nodes G) h) c1)
    as (vs & h' & c' & Hrun).
  - by apply heap_closed_reset___visited.
  - constructor; [|done]. rewrite length_reset___visited. by apply Hstart.
  - unfold traverse_fuel. simpl.
    pose proof (unvisited_le (heap_nodes (reset___visited (graph_nodes G) h))).
    lia.
  - rewrite Hrun. by eexists _, _, _.
Qed.

(** C8.  In a store without dangling references the traversal returns.
    Its visits are the answers of the callback in the order of the calls,
    and a call that answers true is the last one: no node is visited
    after it, whatever is still on the queue.  When the call on the start
    node answers true it is the only call. *)
Theorem breadthFirstTraverse_stops g G startNode direction h c :
  heap_closed h →
  heap_graphs h !! g = Some G →
  (∀ n, start_node G startNode = Some n → (n < length (heap_nodes h))%nat) →
  ∃ vs h' c',
    breadthFirstTraverse cb g startNode direction h c = Some (vs, true, h', c') ∧
    replays cb c vs c' ∧
    (∀ (i : nat) v, vs !! i = Some v → visit_stop v = true → S i = length vs) ∧
    (∀ n, start_node G startNode = Some n → (cb n None c).1 = true →
       vs = [mkVisit n None true]).
Proof.
  intros Hh HG Hstart.
  destruct (breadthFirstTraverse_completes g G startNode direction h c)
    as (vs & h' & c' & Hrun); [done ..|].
  exists vs, h', c'. split; [done|].
  destruct (breadthFirstTraverse_visits cb _ _ _ _ _ _ _ _ _ Hrun)
    as (Hreplay & Hlast & Hfirst).
  split_and!; [done| |].
  - intros i v Hi Hv. by destruct (Hlast i v Hi Hv).
  - intros n. by apply Hfirst.
Qed.
End TraverseCompletes.

Lemma heap_A_B_linked_closed : heap_closed heap_A_B_linked.
Proof. vm_compute. repeat constructor. Qed.

Lemma breadthFirstTraverse_stops_witness :
  ∃ vs h' c',
    breadthFirstTraverse (stop_at 1%nat) 0%nat (IsId "A") DirNone
      heap_A_B_linked tt = Some (vs, true, h', c') ∧
    replays (stop_at 1%nat) tt vs c' ∧
    (∀ (i : nat) v, vs !! i = Some v → visit_stop v = true → S i = length vs) ∧
    (∀ n, start_node
            (mkGraph [0%nat; 1%nat] [0%nat] None None false
               (<[generateNodeKey "B" := 1%nat]>
                  (<[generateNodeKey "A" := 0%nat]> ∅))
               (<[edge_key "A" "B" := 0%nat]> ∅)) (IsId "A") = Some n →
          (stop_at 1%nat n None tt).1 = true →
          vs = [mkVisit n None true]).
Proof.
  apply (breadthFirstTraverse_stops (stop_at 1%nat) 0%nat _ (IsId "A") DirNone
           heap_A_B_linked tt).
  - exact heap_A_B_linked_closed.
  - vm_compute. reflexivity.
  - intros n Hn. vm_compute in Hn. injection Hn as <-. vm_compute. lia.
Defined.


(** *** Nodes put on the queue are visited once *)

Lemma flagged_mark h n m :
  flagged h n → flagged (alter_node (set_node___visited true) m h) n.
Proof.
  intros (N & HN & Hflag). unfold flagged. simpl. rewrite list_lookup_alter.
  case_decide; [subst|by exists N]. rewrite HN. simpl.
  by exists (set_node___visited true N).
Qed.

Lemma flagged_marked h n N :
  heap_nodes h !! n = Some N →
  flagged (alter_node (set_node___visited true) n h) n.
Proof.
  intros HN. exists (set_node___visited true N). simpl.
  by rewrite list_lookup_alter_eq, HN.
Qed.

Section TraverseOnce.
Context {Ctx : Type}.
Variable cb : nref → option nref → Ctx → bool * Ctx.

Lemma traverse_edges_once currentNode edges :
  ∀ queue h c vs exit h' c',
    traverse_edges cb currentNode edges queue h c = Some (vs, exit, h', c') →
    NoDup (visit_node <$> vs) ∧
    (∀ v, v ∈ vs → ¬ flagged h (visit_node v)) ∧
    (∀ n, flagged h n → flagged h' n) ∧
    match exit with
    | Continue _ => ∀ v, v ∈ vs → flagged h' (visit_node v)
    | Return => True
    end.
Proof.
  induction edges as [|e edges IH]; intros queue h c vs exit h' c' Hrun;
    simpl in Hrun.
  - simplify_eq. split_and!; [constructor| |done|];
      intros v Hv; by apply elem_of_nil in Hv.
  - destruct (heap_edges h !! e) as [E|]; [simpl in Hrun|done].
    set (otherNode := if decide (edge_node1 E = currentNode)
                      then edge_node2 E else edge_node1 E) in *.
    destruct (heap_nodes h !! otherNode) as [O|] eqn:HO; [simpl in Hrun|done].
    destruct (node___visited O) eqn:Hflag; [by eapply IH|].
    assert (Hfresh : ¬ flagged h otherNode).
    { intros (O' & HO' & Hflag'). congruence. }
    destruct (cb otherNode (Some currentNode) c) as [stop c1].
    destruct stop.
    + simplify_eq. split_and!; [apply NoDup_singleton| |done|done].
      intros v ->%list_elem_of_singleton. done.
    + destruct (traverse_edges _ _ _ _ _ _) as [[[[vs1 exit1] h1] c2]|] eqn:Hrest;
        [simpl in Hrun|done].
      simplify_eq.
      apply IH in Hrest as (Hdup & Hnew & Hmono & Hexit).
      pose proof (flagged_marked h otherNode O HO) as Hmarked.
      split_and!.
      * rewrite fmap_cons. apply NoDup_cons. split; [|done]. simpl.
        intros (v & Hv & Hin)%list_elem_of_fmap. apply (Hnew v Hin).
        by rewrite <- Hv.
      * intros v [->|Hv]%elem_of_cons; [done|].
        intros Hf. apply (Hnew v Hv). by apply flagged_mark.
      * intros n Hn. by apply Hmono, flagged_mark.
      * destruct exit; [|done].
        intros v [->|Hv]%elem_of_cons; [by apply Hmono|by apply Hexit].
Qed.

Lemma traverse_queue_once fuel direction :
  ∀ queue h c vs fin h' c',
    traverse_queue cb fuel direction queue h c = Some (vs, fin, h', c') →
    NoDup (visit_node <$> vs) ∧
    (∀ v, v ∈ vs → ¬ flagged h (visit_node v)) ∧
    (∀ n, flagged h n → flagged h' n).
Proof.
  induction fuel as [|fuel IH]; intros queue h c vs fin h' c' Hrun;
    destruct queue as [|currentNode queue]; simpl in Hrun;
    try (simplify_eq; split_and!; [constructor| |done];
         intros v Hv; by apply elem_of_nil in Hv).
  destruct (heap_nodes h !! currentNode) as [C|]; [simpl in Hrun|done].
  destruct (traverse_edges _ _ _ _ _ _) as [[[[vs1 exit1] h1] c1]|] eqn:Hedges;
    [simpl in Hrun|done].
  apply traverse_edges_once in Hedges as (Hdup1 & Hnew1 & Hmono1 & Hexit1).
  destruct exit1 as [queue1|]; [|by simplify_eq].
  destruct (traverse_queue _ _ _ _ _ _) as [[[[vs2 fin2] h2] c2]|] eqn:Hrest;
    [simpl in Hrun|done].
  simplify_eq. apply IH in Hrest as (Hdup2 & Hnew2 & Hmono2).
  split_and!.
  - rewrite fmap_app. apply NoDup_app. split_and!; [done| |done].
    intros n (v & -> & Hv)%list_elem_of_fmap (w & Hw & Hin)%list_elem_of_fmap.
    apply (Hnew2 w Hin). rewrite <- Hw. by apply Hexit1.
  - intros v [Hv|Hv]%elem_of_app; [by apply Hnew1|].
    intros Hf. apply (Hnew2 v Hv). by apply Hmono1.
  - intros n Hn. by apply Hmono2, Hmono1.
Qed.

(** Apart from the first call, which is on the start node, no node is
    passed to the callback twice: a node other than the start node is
    visited at most once, the start node at most twice. *)
Lemma breadthFirstTraverse_once_after_start g startNode direction h c vs fin h' c' :
  breadthFirstTraverse cb g startNode direction h c = Some (vs, fin, h', c') →
  NoDup (visit_node <$> tail vs).
Proof.
  unfold breadthFirstTraverse. intros Hrun.
  destruct (heap_graphs h !! g) as [G|]; [|done].
  cbv beta iota delta [mbind option_bind] in Hrun.
  destruct (start_node G startNode) as [n|]; [|simplify_eq; constructor].
  destruct (cb n None c) as [stop c1].
  destruct stop; [simplify_eq; constructor|].
  destruct (traverse_queue _ _ _ _ _ _) as [[[[vs1 fin1] h1] c2]|] eqn:Hqueue;
    [|done].
  simplify_eq. simpl. by apply traverse_queue_once in Hqueue as (? & _).
Qed.
End TraverseOnce.

(** ** [update] *)

Lemma reset_node_dataIndex_frame nodes : ∀ h,
  heap_edges (reset_node_dataIndex nodes h) = heap_edges h ∧
  heap_graphs (reset_node_dataIndex nodes h) = heap_graphs h ∧
  heap_lists (reset_node_dataIndex nodes h) = heap_lists h.
Proof.
  induction nodes as [|n nodes IH]; intros h; simpl; [done|].
  destruct (IH (alter_node (set_node_dataIndex (-1)) n h)) as (-> & -> & ->).
  done.
Qed.

Lemma assign_node_dataIndex_frame data nodes idxs : ∀ h h',
  assign_node_dataIndex data nodes idxs h = Some h' →
  heap_edges h' = heap_edges h ∧
  heap_graphs h' = heap_graphs h ∧
  heap_lists h' = heap_lists h.
Proof.
  induction idxs as [|i idxs IH]; intros h h' Hrun; simpl in Hrun.
  - by simplify_eq.
  - destruct (List_getRawIndex data i) as [rawIdx|]; [simpl in Hrun|done].
    destruct (nodes !! rawIdx) as [n|]; [simpl in Hrun|done].
    apply IH in Hrun as (-> & -> & ->). done.
Qed.

Lemma reset_edge_dataIndex_spec edges : ∀ h,
  heap_nodes (reset_edge_dataIndex edges h) = heap_nodes h ∧
  heap_graphs (reset_edge_dataIndex edges h) = heap_graphs h ∧
  heap_lists (reset_edge_dataIndex edges h) = heap_lists h ∧
  ∀ e E', heap_edges (reset_edge_dataIndex edges h) !! e = Some E' →
    ∃ E, heap_edges h !! e = Some E ∧ same_ends E E' ∧
         (edge_dataIndex E' = -1 ∨
          ((e ∉ edges) ∧ edge_dataIndex E' = edge_dataIndex E)).
Proof.
  induction edges as [|e0 edges IH]; intros h; simpl.
  - split_and!; try done. intros e E' HE'. exists E'.
    split_and!; try done. right. split; [|done]. apply not_elem_of_nil.
  - destruct (IH (alter_edge (set_edge_dataIndex (-1)) e0 h))
      as (-> & -> & -> & Hedges).
    split_and!; try done. intros e E' HE'.
    destruct (Hedges e E' HE') as (E1 & HE1 & [Hn1 Hn2] & Hidx).
    simpl in HE1. rewrite list_lookup_alter in HE1. case_decide.
    + subst. destruct (heap_edges h !! e) as [E|]; [|done].
      simpl in HE1. simplify_eq. exists E. split_and!; try done.
      left. destruct Hidx as [?|[_ ->]]; done.
    + exists E1. split_and!; try done.
      destruct Hidx as [?|[? ?]]; [by left|right].
      split; [|done]. by apply not_elem_of_cons.
Qed.

Lemma assign_edge_dataIndex_spec edgeData edges idxs : ∀ h h',
  assign_edge_dataIndex edgeData edges idxs h = Some h' →
  heap_nodes h' = heap_nodes h ∧
  heap_graphs h' = heap_graphs h ∧
  heap_lists h' = heap_lists h ∧
  ∀ e E', heap_edges h' !! e = Some E' →
    ∃ E, heap_edges h !! e = Some E ∧ same_ends E E' ∧
         (edge_dataIndex E' = edge_dataIndex E ∨
          (∃ (i rawIdx : nat), List_getRawIndex edgeData i = Some rawIdx ∧
                               edges !! rawIdx = Some e)).
Proof.
  induction idxs as [|i idxs IH]; intros h h' Hrun; simpl in Hrun.
  - simplify_eq. split_and!; try done. intros e E' HE'. exists E'.
    split_and!; try done. by left.
  - destruct (List_getRawIndex edgeData i) as [rawIdx|] eqn:Hraw;
      [simpl in Hrun|done].
    destruct (edges !! rawIdx) as [e0|] eqn:He0; [simpl in Hrun|done].
    apply IH in Hrun as (-> & -> & -> & Hedges).
    split_and!; try done. intros e E' HE'.
    destruct (Hedges e E' HE') as (E1 & HE1 & [Hn1 Hn2] & Hidx).
    simpl in HE1. rewrite list_lookup_alter in HE1. case_decide.
    + subst. destruct (heap_edges h !! e) as [E|]; [|done].
      simpl in HE1. simplify_eq. exists E. split_and!; try done.
      right. by exists i, rawIdx.
    + exists E1. by split_and!.
Qed.

Lemma filter_indices_kept cb indices : ∀ idx kept rawIdx,
  filter_indices cb idx indices = Some kept →
  rawIdx ∈ kept →
  ∃ j : nat, indices !! j = Some rawIdx ∧ cb (idx + j)%nat = Some true.
Proof.
  induction indices as [|r indices IH]; intros idx kept rawIdx Hrun Hin;
    simpl in Hrun.
  - simplify_eq. by apply elem_of_nil in Hin.
  - destruct (cb idx) as [keep|] eqn:Hcb; [simpl in Hrun|done].
    destruct (filter_indices cb (S idx) indices) as [rest|] eqn:Hrest;
      [simpl in Hrun|done].
    simplify_eq.
    assert (Htail : rawIdx ∈ rest →
              ∃ j : nat, (r :: indices) !! j = Some rawIdx ∧
                         cb (idx + j)%nat = Some true).
    { intros Hin'. destruct (IH _ _ _ Hrest Hin') as (j & Hj & Hkeep).
      exists (S j). split; [done|]. by rewrite Nat.add_succ_r. }
    destruct keep; [|by apply Htail].
    apply elem_of_cons in Hin as [->|Hin]; [|by apply Htail].
    exists 0%nat. split; [done|]. by rewrite Nat.add_0_r.
Qed.

Lemma both_ends_live_true edgeData edges h idx :
  both_ends_live edgeData edges h idx = Some true →
  ∃ rawIdx e E N1 N2,
    List_getRawIndex edgeData idx = Some rawIdx ∧
    edges !! rawIdx = Some e ∧
    heap_edges h !! e = Some E ∧
    heap_nodes h !! edge_node1 E = Some N1 ∧
    heap_nodes h !! edge_node2 E = Some N2 ∧
    0 ≤ node_dataIndex N1 ∧ 0 ≤ node_dataIndex N2.
Proof.
  unfold both_ends_live. intros Hlive.
  destruct (List_getRawIndex edgeData idx) as [rawIdx|] eqn:?;
    [simpl in Hlive|done].
  destruct (edges !! rawIdx) as [e|] eqn:?; [simpl in Hlive|done].
  destruct (heap_edges h !! e) as [E|] eqn:?; [simpl in Hlive|done].
  destruct (heap_nodes h !! edge_node1 E) as [N1|] eqn:?; [simpl in Hlive|done].
  case_bool_decide; [|done].
  destruct (heap_nodes h !! edge_node2 E) as [N2|] eqn:?; [simpl in Hlive|done].
  injection Hlive as Hlive. apply bool_decide_eq_true in Hlive.
  by exists rawIdx, e, E, N1, N2.
Qed.

(** The synchronization scenario of the specification: with the live node
    rows at the storage indices 2 and 0, [update] gives [nodes[2]] the
    [dataIndex] 0, [nodes[0]] the [dataIndex] 1 and [nodes[1]] -1; of the
    three edge rows only the edge between the two live nodes stays. *)
Example update_scenario :
  (h ← update 0%nat heap_A_B_C_bound;
   Some (node_dataIndex <$> heap_nodes h, edge_dataIndex <$> heap_edges h,
         list__indices <$> heap_lists h))
  = Some ([1; -1; 0], [-1; -1; 0], [[2%nat; 0%nat]; [2%nat]]).
Proof. vm_compute. reflexivity. Qed.

(** C4.  When [update] has run, the graph object is as before, and every
    edge of the graph whose [dataIndex] is not negative has two ends whose
    [dataIndex] is not negative. *)
Theorem update_live_edge_has_live_ends g h h' G :
  heap_graphs h !! g = Some G →
  update g h = Some h' →
  heap_graphs h' !! g = Some G ∧
  ∀ e E, e ∈ graph_edges G → heap_edges h' !! e = Some E →
    0 ≤ edge_dataIndex E →
    ∃ N1 N2,
      heap_nodes h' !! edge_node1 E = Some N1 ∧
      heap_nodes h' !! edge_node2 E = Some N2 ∧
      0 ≤ node_dataIndex N1 ∧ 0 ≤ node_dataIndex N2.
Proof.
  intros HG Hrun. unfold update in Hrun. rewrite HG in Hrun. simpl in Hrun.
  destruct (graph_data G) as [data|]; [simpl in Hrun|done].
  destruct (reset_node_dataIndex_frame (graph_nodes G) h) as (Hedges1 & Hgraphs1 & Hlists1).
  destruct (heap_lists _ !! data) as [dataL|]; [simpl in Hrun|done].
  destruct (assign_node_dataIndex dataL _ _ _) as [h2|] eqn:Hassign;
    [simpl in Hrun|done].
  apply assign_node_dataIndex_frame in Hassign as (Hedges2 & Hgraphs2 & Hlists2).
  destruct (graph_edgeData G) as [edgeData|]; [simpl in Hrun|done].
  destruct (heap_lists h2 !! edgeData) as [edgeDataL|] eqn:HedgeDataL;
    [simpl in Hrun|done].
  destruct (List_filterSelf _ edgeDataL) as [filtered|] eqn:Hfilter;
    [simpl in Hrun|done].
  set (h3 := alter_list (λ _, filtered) edgeData h2) in *.
  destruct (reset_edge_dataIndex_spec (graph_edges G) h3)
    as (Hnodes4 & Hgraphs4 & Hlists4 & Hedges4).
  destruct (heap_lists (reset_edge_dataIndex _ h3) !! edgeData)
    as [edgeDataL'|] eqn:HedgeDataL'; [simpl in Hrun|done].
  assert (edgeDataL' = filtered) as ->.
  { rewrite Hlists4 in HedgeDataL'. simpl in HedgeDataL'.
    rewrite list_lookup_alter_eq, HedgeDataL in HedgeDataL'.
    simpl in HedgeDataL'. by simplify_eq. }
  apply assign_edge_dataIndex_spec in Hrun as (Hnodes5 & Hgraphs5 & Hlists5 & Hedges5).
  split.
  { rewrite Hgraphs5, Hgraphs4. simpl. by rewrite Hgraphs2, Hgraphs1. }
  intros e E' Hin HE' Hlive.
  destruct (Hedges5 e E' HE') as (E4 & HE4 & [Hn1 Hn2] & Hidx5).
  destruct (Hedges4 e E4 HE4) as (E3 & HE3 & [Hm1 Hm2] & Hidx4).
  assert (∃ (i rawIdx : nat), List_getRawIndex filtered i = Some rawIdx ∧
                      graph_edges G !! rawIdx = Some e) as (i & rawIdx & Hi & He).
  { destruct Hidx5 as [Hsame|?]; [|done].
    destruct Hidx4 as [?|[? ?]]; [lia|done]. }
  unfold List_filterSelf in Hfilter.
  destruct (filter_indices _ _ _) as [kept|] eqn:Hkept; [|done].
  simpl in Hfilter. simplify_eq. unfold List_getRawIndex in Hi. simpl in Hi.
  apply list_elem_of_lookup_2 in Hi.
  destruct (filter_indices_kept _ _ _ _ _ Hkept Hi) as (j & Hj & Hkeep).
  apply both_ends_live_true in Hkeep
    as (rawIdx' & e' & E & N1 & N2 & Hraw' & He' & HE & HN1 & HN2 & ? & ?).
  unfold List_getRawIndex in Hraw'. simpl in Hraw'. simplify_eq.
  simpl in HE3. simplify_eq.
  exists N1, N2. rewrite Hnodes5, Hnodes4. simpl.
  rewrite Hn1, Hn2, Hm1, Hm2. by split_and!.
Qed.

Lemma update_live_edge_has_live_ends_witness :
  ∃ h',
    update 0%nat heap_A_B_C_bound = Some h' ∧
    ∀ e E, e ∈ [0%nat; 1%nat; 2%nat] → heap_edges h' !! e = Some E →
      0 ≤ edge_dataIndex E →
      ∃ N1 N2,
        heap_nodes h' !! edge_node1 E = Some N1 ∧
        heap_nodes h' !! edge_node2 E = Some N2 ∧
        0 ≤ node_dataIndex N1 ∧ 0 ≤ node_dataIndex N2.
Proof.
  destruct (update 0%nat heap_A_B_C_bound) as [h'|] eqn:Hrun;
    [|vm_compute in Hrun; discriminate].
  exists h'. split; [reflexivity|].
  refine (proj2 (update_live_edge_has_live_ends 0%nat heap_A_B_C_bound h'
                   (mkGraph [0%nat; 1%nat; 2%nat] [0%nat; 1%nat; 2%nat]
                      (Some 0%nat) (Some 1%nat) true
                      (<[generateNodeKey "C" := 2%nat]>
                         (<[generateNodeKey "B" := 1%nat]>
                            (<[generateNodeKey "A" := 0%nat]> ∅)))
                      (<[edge_key "C" "A" := 2%nat]>
                         (<[edge_key "B" "C" := 1%nat]>
                            (<[edge_key "A" "B" := 0%nat]> ∅)))) _ Hrun)).
  vm_compute. reflexivity.
Defined.

(** ** The invariants are kept *)

Lemma node_topology_eq N N' :
  node_topology N' = node_topology N →
  node_id N' = node_id N ∧ node_inEdges N' = node_inEdges N ∧
  node_outEdges N' = node_outEdges N ∧ node_edges N' = node_edges N ∧
  node_hostGraph N' = node_hostGraph N.
Proof. unfold node_topology. intros [=]. done. Qed.

Lemma edge_ends_eq E E' :
  edge_ends E' = edge_ends E →
  edge_node1 E' = edge_node1 E ∧ edge_node2 E' = edge_node2 E.
Proof. unfold edge_ends. intros [=]. done. Qed.

(** A graph whose nodes and edges keep their topology from one store to
    another keeps its invariants. *)
Lemma graph_inv_transfer h h' g G :
  graph_wf h g G →
  adjacency_consistent h G →
  (∀ n N, n ∈ graph_nodes G → heap_nodes h !! n = Some N →
     ∃ N', heap_nodes h' !! n = Some N' ∧ node_topology N' = node_topology N) →
  (∀ e E, e ∈ graph_edges G → heap_edges h !! e = Some E →
     ∃ E', heap_edges h' !! e = Some E' ∧ edge_ends E' = edge_ends E) →
  graph_wf h' g G ∧ adjacency_consistent h' G.
Proof.
  intros Hwf Hadj Hnodes Hedges.
  assert (Hnode' : ∀ n N', n ∈ graph_nodes G → heap_nodes h' !! n = Some N' →
            ∃ N, heap_nodes h !! n = Some N ∧ node_topology N' = node_topology N).
  { intros n N' Hn HN'. destruct (wf_node _ _ _ Hwf n Hn) as (N & HN & _).
    destruct (Hnodes n N Hn HN) as (N'' & HN'' & Htopo).
    rewrite HN'' in HN'. injection HN' as <-. by exists N. }
  assert (Hedge' : ∀ e E', e ∈ graph_edges G → heap_edges h' !! e = Some E' →
            ∃ E, heap_edges h !! e = Some E ∧ edge_ends E' = edge_ends E ∧
                 edge_node1 E ∈ graph_nodes G ∧ edge_node2 E ∈ graph_nodes G).
  { intros e E' He HE'.
    destruct (wf_edge _ _ _ Hwf e He) as (E & N1 & N2 & HE & ? & ? & _).
    destruct (Hedges e E He HE) as (E'' & HE'' & Hends).
    rewrite HE'' in HE'. injection HE' as <-. exists E. by split_and!. }
  split.
  - constructor.
    + apply Hwf.
    + apply Hwf.
    + intros n Hn. destruct (wf_node _ _ _ Hwf n Hn) as (N & HN & Hhost & Hkey).
      destruct (Hnodes n N Hn HN) as (N' & HN' & Htopo).
      apply node_topology_eq in Htopo as (Hid & _ & _ & _ & Hh).
      exists N'. by rewrite Hid, Hh.
    + apply Hwf.
    + intros e He.
      destruct (wf_edge _ _ _ Hwf e He)
        as (E & N1 & N2 & HE & Hn1 & Hn2 & HN1 & HN2 & Hkey).
      destruct (Hedges e E He HE) as (E' & HE' & Hends).
      apply edge_ends_eq in Hends as [Hends1 Hends2].
      destruct (Hnodes _ N1 Hn1 HN1) as (N1' & HN1' & Htopo1).
      destruct (Hnodes _ N2 Hn2 HN2) as (N2' & HN2' & Htopo2).
      apply node_topology_eq in Htopo1 as (Hid1 & _).
      apply node_topology_eq in Htopo2 as (Hid2 & _).
      exists E', N1', N2'. rewrite Hends1, Hends2, Hid1, Hid2. by split_and!.
  - constructor.
    + intros e E' N1' N2' He HE' HN1' HN2'.
      destruct (Hedge' e E' He HE') as (E & HE & Hends & Hn1 & Hn2).
      apply edge_ends_eq in Hends as [Hends1 Hends2].
      rewrite Hends1 in HN1'. rewrite Hends2 in HN2'.
      destruct (Hnode' _ N1' Hn1 HN1') as (N1 & HN1 & Htopo1).
      destruct (Hnode' _ N2' Hn2 HN2') as (N2 & HN2 & Htopo2).
      apply node_topology_eq in Htopo1 as (_ & _ & Hout1 & Hedges1 & _).
      apply node_topology_eq in Htopo2 as (_ & Hin2 & _ & Hedges2 & _).
      rewrite Hedges1, Hedges2, Hout1, Hin2.
      by apply (adj_edge _ _ Hadj e E N1 N2).
    + intros n N' e Hn HN' He.
      destruct (Hnode' n N' Hn HN') as (N & HN & Htopo).
      apply node_topology_eq in Htopo as (_ & Hin & Hout & Hedges0 & _).
      apply (adj_node _ _ Hadj n N e Hn HN).
      unfold node_edge_lists in *. by rewrite <- Hin, <- Hout, <- Hedges0.
    + intros Hundirected n N' Hn HN'.
      destruct (Hnode' n N' Hn HN') as (N & HN & Htopo).
      apply node_topology_eq in Htopo as (_ & Hin & Hout & _).
      rewrite Hin, Hout. by apply (adj_undirected _ _ Hadj Hundirected n N).
Qed.

Lemma graph_wf_node_lt h g G n :
  graph_wf h g G → n ∈ graph_nodes G → (n < length (heap_nodes h))%nat.
Proof.
  intros Hwf Hn. destruct (wf_node _ _ _ Hwf n Hn) as (N & HN & _).
  by eapply lookup_lt_Some.
Qed.

Lemma graph_wf_edge_lt h g G e :
  graph_wf h g G → e ∈ graph_edges G → (e < length (heap_edges h))%nat.
Proof.
  intros Hwf He. destruct (wf_edge _ _ _ Hwf e He) as (E & ? & ? & HE & _).
  by eapply lookup_lt_Some.
Qed.

(** Registering a node that lists no edge yet. *)
Lemma graph_inv_register_node h g G key n N :
  graph_wf h g G →
  adjacency_consistent h G →
  heap_nodes h !! n = Some N →
  n ∉ graph_nodes G →
  node_hostGraph N = Some g →
  key = generateNodeKey (node_id N) →
  graph__nodesMap G !! key = None →
  node_edge_lists N = [] →
  graph_wf h g (graph_register_node key n G) ∧
  adjacency_consistent h (graph_register_node key n G).
Proof.
  intros Hwf Hadj HN Hnew Hhost -> Hfree Hlists. split.
  - constructor; simpl.
    + apply NoDup_app. split_and!; [apply Hwf| |apply NoDup_singleton].
      intros m Hm ->%list_elem_of_singleton. done.
    + apply Hwf.
    + intros m [Hm| ->%list_elem_of_singleton]%elem_of_app.
      * destruct (wf_node _ _ _ Hwf m Hm) as (M & HM & HhostM & Hkey).
        exists M. split_and!; [done..|].
        rewrite lookup_insert_ne; [done|]. intros Heq. congruence.
      * exists N. split_and!; [done..|]. by rewrite lookup_insert_eq.
    + intros k m Hk. apply elem_of_app.
      destruct (decide (generateNodeKey (node_id N) = k)) as [<-|Hne].
      * rewrite lookup_insert_eq in Hk. simplify_eq. right. by left.
      * rewrite lookup_insert_ne in Hk by done. left.
        by apply (wf_nodesMap _ _ _ Hwf k).
    + intros e He.
      destruct (wf_edge _ _ _ Hwf e He)
        as (E & N1 & N2 & HE & Hn1 & Hn2 & HN1 & HN2 & Hkey).
      exists E, N1, N2. split_and!; try done; apply elem_of_app; by left.
  - constructor; simpl.
    + apply Hadj.
    + intros m M e [Hm| ->%list_elem_of_singleton]%elem_of_app HM He.
      * by apply (adj_node _ _ Hadj m M e).
      * simplify_eq. rewrite Hlists in He. by apply elem_of_nil in He.
    + intros Hundirected m M [Hm| ->%list_elem_of_singleton]%elem_of_app HM.
      * by apply (adj_undirected _ _ Hadj Hundirected m M).
      * simplify_eq. unfold node_edge_lists in Hlists.
        apply app_eq_nil in Hlists as [? [? ?]%app_eq_nil]. done.
Qed.

Lemma heap_inv_empty : heap_inv empty_heap.
Proof. intros g G HG. simpl in HG. by rewrite lookup_nil in HG. Qed.

Lemma heap_inv_new_Graph directed h :
  heap_inv h → heap_inv (new_Graph directed h).2.
Proof.
  intros Hinv g G HG. simpl in HG.
  apply lookup_snoc_Some in HG as [[Hlt HG]|[-> <-]].
  - destruct (Hinv g G HG) as [Hwf Hadj].
    apply (graph_inv_transfer h); try done.
    + intros n N _ HN. by exists N.
    + intros e E _ HE. by exists E.
  - split; constructor; simpl.
    + apply NoDup_nil_2.
    + apply NoDup_nil_2.
    + intros n Hn. by apply elem_of_nil in Hn.
    + intros k n Hk. by rewrite lookup_empty in Hk.
    + intros e He. by apply elem_of_nil in He.
    + intros e E N1 N2 He. by apply elem_of_nil in He.
    + intros n N e Hn. by apply elem_of_nil in Hn.
    + intros _ n N Hn. by apply elem_of_nil in Hn.
Qed.

Lemma heap_inv_addNode g id dataIndex h r h' :
  heap_inv h → addNode g id dataIndex h = Some (r, h') → heap_inv h'.
Proof.
  intros Hinv Hadd.
  destruct (heap_graphs h !! g) as [G|] eqn:HG;
    [|unfold addNode in Hadd; by rewrite HG in Hadd].
  destruct (graph__nodesMap G !! generateNodeKey (normalize_id id dataIndex))
    as [n|] eqn:Hkey.
  { rewrite (addNode_duplicate _ _ _ _ _ _ HG Hkey) in Hadd. by simplify_eq. }
  rewrite (addNode_fresh _ _ _ _ _ HG Hkey) in Hadd.
  injection Hadd as <- <-.
  set (N0 := set_node_hostGraph g _).
  set (key := generateNodeKey _) in *.
  set (h1 := mkHeap (heap_nodes h ++ [N0]) (heap_edges h) (heap_graphs h)
                    (heap_lists h)).
  assert (Hold : ∀ g2 G2, heap_graphs h !! g2 = Some G2 →
            graph_wf h1 g2 G2 ∧ adjacency_consistent h1 G2).
  { intros g2 G2 HG2. destruct (Hinv g2 G2 HG2) as [Hwf Hadj].
    apply (graph_inv_transfer h); try done.
    - intros n N _ HN. exists N. split; [|done]. simpl.
      by apply lookup_app_l_Some.
    - intros e E _ HE. by exists E. }
  assert (Hsame : ∀ g2 G2, graph_wf h1 g2 G2 ∧ adjacency_consistent h1 G2 →
            graph_wf (mkHeap (heap_nodes h ++ [N0]) (heap_edges h)
                        (alter (graph_register_node key (length (heap_nodes h))) g
                           (heap_graphs h)) (heap_lists h)) g2 G2 ∧
            adjacency_consistent
              (mkHeap (heap_nodes h ++ [N0]) (heap_edges h)
                 (alter (graph_register_node key (length (heap_nodes h))) g
                    (heap_graphs h)) (heap_lists h)) G2).
  { intros g2 G2 [Hwf Hadj]. apply (graph_inv_transfer h1); try done.
    - intros n N _ HN. by exists N.
    - intros e E _ HE. by exists E. }
  intros g2 G2' HG2'. simpl in HG2'. rewrite list_lookup_alter in HG2'.
  case_decide as Hg.
  - subst g2. rewrite HG in HG2'. simpl in HG2'. injection HG2' as <-.
    apply Hsame. destruct (Hold g G HG) as [Hwf Hadj].
    apply (graph_inv_register_node h1 g G key (length (heap_nodes h)) N0);
      try done.
    + simpl. by apply list_lookup_middle.
    + intros Hin. pose proof (graph_wf_node_lt _ _ _ _ Hwf Hin) as Hlt.
      simpl in Hlt. rewrite length_app in Hlt. simpl in Hlt.
      destruct (Hinv g G HG) as [Hwf0 _].
      destruct (wf_node _ _ _ Hwf0 _ Hin) as (? & Hlook & _).
      apply lookup_lt_Some in Hlook. lia.
  - apply Hsame. by apply Hold.
Qed.

Lemma resolve_node_in_graph h g G a n :
  graph_wf h g G → arg_in_graph G a → resolve_node G a = Some n →
  n ∈ graph_nodes G.
Proof.
  intros Hwf Ha Hn. unfold resolve_node in Hn. destruct a as [m|i|s]; simpl in *.
  - by simplify_eq.
  - destruct (index_Z (graph_nodes G) i) as [m|] eqn:Hi; simpl in Hn.
    + simplify_eq. unfold index_Z in Hi. case_decide; [|done].
      by eapply list_elem_of_lookup_2.
    + by eapply wf_nodesMap.
  - by eapply wf_nodesMap.
Qed.

Lemma linked_node_other directed edge n1 n2 m N :
  m ≠ n1 → m ≠ n2 →
  node_topology (linked_node directed edge n1 n2 m N) = node_topology N.
Proof.
  intros H1 H2. unfold linked_node, node_topology. simpl.
  rewrite !bool_decide_eq_false_2 by tauto.
  rewrite andb_false_r. by rewrite !app_nil_r.
Qed.

Lemma occurs_once_app_other (e' : nat) (l l' : list nat) :
  e' ∉ l' → occurs_once e' l → occurs_once e' (l ++ l').
Proof.
  intros Hnotin. unfold occurs_once. rewrite filter_app, length_app.
  assert (filter (λ x, x = e') l' = []) as ->.
  { induction l' as [|x l' IH]; [done|].
    apply not_elem_of_cons in Hnotin as [Hne Hnotin].
    rewrite filter_cons_False by done. by apply IH. }
  simpl. by rewrite Nat.add_0_r.
Qed.

Lemma graph_node_lists_old h g G n N e :
  graph_wf h g G → adjacency_consistent h G →
  n ∈ graph_nodes G → heap_nodes h !! n = Some N →
  e ∈ node_edge_lists N → (e < length (heap_edges h))%nat.
Proof.
  intros Hwf Hadj Hn HN He. eapply graph_wf_edge_lt; [done|].
  by eapply adj_node.
Qed.

Lemma addEdge_None_inv g a b dataIndex h h' :
  addEdge g a b dataIndex h = Some (None, h') → h' = h.
Proof.
  unfold addEdge. intros Hadd.
  destruct (heap_graphs h !! g) as [G|]; [simpl in Hadd|done].
  destruct (resolve_node G a) as [n1|]; [|by simplify_eq].
  destruct (resolve_node G b) as [n2|]; [|by simplify_eq].
  destruct (heap_nodes h !! n1) as [N1|]; [simpl in Hadd|done].
  destruct (heap_nodes h !! n2) as [N2|]; [simpl in Hadd|done].
  destruct (graph__edgesMap G !! _); by simplify_eq.
Qed.

Lemma heap_inv_addEdge g G a b dataIndex h r h' :
  heap_inv h →
  heap_graphs h !! g = Some G →
  arg_in_graph G a →
  arg_in_graph G b →
  addEdge g a b dataIndex h = Some (r, h') →
  heap_inv h'.
Proof.
  intros Hinv HG Ha Hb Hadd.
  destruct (Hinv g G HG) as [Hwf Hadj].
  destruct r as [e|].
  2:{ (* nothing was added *)
      by rewrite (addEdge_None_inv _ _ _ _ _ _ Hadd). }
  destruct (addEdge_Some_inv _ _ _ _ _ _ _ Hadd)
    as (G0 & n1 & n2 & N1 & N2 & HG0 & Hn1 & Hn2 & HN1 & HN2 & Hkey).
  rewrite HG in HG0. injection HG0 as <-.
  destruct (addEdge_fresh g a b dataIndex h G n1 n2 N1 N2)
    as (h1 & Hadd1 & Hedges & Hgraphs & Hlists & Hlen & Hnodes); try done.
  rewrite Hadd in Hadd1. injection Hadd1 as -> ->.
  apply (resolve_node_in_graph _ _ _ _ _ Hwf Ha) in Hn1.
  apply (resolve_node_in_graph _ _ _ _ _ Hwf Hb) in Hn2.
  set (e := length (heap_edges h)) in *.
  set (key := edge_key (node_id N1) (node_id N2)) in *.
  assert (Hfresh : e ∉ graph_edges G).
  { intros Hin. apply (graph_wf_edge_lt _ _ _ _ Hwf) in Hin. unfold e in Hin. lia. }
  assert (Hunlisted : ∀ n N, n ∈ graph_nodes G → heap_nodes h !! n = Some N →
            e ∉ node_edge_lists N).
  { intros n N Hn HN Hin.
    pose proof (graph_node_lists_old _ _ _ _ _ _ Hwf Hadj Hn HN Hin). unfold e in *. lia. }
  intros g2 G2' HG2'. rewrite Hgraphs, list_lookup_alter in HG2'.
  case_decide as Hg.
  - (* the graph the edge was added to *)
    subst g2. rewrite HG in HG2'. simpl in HG2'. injection HG2' as <-. split.
    + constructor; simpl.
      * apply Hwf.
      * apply NoDup_app. split_and!; [apply Hwf| |apply NoDup_singleton].
        intros x Hx ->%list_elem_of_singleton. done.
      * intros n Hn. destruct (wf_node _ _ _ Hwf n Hn) as (N & HN & Hhost & HkeyN).
        exists (linked_node (graph__directed G) e n1 n2 n N).
        by rewrite Hnodes, HN.
      * apply Hwf.
      * intros e' [He'| ->%list_elem_of_singleton]%elem_of_app.
        -- destruct (wf_edge _ _ _ Hwf e' He')
             as (E & M1 & M2 & HE & Hm1 & Hm2 & HM1 & HM2 & HkeyE).
           exists E, (linked_node (graph__directed G) e n1 n2 (edge_node1 E) M1),
             (linked_node (graph__directed G) e n1 n2 (edge_node2 E) M2).
           rewrite Hedges, !Hnodes, HM1, HM2. simpl.
           split_and!; try done.
           ++ by apply lookup_app_l_Some.
           ++ rewrite lookup_insert_ne; [done|]. intros Heq.
              fold key in Hkey. rewrite Heq in Hkey. congruence.
        -- exists (mkGraphEdge n1 n2 (default (-1) dataIndex) (Some g)),
             (linked_node (graph__directed G) e n1 n2 n1 N1),
             (linked_node (graph__directed G) e n1 n2 n2 N2).
           rewrite Hedges, !Hnodes. simpl. rewrite HN1, HN2. simpl.
           split_and!; try done.
           ++ by apply list_lookup_middle.
           ++ by rewrite lookup_insert_eq.
    + constructor; simpl.
      * intros e' E' M1' M2' He' HE' HM1' HM2'.
        rewrite Hnodes in HM1', HM2'.
        destruct (heap_nodes h !! edge_node1 E') as [M1|] eqn:HM1; [|done].
        destruct (heap_nodes h !! edge_node2 E') as [M2|] eqn:HM2; [|done].
        simpl in HM1', HM2'. injection HM1' as <-. injection HM2' as <-.
        rewrite Hedges in HE'.
        apply elem_of_app in He' as [He'| ->%list_elem_of_singleton].
        -- assert (e' ≠ e) as Hne by (intros ->; done).
           pose proof (graph_wf_edge_lt _ _ _ _ Hwf He') as Hlt.
           rewrite lookup_app_l in HE' by done.
           destruct (adj_edge _ _ Hadj e' E' M1 M2 He' HE' HM1 HM2)
             as (Honce1 & Honce2 & Hdir).
           simpl. split_and!.
           ++ apply occurs_once_app_other; [|done].
              case_bool_decide; [|apply not_elem_of_nil].
              by intros ->%list_elem_of_singleton.
           ++ apply occurs_once_app_other; [|done].
              case_bool_decide; [|apply not_elem_of_nil].
              by intros ->%list_elem_of_singleton.
           ++ intros Hd. destruct (Hdir Hd). split; apply elem_of_app; by left.
        -- rewrite list_lookup_middle in HE' by done. injection HE' as <-.
           simpl in *. rewrite HN1 in HM1. rewrite HN2 in HM2.
           injection HM1 as <-. injection HM2 as <-.
           assert (Hnot1 : e ∉ node_edges N1).
           { intros Hin. apply (Hunlisted n1 N1 Hn1 HN1).
             unfold node_edge_lists. rewrite !elem_of_app. auto. }
           assert (Hnot2 : e ∉ node_edges N2).
           { intros Hin. apply (Hunlisted n2 N2 Hn2 HN2).
             unfold node_edge_lists. rewrite !elem_of_app. auto. }
           rewrite !bool_decide_eq_true_2 by auto.
           split_and!.
           ++ by apply occurs_once_snoc.
           ++ by apply occurs_once_snoc.
           ++ intros ->. simpl. split; apply elem_of_app; right; by left.
      * intros n N' e' Hn HN' He'. rewrite Hnodes in HN'.
        destruct (heap_nodes h !! n) as [N|] eqn:HN; [|done].
        simpl in HN'. injection HN' as <-.
        destruct (decide (e' = e)) as [->|Hne];
          [apply elem_of_app; right; by left|].
        apply elem_of_app. left. apply (adj_node _ _ Hadj n N e' Hn HN).
        unfold node_edge_lists in *. simpl in He'.
        rewrite !elem_of_app in He'. rewrite !elem_of_app.
        destruct He' as [[?|Hx]|[[?|Hx]|[?|Hx]]]; auto;
          case_match; try (by apply elem_of_nil in Hx);
          apply list_elem_of_singleton in Hx; done.
      * intros Hundirected n N' Hn HN'. rewrite Hnodes in HN'.
        destruct (heap_nodes h !! n) as [N|] eqn:HN; [|done].
        simpl in HN'. injection HN' as <-. simpl. rewrite Hundirected. simpl.
        rewrite !app_nil_r. by apply (adj_undirected _ _ Hadj Hundirected n N).
  - (* another graph: its nodes are not the ends of the new edge *)
    destruct (Hinv g2 G2' HG2') as [Hwf2 Hadj2].
    apply (graph_inv_transfer h); try done.
    + intros n N Hn HN.
      exists (linked_node (graph__directed G) e n1 n2 n N).
      rewrite Hnodes, HN. split; [done|].
      destruct (wf_node _ _ _ Hwf2 n Hn) as (N' & HN' & Hhost' & _).
      destruct (wf_node _ _ _ Hwf n1 Hn1) as (M1 & HM1 & Hhost1 & _).
      destruct (wf_node _ _ _ Hwf n2 Hn2) as (M2 & HM2 & Hhost2 & _).
      apply linked_node_other; intros ->; congruence.
    + intros e' E _ HE. exists E. split; [|done]. rewrite Hedges.
      by apply lookup_app_l_Some.
Qed.

(** *** Operations that write only [__visited] and [dataIndex] *)

Lemma same_topology_refl h : same_topology h h.
Proof. by split_and!. Qed.

Lemma same_topology_trans h1 h2 h3 :
  same_topology h1 h2 → same_topology h2 h3 → same_topology h1 h3.
Proof.
  intros (Hg1 & Hn1 & He1) (Hg2 & Hn2 & He2).
  split_and!; congruence.
Qed.

Lemma same_topology_alter_node f n h :
  (∀ N, node_topology (f N) = node_topology N) →
  same_topology h (alter_node f n h).
Proof.
  intros Hf. split_and!; [done| |done]. simpl.
  apply list_eq. intros i. rewrite !list_lookup_fmap, list_lookup_alter.
  case_decide; [subst|done]. destruct (heap_nodes h !! i); simpl; [|done].
  by rewrite Hf.
Qed.

Lemma same_topology_alter_edge f e h :
  (∀ E, edge_ends (f E) = edge_ends E) →
  same_topology h (alter_edge f e h).
Proof.
  intros Hf. split_and!; [done|done|]. simpl.
  apply list_eq. intros i. rewrite !list_lookup_fmap, list_lookup_alter.
  case_decide; [subst|done]. destruct (heap_edges h !! i); simpl; [|done].
  by rewrite Hf.
Qed.

Lemma same_topology_alter_list f l h : same_topology h (alter_list f l h).
Proof. by split_and!. Qed.

Lemma heap_inv_same_topology h h' :
  same_topology h h' → heap_inv h → heap_inv h'.
Proof.
  intros (Hgraphs & Hnodes & Hedges) Hinv g G HG. rewrite Hgraphs in HG.
  destruct (Hinv g G HG) as [Hwf Hadj].
  apply (graph_inv_transfer h); try done.
  - intros n N _ HN.
    assert (Hlook : (node_topology <$> heap_nodes h') !! n = Some (node_topology N)).
    { by rewrite Hnodes, list_lookup_fmap, HN. }
    rewrite list_lookup_fmap in Hlook.
    destruct (heap_nodes h' !! n) as [N'|]; [|done].
    exists N'. split; [done|]. simpl in Hlook. congruence.
  - intros e E _ HE.
    assert (Hlook : (edge_ends <$> heap_edges h') !! e = Some (edge_ends E)).
    { by rewrite Hedges, list_lookup_fmap, HE. }
    rewrite list_lookup_fmap in Hlook.
    destruct (heap_edges h' !! e) as [E'|]; [|done].
    exists E'. split; [done|]. simpl in Hlook. congruence.
Qed.

Lemma same_topology_reset___visited nodes : ∀ h,
  same_topology h (reset___visited nodes h).
Proof.
  induction nodes as [|n nodes IH]; intros h; simpl;
    [apply same_topology_refl|].
  eapply same_topology_trans; [|apply IH]. by apply same_topology_alter_node.
Qed.

Lemma same_topology_reset_node_dataIndex nodes : ∀ h,
  same_topology h (reset_node_dataIndex nodes h).
Proof.
  induction nodes as [|n nodes IH]; intros h; simpl;
    [apply same_topology_refl|].
  eapply same_topology_trans; [|apply IH]. by apply same_topology_alter_node.
Qed.

Lemma same_topology_reset_edge_dataIndex edges : ∀ h,
  same_topology h (reset_edge_dataIndex edges h).
Proof.
  induction edges as [|e edges IH]; intros h; simpl;
    [apply same_topology_refl|].
  eapply same_topology_trans; [|apply IH]. by apply same_topology_alter_edge.
Qed.

Lemma same_topology_assign_node_dataIndex data nodes idxs : ∀ h h',
  assign_node_dataIndex data nodes idxs h = Some h' → same_topology h h'.
Proof.
  induction idxs as [|i idxs IH]; intros h h' Hrun; simpl in Hrun.
  - simplify_eq. apply same_topology_refl.
  - destruct (List_getRawIndex data i) as [rawIdx|]; [simpl in Hrun|done].
    destruct (nodes !! rawIdx) as [n|]; [simpl in Hrun|done].
    eapply same_topology_trans; [|by apply IH].
    by apply same_topology_alter_node.
Qed.

Lemma same_topology_assign_edge_dataIndex edgeData edges idxs : ∀ h h',
  assign_edge_dataIndex edgeData edges idxs h = Some h' → same_topology h h'.
Proof.
  induction idxs as [|i idxs IH]; intros h h' Hrun; simpl in Hrun.
  - simplify_eq. apply same_topology_refl.
  - destruct (List_getRawIndex edgeData i) as [rawIdx|]; [simpl in Hrun|done].
    destruct (edges !! rawIdx) as [e|]; [simpl in Hrun|done].
    eapply same_topology_trans; [|by apply IH].
    by apply same_topology_alter_edge.
Qed.

Lemma same_topology_update g h h' : update g h = Some h' → same_topology h h'.
Proof.
  unfold update. intros Hrun.
  destruct (heap_graphs h !! g) as [G|]; [simpl in Hrun|done].
  destruct (graph_data G) as [data|]; [simpl in Hrun|done].
  destruct (heap_lists _ !! data) as [dataL|]; [simpl in Hrun|done].
  destruct (assign_node_dataIndex dataL _ _ _) as [h2|] eqn:Hassign;
    [simpl in Hrun|done].
  destruct (graph_edgeData G) as [edgeData|]; [simpl in Hrun|done].
  destruct (heap_lists h2 !! edgeData) as [edgeDataL|]; [simpl in Hrun|done].
  destruct (List_filterSelf _ edgeDataL) as [filtered|]; [simpl in Hrun|done].
  destruct (heap_lists _ !! edgeData) as [edgeDataL'|]; [simpl in Hrun|done].
  eapply same_topology_trans; [apply same_topology_reset_node_dataIndex|].
  eapply same_topology_trans;
    [by eapply same_topology_assign_node_dataIndex|].
  eapply same_topology_trans; [apply same_topology_alter_list|].
  eapply same_topology_trans; [apply same_topology_reset_edge_dataIndex|].
  by eapply same_topology_assign_edge_dataIndex.
Qed.

Section TraverseTopology.
Context {Ctx : Type}.
Variable cb : nref → option nref → Ctx → bool * Ctx.

Lemma same_topology_traverse_edges currentNode edges :
  ∀ queue h c vs exit h' c',
    traverse_edges cb currentNode edges queue h c = Some (vs, exit, h', c') →
    same_topology h h'.
Proof.
  induction edges as [|e edges IH]; intros queue h c vs exit h' c' Hrun;
    simpl in Hrun.
  - simplify_eq. apply same_topology_refl.
  - destruct (heap_edges h !! e) as [E|]; [simpl in Hrun|done].
    destruct (heap_nodes h !! _) as [O|]; [simpl in Hrun|done].
    destruct (node___visited O); [by eapply IH|].
    destruct (cb _ (Some currentNode) c) as [stop c1].
    destruct stop; [simplify_eq; apply same_topology_refl|].
    destruct (traverse_edges _ _ _ _ _ _) as [[[[vs1 exit1] h1] c2]|] eqn:Hrest;
      [simpl in Hrun|done].
    simplify_eq. eapply same_topology_trans; [|by eapply IH].
    by apply same_topology_alter_node.
Qed.

Lemma same_topology_traverse_queue fuel direction :
  ∀ queue h c vs fin h' c',
    traverse_queue cb fuel direction queue h c = Some (vs, fin, h', c') →
    same_topology h h'.
Proof.
  induction fuel as [|fuel IH]; intros queue h c vs fin h' c' Hrun;
    destruct queue as [|currentNode queue]; simpl in Hrun;
    try (simplify_eq; apply same_topology_refl).
  destruct (heap_nodes h !! currentNode) as [C|]; [simpl in Hrun|done].
  destruct (traverse_edges _ _ _ _ _ _) as [[[[vs1 exit1] h1] c1]|] eqn:Hedges;
    [simpl in Hrun|done].
  apply same_topology_traverse_edges in Hedges.
  destruct exit1 as [queue1|]; [|by simplify_eq].
  destruct (traverse_queue _ _ _ _ _ _) as [[[[vs2 fin2] h2] c2]|] eqn:Hrest;
    [simpl in Hrun|done].
  simplify_eq. eapply same_topology_trans; [done|by eapply IH].
Qed.

Lemma same_topology_breadthFirstTraverse g startNode direction h c vs fin h' c' :
  breadthFirstTraverse cb g startNode direction h c = Some (vs, fin, h', c') →
  same_topology h h'.
Proof.
  unfold breadthFirstTraverse. intros Hrun.
  destruct (heap_graphs h !! g) as [G|]; [|done].
  cbv beta iota delta [mbind option_bind] in Hrun.
  destruct (start_node G startNode) as [n|];
    [|simplify_eq; apply same_topology_refl].
  destruct (cb n None c) as [stop c1].
  destruct stop; [simplify_eq; apply same_topology_reset___visited|].
  destruct (traverse_queue _ _ _ _ _ _) as [[[[vs1 fin1] h1] c2]|] eqn:Hqueue;
    [|done].
  simplify_eq. eapply same_topology_trans;
    [apply same_topology_reset___visited|by eapply same_topology_traverse_queue].
Qed.
End TraverseTopology.

(** *** [clone] *)

Lemma heap_inv_clone_nodes graph nodes : ∀ h h',
  heap_inv h → clone_nodes graph nodes h = Some h' → heap_inv h'.
Proof.
  induction nodes as [|n nodes IH]; intros h h' Hinv Hrun; simpl in Hrun.
  - by simplify_eq.
  - destruct (heap_nodes h !! n) as [N|]; [simpl in Hrun|done].
    destruct (addNode graph _ _ h) as [[r h1]|] eqn:Hadd; [simpl in Hrun|done].
    eapply IH; [|done]. by eapply heap_inv_addNode.
Qed.

Lemma heap_inv_clone_edges graph edges : ∀ h h',
  heap_inv h → clone_edges graph edges h = Some h' → heap_inv h'.
Proof.
  induction edges as [|e edges IH]; intros h h' Hinv Hrun; simpl in Hrun.
  - by simplify_eq.
  - destruct (heap_edges h !! e) as [E|]; [simpl in Hrun|done].
    destruct (heap_nodes h !! edge_node1 E) as [N1|]; [simpl in Hrun|done].
    destruct (heap_nodes h !! edge_node2 E) as [N2|]; [simpl in Hrun|done].
    destruct (addEdge graph _ _ _ h) as [[r h1]|] eqn:Hadd; [simpl in Hrun|done].
    eapply IH; [|done].
    destruct (heap_graphs h !! graph) as [G|] eqn:HG;
      [|unfold addEdge in Hadd; by rewrite HG in Hadd].
    exact (heap_inv_addEdge graph G (ArgId (node_id N1)) (ArgId (node_id N2))
             _ h r h1 Hinv HG I I Hadd).
Qed.

Lemma heap_inv_clone g h graph h' :
  heap_inv h → clone g h = Some (graph, h') → heap_inv h'.
Proof.
  unfold clone. intros Hinv Hrun.
  destruct (heap_graphs h !! g) as [G|]; [simpl in Hrun|done].
  destruct (clone_nodes _ _ _) as [h1|] eqn:Hnodes; [simpl in Hrun|done].
  destruct (clone_edges _ _ _) as [h2|] eqn:Hedges; [simpl in Hrun|done].
  simplify_eq.
  eapply heap_inv_clone_edges; [|done].
  eapply heap_inv_clone_nodes; [|done].
  by apply (heap_inv_new_Graph (Some (graph__directed G))).
Qed.

(** C10 (amended).  In a store in which every graph is well formed and
    adjacency-consistent, every operation of the graph leaves every graph
    so, the clone included: the constructor, [addNode], [addEdge] with
    endpoints given by id, by index or as nodes of the graph,
    [breadthFirstTraverse], [update] and [clone].  Consistent means: an
    edge of [graph.edges] occurs exactly once in the [edges] of its first
    end and exactly once in the [edges] of its second end, and, when the
    graph is directed, occurs in [outEdges] of the first and [inEdges] of
    the second end; every edge in a list of a node of the graph is in
    [graph.edges]; in an undirected graph [inEdges] and [outEdges] of
    every node are empty. *)
Theorem adjacency_preserved h :
  heap_inv h →
  (∀ directed, heap_inv (new_Graph directed h).2) ∧
  (∀ g id dataIndex r h', addNode g id dataIndex h = Some (r, h') → heap_inv h') ∧
  (∀ g G a b dataIndex r h',
     heap_graphs h !! g = Some G → arg_in_graph G a → arg_in_graph G b →
     addEdge g a b dataIndex h = Some (r, h') → heap_inv h') ∧
  (∀ (Ctx : Type) (cb : nref → option nref → Ctx → bool * Ctx)
     g startNode direction c vs fin h' c',
     breadthFirstTraverse cb g startNode direction h c = Some (vs, fin, h', c') →
     heap_inv h') ∧
  (∀ g h', update g h = Some h' → heap_inv h') ∧
  (∀ g graph h', clone g h = Some (graph, h') → heap_inv h').
Proof.
  intros Hinv. split_and!.
  - intros directed. by apply heap_inv_new_Graph.
  - intros g id dataIndex r h' Hadd. exact (heap_inv_addNode _ _ _ _ _ _ Hinv Hadd).
  - intros g G a b dataIndex r h' HG Ha Hb Hadd. exact (heap_inv_addEdge _ _ _ _ _ _ _ _ Hinv HG Ha Hb Hadd).
  - intros Ctx cb g startNode direction c vs fin h' c' Hrun.
    eapply heap_inv_same_topology; [|done].
    exact (same_topology_breadthFirstTraverse _ _ _ _ _ _ _ _ _ _ Hrun).
  - intros g h' Hrun. eapply heap_inv_same_topology; [|done].
    exact (same_topology_update _ _ _ Hrun).
  - intros g graph h' Hrun. exact (heap_inv_clone _ _ _ _ Hinv Hrun).
Qed.

Lemma heap_A_B_linked_inv : heap_inv heap_A_B_linked.
Proof.
  pose proof (heap_inv_new_Graph None _ heap_inv_empty) as H0.
  assert (H1 : heap_inv heap_A).
  { apply (heap_inv_addNode 0%nat (Some "A") None _ (Some 0%nat) _ H0).
    vm_compute. reflexivity. }
  assert (H2 : heap_inv heap_A_B).
  { apply (heap_inv_addNode 0%nat (Some "B") None _ (Some 1%nat) _ H1).
    vm_compute. reflexivity. }
  apply (heap_inv_addEdge 0%nat (graph_at heap_A_B 0%nat) (ArgId "A") (ArgId "B")
           None _ (Some 0%nat) _ H2); [|exact I|exact I|];
    vm_compute; reflexivity.
Qed.

Lemma adjacency_preserved_witness :
  heap_inv heap_B_A_linked ∧
  heap_inv (after (clone 0%nat heap_A_B_linked)).
Proof.
  destruct (adjacency_preserved heap_A_B_linked heap_A_B_linked_inv)
    as (_ & _ & Hedge & _ & _ & Hclone).
  split.
  - apply (Hedge 0%nat (graph_at heap_A_B_linked 0%nat) (ArgId "B")
             (ArgNode 0%nat) None (Some 1%nat)).
    + vm_compute. reflexivity.
    + exact I.
    + change (0%nat ∈ [0%nat; 1%nat]). by left.
    + vm_compute. reflexivity.
  - apply (Hclone 0%nat 1%nat). vm_compute. reflexivity.
Defined.

Lemma heap_two_graphs_inv : heap_inv heap_two_graphs.
Proof.
  pose proof (heap_inv_new_Graph None _ heap_inv_empty) as H0.
  pose proof (heap_inv_new_Graph None _ H0) as H1.
  assert (H2 : heap_inv
                 (after (addNode 0%nat (Some "A") None
                           (new_Graph None (new_Graph None empty_heap).2).2))).
  { apply (heap_inv_addNode 0%nat (Some "A") None _ (Some 0%nat) _ H1).
    vm_compute. reflexivity. }
  apply (heap_inv_addNode 1%nat (Some "B") None _ (Some 1%nat) _ H2).
  vm_compute. reflexivity.
Qed.

Example heap_foreign_end_spelled_out :
  heap_foreign_end =
    mkHeap
      [mkGraphNode "A" [] [] [0%nat] (Some 0%nat) (-1) false;
       mkGraphNode "B" [] [] [0%nat] (Some 1%nat) (-1) false]
      [mkGraphEdge 0%nat 1%nat (-1) (Some 0%nat)]
      [mkGraph [0%nat] [0%nat] None None false
         (<["_EC_A" := 0%nat]> ∅) (<["A-B" := 0%nat]> ∅);
       mkGraph [1%nat] [] None None false (<["_EC_B" := 1%nat]> ∅) ∅]
      [].
Proof. vm_compute. reflexivity. Qed.

(** C10, as stated, fails: [addEdge] takes a node object for an end and
    does not look at the graph the node belongs to.  In the store of two
    graphs, graph 0 holding [A] and graph 1 holding [B], every graph is
    well formed and adjacency-consistent; [addEdge("A", B)] on graph 0
    creates an edge and pushes it on the [edges] of [B], so that the node
    [B] of graph 1 lists an edge that is not in the [edges] of graph 1. *)
Lemma adjacency_broken_by_foreign_node :
  heap_inv heap_two_graphs ∧
  addEdge 0%nat (ArgId "A") (ArgNode 1%nat) None heap_two_graphs
    = Some (Some 0%nat, heap_foreign_end) ∧
  ¬ adjacency_consistent heap_foreign_end (graph_at heap_foreign_end 1%nat).
Proof.
  split_and!.
  - exact heap_two_graphs_inv.
  - vm_compute. reflexivity.
  - intros Hadj.
    assert (He : 0%nat ∈ graph_edges (graph_at heap_foreign_end 1%nat)).
    { apply (adj_node _ _ Hadj 1%nat
               (mkGraphNode "B" [] [] [0%nat] (Some 1%nat) (-1) false)).
      - change (1%nat ∈ [1%nat]). by left.
      - vm_compute. reflexivity.
      - change (0%nat ∈ [0%nat]). by left. }
    change (graph_edges (graph_at heap_foreign_end 1%nat)) with (@nil nat) in He.
    by apply elem_of_nil in He.
Qed.

(** ** [clone] copies the graph *)



















Example heap_foreign_end_views :
  node_view heap_foreign_end <$> graph_nodes (graph_at heap_foreign_end 0%nat)
    = [Some ("A", -1)] ∧
  edge_view heap_foreign_end <$> graph_edges (graph_at heap_foreign_end 0%nat)
    = [Some ("A", "B", -1)].
Proof. split; vm_compute; reflexivity. Qed.


(** ** Rows and objects after [update] *)

Lemma reset_node_dataIndex_lookup nodes : ∀ h n,
  heap_nodes (reset_node_dataIndex nodes h) !! n =
    (λ N, if bool_decide (n ∈ nodes) then set_node_dataIndex (-1) N else N)
      <$> heap_nodes h !! n.
Proof.
  induction nodes as [|a nodes IH]; intros h n; simpl.
  - by destruct (heap_nodes h !! n).
  - rewrite IH. simpl. rewrite list_lookup_alter. case_decide as Hna.
    + subst a. destruct (heap_nodes h !! n) as [N|]; simpl; [|done].
      rewrite (bool_decide_eq_true_2 (n ∈ n :: nodes)) by left.
      by case_bool_decide.
    + destruct (heap_nodes h !! n) as [N|]; simpl; [|done].
      f_equal. apply (f_equal (λ b : bool, if b then _ else _)).
      apply bool_decide_ext. split; [by right|].
      by intros [?|?]%elem_of_cons.
Qed.

Lemma assign_node_dataIndex_lookup data nodes idxs : ∀ h h',
  assign_node_dataIndex data nodes idxs h = Some h' →
  ∀ n N', heap_nodes h' !! n = Some N' →
    ∃ N, heap_nodes h !! n = Some N ∧
         N' = set_node_dataIndex (node_dataIndex N') N ∧
         (node_dataIndex N' = node_dataIndex N ∨
          ∃ i rawIdx : nat,
            i ∈ idxs ∧ List_getRawIndex data i = Some rawIdx ∧
            nodes !! rawIdx = Some n ∧ node_dataIndex N' = Z.of_nat i).
Proof.
  induction idxs as [|i idxs IH]; intros h h' Hrun n N' HN'; simpl in Hrun.
  - simplify_eq. exists N'. split_and!; [done|by destruct N'|by left].
  - destruct (List_getRawIndex data i) as [rawIdx|] eqn:Hraw;
      [simpl in Hrun|done].
    destruct (nodes !! rawIdx) as [n0|] eqn:Hn0; [simpl in Hrun|done].
    destruct (IH _ _ Hrun n N' HN') as (N1 & HN1 & HeqN & Hidx).
    assert (Hlater : (∃ i' rawIdx' : nat,
               i' ∈ idxs ∧ List_getRawIndex data i' = Some rawIdx' ∧
               nodes !! rawIdx' = Some n ∧ node_dataIndex N' = Z.of_nat i') →
             ∃ i' rawIdx' : nat,
               i' ∈ i :: idxs ∧ List_getRawIndex data i' = Some rawIdx' ∧
               nodes !! rawIdx' = Some n ∧ node_dataIndex N' = Z.of_nat i').
    { intros (i' & r' & ? & ? & ? & ?). exists i', r'.
      split_and!; try done. by right. }
    simpl in HN1. rewrite list_lookup_alter in HN1. case_decide as Hn.
    + subst n0. destruct (heap_nodes h !! n) as [N|]; [|done].
      simpl in HN1. injection HN1 as <-. exists N. split_and!; [done| |].
      * rewrite HeqN. by destruct N.
      * right. destruct Hidx as [Hsame|Hex]; [|by apply Hlater].
        exists i, rawIdx. split_and!; [by left|done|done|].
        by rewrite Hsame.
    + exists N1. split_and!; [done|done|].
      destruct Hidx as [?|Hex]; [by left|right; by apply Hlater].
Qed.

(** A node named by a row of the table is live afterwards. *)
Lemma assign_node_dataIndex_named data nodes idxs : ∀ h h',
  assign_node_dataIndex data nodes idxs h = Some h' →
  ∀ (i rawIdx : nat) n N',
    i ∈ idxs → List_getRawIndex data i = Some rawIdx →
    nodes !! rawIdx = Some n → heap_nodes h' !! n = Some N' →
    0 ≤ node_dataIndex N'.
Proof.
  induction idxs as [|i0 idxs IH]; intros h h' Hrun i rawIdx n N' Hi Hraw Hn HN';
    simpl in Hrun.
  - by apply elem_of_nil in Hi.
  - destruct (List_getRawIndex data i0) as [rawIdx0|] eqn:Hraw0;
      [simpl in Hrun|done].
    destruct (nodes !! rawIdx0) as [n0|] eqn:Hn0; [simpl in Hrun|done].
    apply elem_of_cons in Hi as [->|Hi].
    + rewrite Hraw in Hraw0. injection Hraw0 as <-.
      rewrite Hn in Hn0. injection Hn0 as <-.
      destruct (assign_node_dataIndex_lookup _ _ _ _ _ Hrun n N' HN')
        as (N1 & HN1 & _ & Hidx).
      simpl in HN1. rewrite list_lookup_alter_eq in HN1.
      destruct (heap_nodes h !! n) as [N|]; [|done].
      simpl in HN1. injection HN1 as <-.
      destruct Hidx as [->|(j & ? & _ & _ & _ & ->)]; simpl; lia.
    + by eapply IH.
Qed.

(** With rows and nodes each named once, the node of a row gets the
    position of that row. *)
Lemma assign_node_dataIndex_row data nodes idxs : ∀ h h',
  assign_node_dataIndex data nodes idxs h = Some h' →
  NoDup nodes → NoDup (list__indices data) → NoDup idxs →
  ∀ (i rawIdx : nat) n N N',
    i ∈ idxs → List_getRawIndex data i = Some rawIdx →
    nodes !! rawIdx = Some n → heap_nodes h !! n = Some N →
    heap_nodes h' !! n = Some N' →
    node_dataIndex N' = Z.of_nat i.
Proof.
  induction idxs as [|i0 idxs IH];
    intros h h' Hrun Hnodes Hdata Hidxs i rawIdx n N N' Hi Hraw Hn HN HN';
    simpl in Hrun.
  - by apply elem_of_nil in Hi.
  - destruct (List_getRawIndex data i0) as [rawIdx0|] eqn:Hraw0;
      [simpl in Hrun|done].
    destruct (nodes !! rawIdx0) as [n0|] eqn:Hn0; [simpl in Hrun|done].
    apply NoDup_cons in Hidxs as [Hi0 Hidxs].
    apply elem_of_cons in Hi as [->|Hi].
    + rewrite Hraw in Hraw0. injection Hraw0 as <-.
      rewrite Hn in Hn0. injection Hn0 as <-.
      destruct (assign_node_dataIndex_lookup _ _ _ _ _ Hrun n N' HN')
        as (N1 & HN1 & _ & Hidx).
      simpl in HN1. rewrite list_lookup_alter_eq, HN in HN1.
      simpl in HN1. injection HN1 as <-.
      destruct Hidx as [->|(j & r & Hj & Hr & Hnr & _)]; [done|].
      exfalso. apply Hi0.
      assert (r = rawIdx) as -> by exact (NoDup_lookup _ _ _ _ Hnodes Hnr Hn).
      unfold List_getRawIndex in *.
      by rewrite (NoDup_lookup _ _ _ _ Hdata Hraw Hr).
    + destruct (heap_nodes (alter_node (set_node_dataIndex (Z.of_nat i0)) n0 h) !! n)
        as [N1|] eqn:HN1.
      * by eapply (IH _ _ Hrun Hnodes Hdata Hidxs i rawIdx n N1 N').
      * simpl in HN1. rewrite list_lookup_alter in HN1.
        case_decide; [subst|]; by rewrite HN in HN1.
Qed.


Lemma reset_edge_dataIndex_lookup edges : ∀ h e,
  heap_edges (reset_edge_dataIndex edges h) !! e =
    (λ E, if bool_decide (e ∈ edges) then set_edge_dataIndex (-1) E else E)
      <$> heap_edges h !! e.
Proof.
  induction edges as [|a edges IH]; intros h e; simpl.
  - by destruct (heap_edges h !! e).
  - rewrite IH. simpl. rewrite list_lookup_alter. case_decide as Hea.
    + subst a. destruct (heap_edges h !! e) as [E|]; simpl; [|done].
      rewrite (bool_decide_eq_true_2 (e ∈ e :: edges)) by left.
      by case_bool_decide.
    + destruct (heap_edges h !! e) as [E|]; simpl; [|done].
      f_equal. apply (f_equal (λ b : bool, if b then _ else _)).
      apply bool_decide_ext. split; [by right|].
      by intros [?|?]%elem_of_cons.
Qed.

Lemma assign_edge_dataIndex_lookup data edges idxs : ∀ h h',
  assign_edge_dataIndex data edges idxs h = Some h' →
  ∀ e E', heap_edges h' !! e = Some E' →
    ∃ E, heap_edges h !! e = Some E ∧
         E' = set_edge_dataIndex (edge_dataIndex E') E ∧
         (edge_dataIndex E' = edge_dataIndex E ∨
          ∃ i rawIdx : nat,
            i ∈ idxs ∧ List_getRawIndex data i = Some rawIdx ∧
            edges !! rawIdx = Some e ∧ edge_dataIndex E' = Z.of_nat i).
Proof.
  induction idxs as [|i idxs IH]; intros h h' Hrun e E' HE'; simpl in Hrun.
  - simplify_eq. exists E'. split_and!; [done|by destruct E'|by left].
  - destruct (List_getRawIndex data i) as [rawIdx|] eqn:Hraw;
      [simpl in Hrun|done].
    destruct (edges !! rawIdx) as [e0|] eqn:He0; [simpl in Hrun|done].
    destruct (IH _ _ Hrun e E' HE') as (E1 & HE1 & HeqE & Hidx).
    assert (Hlater : (∃ i' rawIdx' : nat,
               i' ∈ idxs ∧ List_getRawIndex data i' = Some rawIdx' ∧
               edges !! rawIdx' = Some e ∧ edge_dataIndex E' = Z.of_nat i') →
             ∃ i' rawIdx' : nat,
               i' ∈ i :: idxs ∧ List_getRawIndex data i' = Some rawIdx' ∧
               edges !! rawIdx' = Some e ∧ edge_dataIndex E' = Z.of_nat i').
    { intros (i' & r' & ? & ? & ? & ?). exists i', r'.
      split_and!; try done. by right. }
    simpl in HE1. rewrite list_lookup_alter in HE1. case_decide as He.
    + subst e0. destruct (heap_edges h !! e) as [E|]; [|done].
      simpl in HE1. injection HE1 as <-. exists E. split_and!; [done| |].
      * rewrite HeqE. by destruct E.
      * right. destruct Hidx as [Hsame|Hex]; [|by apply Hlater].
        exists i, rawIdx. split_and!; [by left|done|done|].
        by rewrite Hsame.
    + exists E1. split_and!; [done|done|].
      destruct Hidx as [?|Hex]; [by left|right; by apply Hlater].
Qed.

(** An edge named by a row of the table is live afterwards. *)
Lemma assign_edge_dataIndex_named data edges idxs : ∀ h h',
  assign_edge_dataIndex data edges idxs h = Some h' →
  ∀ (i rawIdx : nat) e E',
    i ∈ idxs → List_getRawIndex data i = Some rawIdx →
    edges !! rawIdx = Some e → heap_edges h' !! e = Some E' →
    0 ≤ edge_dataIndex E'.
Proof.
  induction idxs as [|i0 idxs IH]; intros h h' Hrun i rawIdx e E' Hi Hraw He HE';
    simpl in Hrun.
  - by apply elem_of_nil in Hi.
  - destruct (List_getRawIndex data i0) as [rawIdx0|] eqn:Hraw0;
      [simpl in Hrun|done].
    destruct (edges !! rawIdx0) as [e0|] eqn:He0; [simpl in Hrun|done].
    apply elem_of_cons in Hi as [->|Hi].
    + rewrite Hraw in Hraw0. injection Hraw0 as <-.
      rewrite He in He0. injection He0 as <-.
      destruct (assign_edge_dataIndex_lookup _ _ _ _ _ Hrun e E' HE')
        as (E1 & HE1 & _ & Hidx).
      simpl in HE1. rewrite list_lookup_alter_eq in HE1.
      destruct (heap_edges h !! e) as [E|]; [|done].
      simpl in HE1. injection HE1 as <-.
      destruct Hidx as [->|(j & ? & _ & _ & _ & ->)]; simpl; lia.
    + by eapply IH.
Qed.

(** With rows and edges each named once, the edge of a row gets the
    position of that row. *)
Lemma assign_edge_dataIndex_row data edges idxs : ∀ h h',
  assign_edge_dataIndex data edges idxs h = Some h' →
  NoDup edges → NoDup (list__indices data) → NoDup idxs →
  ∀ (i rawIdx : nat) e E E',
    i ∈ idxs → List_getRawIndex data i = Some rawIdx →
    edges !! rawIdx = Some e → heap_edges h !! e = Some E →
    heap_edges h' !! e = Some E' →
    edge_dataIndex E' = Z.of_nat i.
Proof.
  induction idxs as [|i0 idxs IH];
    intros h h' Hrun Hedges Hdata Hidxs i rawIdx e E E' Hi Hraw He HE HE';
    simpl in Hrun.
  - by apply elem_of_nil in Hi.
  - destruct (List_getRawIndex data i0) as [rawIdx0|] eqn:Hraw0;
      [simpl in Hrun|done].
    destruct (edges !! rawIdx0) as [e0|] eqn:He0; [simpl in Hrun|done].
    apply NoDup_cons in Hidxs as [Hi0 Hidxs].
    apply elem_of_cons in Hi as [->|Hi].
    + rewrite Hraw in Hraw0. injection Hraw0 as <-.
      rewrite He in He0. injection He0 as <-.
      destruct (assign_edge_dataIndex_lookup _ _ _ _ _ Hrun e E' HE')
        as (E1 & HE1 & _ & Hidx).
      simpl in HE1. rewrite list_lookup_alter_eq, HE in HE1.
      simpl in HE1. injection HE1 as <-.
      destruct Hidx as [->|(j & r & Hj & Hr & Her & _)]; [done|].
      exfalso. apply Hi0.
      assert (r = rawIdx) as -> by exact (NoDup_lookup _ _ _ _ Hedges Her He).
      unfold List_getRawIndex in *.
      by rewrite (NoDup_lookup _ _ _ _ Hdata Hraw Hr).
    + destruct (heap_edges (alter_edge (set_edge_dataIndex (Z.of_nat i0)) e0 h) !! e)
        as [E1|] eqn:HE1.
      * by eapply (IH _ _ Hrun Hedges Hdata Hidxs i rawIdx e E1 E').
      * simpl in HE1. rewrite list_lookup_alter in HE1.
        case_decide; [subst|]; by rewrite HE in HE1.
Qed.

Lemma assign_node_dataIndex_rows data nodes idxs : ∀ h h',
  assign_node_dataIndex data nodes idxs h = Some h' →
  ∀ i, i ∈ idxs →
    ∃ rawIdx n, List_getRawIndex data i = Some rawIdx ∧ nodes !! rawIdx = Some n.
Proof.
  induction idxs as [|i0 idxs IH]; intros h h' Hrun i Hi; simpl in Hrun.
  - by apply elem_of_nil in Hi.
  - destruct (List_getRawIndex data i0) as [rawIdx0|] eqn:Hraw0;
      [simpl in Hrun|done].
    destruct (nodes !! rawIdx0) as [n0|] eqn:Hn0; [simpl in Hrun|done].
    apply elem_of_cons in Hi as [->|Hi]; [by exists rawIdx0, n0|].
    by eapply IH.
Qed.

Lemma assign_edge_dataIndex_rows edgeData edges idxs : ∀ h h',
  assign_edge_dataIndex edgeData edges idxs h = Some h' →
  ∀ i, i ∈ idxs →
    ∃ rawIdx e, List_getRawIndex edgeData i = Some rawIdx ∧ edges !! rawIdx = Some e.
Proof.
  induction idxs as [|i0 idxs IH]; intros h h' Hrun i Hi; simpl in Hrun.
  - by apply elem_of_nil in Hi.
  - destruct (List_getRawIndex edgeData i0) as [rawIdx0|] eqn:Hraw0;
      [simpl in Hrun|done].
    destruct (edges !! rawIdx0) as [e0|] eqn:He0; [simpl in Hrun|done].
    apply elem_of_cons in Hi as [->|Hi]; [by exists rawIdx0, e0|].
    by eapply IH.
Qed.

(** The rows [filterSelf] keeps are rows of the table, in their order. *)
Lemma filter_indices_sublist cb indices : ∀ idx kept,
  filter_indices cb idx indices = Some kept → sublist kept indices.
Proof.
  induction indices as [|r indices IH]; intros idx kept Hrun; simpl in Hrun.
  - by simplify_eq.
  - destruct (cb idx) as [keep|]; [simpl in Hrun|done].
    destruct (filter_indices cb (S idx) indices) as [rest|] eqn:Hrest;
      [simpl in Hrun|done].
    injection Hrun as <-. apply IH in Hrest.
    destruct keep; by constructor.
Qed.

(** The stages of [update]: the nodes get their rows in [h1], the edge
    table is filtered against [h1], the edges get the rows that are left. *)
Lemma update_stages g h h' G :
  heap_graphs h !! g = Some G →
  update g h = Some h' →
  ∃ data edgeData dataL edgeDataL kept h1,
    graph_data G = Some data ∧
    graph_edgeData G = Some edgeData ∧
    heap_lists h !! data = Some dataL ∧
    heap_lists h !! edgeData = Some edgeDataL ∧
    assign_node_dataIndex dataL (graph_nodes G) (seq 0 (List_count dataL))
      (reset_node_dataIndex (graph_nodes G) h) = Some h1 ∧
    filter_indices (both_ends_live edgeDataL (graph_edges G) h1) 0
      (list__indices edgeDataL) = Some kept ∧
    assign_edge_dataIndex (mkList kept) (graph_edges G) (seq 0 (length kept))
      (reset_edge_dataIndex (graph_edges G)
         (alter_list (λ _, mkList kept) edgeData h1)) = Some h' ∧
    heap_edges h1 = heap_edges h ∧
    heap_nodes h' = heap_nodes h1 ∧
    heap_graphs h' = heap_graphs h ∧
    heap_lists h' = alter (λ _, mkList kept) edgeData (heap_lists h).
Proof.
  intros HG Hrun. unfold update in Hrun. rewrite HG in Hrun. simpl in Hrun.
  destruct (graph_data G) as [data|] eqn:Hdata; [simpl in Hrun|done].
  destruct (reset_node_dataIndex_frame (graph_nodes G) h)
    as (Hedges1 & Hgraphs1 & Hlists1).
  rewrite Hlists1 in Hrun.
  destruct (heap_lists h !! data) as [dataL|] eqn:HdataL; [simpl in Hrun|done].
  destruct (assign_node_dataIndex dataL _ _ _) as [h1|] eqn:Hassign;
    [simpl in Hrun|done].
  destruct (assign_node_dataIndex_frame _ _ _ _ _ Hassign)
    as (Hedges2 & Hgraphs2 & Hlists2).
  destruct (graph_edgeData G) as [edgeData|] eqn:HedgeData; [simpl in Hrun|done].
  rewrite Hlists2, Hlists1 in Hrun.
  destruct (heap_lists h !! edgeData) as [edgeDataL|] eqn:HedgeDataL;
    [simpl in Hrun|done].
  unfold List_filterSelf in Hrun.
  destruct (filter_indices _ _ _) as [kept|] eqn:Hkept; [simpl in Hrun|done].
  set (h3 := alter_list (λ _, mkList kept) edgeData h1) in *.
  destruct (reset_edge_dataIndex_spec (graph_edges G) h3)
    as (Hnodes4 & Hgraphs4 & Hlists4 & _).
  rewrite Hlists4 in Hrun. simpl in Hrun.
  rewrite list_lookup_alter_eq, Hlists2, Hlists1, HedgeDataL in Hrun.
  simpl in Hrun.
  destruct (assign_edge_dataIndex_spec _ _ _ _ _ Hrun)
    as (Hnodes5 & Hgraphs5 & Hlists5 & _).
  exists data, edgeData, dataL, edgeDataL, kept, h1.
  split_and!; try done.
  - by rewrite Hedges2, Hedges1.
  - by rewrite Hnodes5, Hnodes4.
  - rewrite Hgraphs5, Hgraphs4. simpl. by rewrite Hgraphs2, Hgraphs1.
  - rewrite Hlists5, Hlists4. simpl. by rewrite Hlists2, Hlists1.
Qed.

Lemma getRawIndex_of_nat L (i : nat) :
  getRawIndex_of L (Z.of_nat i) = List_getRawIndex L i.
Proof.
  unfold getRawIndex_of. rewrite decide_True by lia. by rewrite Nat2Z.id.
Qed.

(** X1.  After [update], [dataIndex] and the lookups by row fit together:
    a live edge of the graph is the edge [getEdgeByIndex] returns for its
    [dataIndex], and, the node table being another object than the edge
    table, a live node of the graph is the node [getNodeByIndex] returns
    for its [dataIndex]. *)
Theorem update_getByIndex g h h' G :
  heap_graphs h !! g = Some G →
  update g h = Some h' →
  (∀ e E, e ∈ graph_edges G → heap_edges h' !! e = Some E →
     0 ≤ edge_dataIndex E →
     getEdgeByIndex g (edge_dataIndex E) h' = Some (Some e)) ∧
  (graph_data G ≠ graph_edgeData G →
   ∀ n N, n ∈ graph_nodes G → heap_nodes h' !! n = Some N →
     0 ≤ node_dataIndex N →
     getNodeByIndex g (node_dataIndex N) h' = Some (Some n)).
Proof.
  intros HG Hrun.
  destruct (update_stages _ _ _ _ HG Hrun)
    as (data & edgeData & dataL & edgeDataL & kept & h1 & Hdata & HedgeData
        & HdataL & HedgeDataL & Hnodes & Hkept & Hedges & Hedges1 & Hnodes'
        & Hgraphs' & Hlists').
  split.
  - intros e E Hin HE Hlive.
    destruct (assign_edge_dataIndex_lookup _ _ _ _ _ Hedges e E HE)
      as (E0 & HE0 & _ & Hidx).
    rewrite reset_edge_dataIndex_lookup in HE0.
    rewrite bool_decide_eq_true_2 in HE0 by done.
    simpl in HE0.
    destruct (heap_edges h1 !! e) as [E1|]; [|done].
    simpl in HE0. injection HE0 as <-.
    destruct Hidx as [Hsame|(i & rawIdx & _ & Hraw & He & Hi)];
      [simpl in Hsame; lia|].
    unfold getEdgeByIndex. rewrite Hgraphs', HG. simpl.
    rewrite HedgeData. simpl.
    rewrite Hlists', list_lookup_alter_eq, HedgeDataL. simpl.
    rewrite Hi, getRawIndex_of_nat, Hraw. simpl. by rewrite He.
  - intros Hdistinct n N Hin HN Hlive.
    rewrite Hnodes' in HN.
    destruct (assign_node_dataIndex_lookup _ _ _ _ _ Hnodes n N HN)
      as (N0 & HN0 & _ & Hidx).
    rewrite reset_node_dataIndex_lookup in HN0.
    rewrite bool_decide_eq_true_2 in HN0 by done.
    destruct (heap_nodes h !! n) as [N1|]; [|done].
    simpl in HN0. injection HN0 as <-.
    destruct Hidx as [Hsame|(i & rawIdx & _ & Hraw & Hn & Hi)];
      [simpl in Hsame; lia|].
    unfold getNodeByIndex. rewrite Hgraphs', HG. simpl.
    rewrite Hdata. simpl.
    rewrite Hlists', list_lookup_alter_ne, HdataL by congruence. simpl.
    rewrite Hi, getRawIndex_of_nat, Hraw. simpl. by rewrite Hn.
Qed.

Lemma same_topology_node_lookup h h' n N :
  same_topology h h' → heap_nodes h !! n = Some N →
  ∃ N', heap_nodes h' !! n = Some N' ∧ node_topology N' = node_topology N.
Proof.
  intros (_ & Hnodes & _) HN.
  apply (f_equal (λ l, l !! n)) in Hnodes.
  rewrite !list_lookup_fmap, HN in Hnodes.
  destruct (heap_nodes h' !! n) as [N'|]; [|done].
  exists N'. split; [done|]. by apply (inj Some).
Qed.

Lemma same_topology_edge_lookup h h' e E :
  same_topology h h' → heap_edges h !! e = Some E →
  ∃ E', heap_edges h' !! e = Some E' ∧ edge_ends E' = edge_ends E.
Proof.
  intros (_ & _ & Hedges) HE.
  apply (f_equal (λ l, l !! e)) in Hedges.
  rewrite !list_lookup_fmap, HE in Hedges.
  destruct (heap_edges h' !! e) as [E'|]; [|done].
  exists E'. split; [done|]. by apply (inj Some).
Qed.

(** X2.  After [update] on a well-formed graph whose tables name each
    storage index at most once, every row of the node table leads, by
    [getNodeByIndex], to a node of the graph whose [dataIndex] is this
    row, and every row left in the edge table leads, by [getEdgeByIndex],
    to an edge of the graph whose [dataIndex] is this row. *)
Theorem update_rows_name_objects g h h' G data edgeData dataL edgeDataL :
  heap_graphs h !! g = Some G →
  graph_wf h g G →
  graph_data G = Some data →
  graph_edgeData G = Some edgeData →
  data ≠ edgeData →
  heap_lists h !! data = Some dataL →
  heap_lists h !! edgeData = Some edgeDataL →
  NoDup (list__indices dataL) →
  NoDup (list__indices edgeDataL) →
  update g h = Some h' →
  (∀ i : nat, (i < List_count dataL)%nat →
     ∃ n N, getNodeByIndex g (Z.of_nat i) h' = Some (Some n) ∧
            n ∈ graph_nodes G ∧
            heap_nodes h' !! n = Some N ∧
            node_dataIndex N = Z.of_nat i) ∧
  (∃ edgeDataL',
     heap_lists h' !! edgeData = Some edgeDataL' ∧
     sublist (list__indices edgeDataL') (list__indices edgeDataL) ∧
     ∀ i : nat, (i < List_count edgeDataL')%nat →
       ∃ e E, getEdgeByIndex g (Z.of_nat i) h' = Some (Some e) ∧
              e ∈ graph_edges G ∧
              heap_edges h' !! e = Some E ∧
              edge_dataIndex E = Z.of_nat i).
Proof.
  intros HG Hwf Hdata HedgeData Hdistinct HdataL HedgeDataL HnodupD HnodupE Hrun.
  destruct (update_stages _ _ _ _ HG Hrun)
    as (data' & edgeData' & dataL' & edgeDataL' & kept & h1 & Hdata' & HedgeData'
        & HdataL' & HedgeDataL' & Hnodes & Hkept & Hedges & Hedges1 & Hnodes'
        & Hgraphs' & Hlists').
  rewrite Hdata in Hdata'. injection Hdata' as <-.
  rewrite HedgeData in HedgeData'. injection HedgeData' as <-.
  rewrite HdataL in HdataL'. injection HdataL' as <-.
  rewrite HedgeDataL in HedgeDataL'. injection HedgeDataL' as <-.
  split.
  - intros i Hi.
    assert (Hseq : i ∈ seq 0 (List_count dataL)) by (apply elem_of_seq; lia).
    destruct (assign_node_dataIndex_rows _ _ _ _ _ Hnodes i Hseq)
      as (rawIdx & n & Hraw & Hn).
    assert (Hin : n ∈ graph_nodes G) by exact (list_elem_of_lookup_2 _ _ _ Hn).
    destruct (wf_node _ _ _ Hwf n Hin) as (N0 & HN0 & _).
    pose proof (reset_node_dataIndex_lookup (graph_nodes G) h n) as Hreset.
    rewrite HN0 in Hreset. simpl in Hreset.
    destruct (same_topology_node_lookup _ _ n _
                (same_topology_assign_node_dataIndex _ _ _ _ _ Hnodes) Hreset)
      as (N & HN & _).
    exists n, N. split_and!; [|done|by rewrite Hnodes'|].
    + unfold getNodeByIndex. rewrite Hgraphs', HG. simpl.
      rewrite Hdata. simpl.
      rewrite Hlists', list_lookup_alter_ne, HdataL by done. simpl.
      rewrite getRawIndex_of_nat, Hraw. simpl. by rewrite Hn.
    + eapply (assign_node_dataIndex_row _ _ _ _ _ Hnodes); try done.
      * by apply (wf_nodes_NoDup _ _ _ Hwf).
      * apply NoDup_seq.
  - exists (mkList kept). split_and!.
    + by rewrite Hlists', list_lookup_alter_eq, HedgeDataL.
    + by eapply filter_indices_sublist.
    + intros i Hi. unfold List_count in Hi. simpl in Hi.
      assert (Hseq : i ∈ seq 0 (length kept)) by (apply elem_of_seq; lia).
      destruct (assign_edge_dataIndex_rows _ _ _ _ _ Hedges i Hseq)
        as (rawIdx & e & Hraw & He).
      assert (Hin : e ∈ graph_edges G) by exact (list_elem_of_lookup_2 _ _ _ He).
      destruct (wf_edge _ _ _ Hwf e Hin) as (E0 & _ & _ & HE0 & _).
      pose proof (reset_edge_dataIndex_lookup (graph_edges G)
                    (alter_list (λ _, mkList kept) edgeData h1) e) as Hreset.
      simpl in Hreset. rewrite Hedges1, HE0 in Hreset. simpl in Hreset.
      destruct (same_topology_edge_lookup _ _ e _
                  (same_topology_assign_edge_dataIndex _ _ _ _ _ Hedges) Hreset)
        as (E & HE & _).
      exists e, E. split_and!; [|done|done|].
      * unfold getEdgeByIndex. rewrite Hgraphs', HG. simpl.
        rewrite HedgeData. simpl.
        rewrite Hlists', list_lookup_alter_eq, HedgeDataL. simpl.
        rewrite getRawIndex_of_nat, Hraw. simpl. by rewrite He.
      * eapply (assign_edge_dataIndex_row _ _ _ _ _ Hedges); try done.
        -- by apply (wf_edges_NoDup _ _ _ Hwf).
        -- exact (sublist_NoDup _ _ HnodupE (filter_indices_sublist _ _ _ _ Hkept)).
        -- apply NoDup_seq.
Qed.

(** ** [eachNode] and [eachEdge] *)

Section EachProperties.
Context {Ctx : Type}.
Variable cb : nat → nat → Ctx → Ctx.

Lemma eachNode_from_rows (rows : list nat) h nodes : ∀ i c,
  (∀ (k : nat) n, nodes !! k = Some n →
     ∃ N, heap_nodes h !! n = Some N ∧
          (0 ≤ node_dataIndex N ↔ (i + k)%nat ∈ rows)) →
  let calls := filter (λ p, p.2 ∈ rows) (zip nodes (seq i (length nodes))) in
  eachNode_from cb i nodes h c
    = Some (calls, foldl (λ c p, cb p.1 p.2 c) c calls).
Proof.
  induction nodes as [|n nodes IH]; intros i c Hlive; simpl; [done|].
  destruct (Hlive 0%nat n eq_refl) as (N & HN & Hiff).
  rewrite Nat.add_0_r in Hiff. rewrite HN. simpl.
  assert (Hrest : ∀ (k : nat) n', nodes !! k = Some n' →
            ∃ N', heap_nodes h !! n' = Some N' ∧
                  (0 ≤ node_dataIndex N' ↔ (S i + k)%nat ∈ rows)).
  { intros k n' Hk. destruct (Hlive (S k) n' Hk) as (N' & ? & Hiff').
    exists N'. split; [done|]. by rewrite Nat.add_succ_r in Hiff'. }
  case_bool_decide as Hidx.
  - rewrite (IH (S i) (cb n i c) Hrest). simpl.
    rewrite filter_cons_True by (simpl; by apply Hiff). done.
  - rewrite (IH (S i) c Hrest).
    rewrite filter_cons_False by (simpl; by rewrite <- Hiff). done.
Qed.

Lemma eachEdge_from_rows (rows : list nat) h edges : ∀ i c,
  (∀ (k : nat) e, edges !! k = Some e →
     ∃ E, heap_edges h !! e = Some E ∧
          edge_is_live h E = Some (bool_decide ((i + k)%nat ∈ rows))) →
  let calls := filter (λ p, p.2 ∈ rows) (zip edges (seq i (length edges))) in
  eachEdge_from cb i edges h c
    = Some (calls, foldl (λ c p, cb p.1 p.2 c) c calls).
Proof.
  induction edges as [|e edges IH]; intros i c Hlive; simpl; [done|].
  destruct (Hlive 0%nat e eq_refl) as (E & HE & Hiff).
  rewrite Nat.add_0_r in Hiff. rewrite HE. simpl. rewrite Hiff. simpl.
  assert (Hrest : ∀ (k : nat) e', edges !! k = Some e' →
            ∃ E', heap_edges h !! e' = Some E' ∧
                  edge_is_live h E' = Some (bool_decide ((S i + k)%nat ∈ rows))).
  { intros k e' Hk. destruct (Hlive (S k) e' Hk) as (E' & ? & Hiff').
    exists E'. split; [done|]. by rewrite Nat.add_succ_r in Hiff'. }
  case_bool_decide as Hidx.
  - rewrite (IH (S i) (cb e i c) Hrest). simpl.
    rewrite filter_cons_True by done. done.
  - rewrite (IH (S i) c Hrest).
    rewrite filter_cons_False by done. done.
Qed.

(** X3.  After [update] on a well-formed graph, [eachNode] calls the
    callback on [nodes[r]] with [r], for exactly the storage indices [r]
    the node table lists, by increasing [r], and threads the context
    through these calls. *)
Theorem eachNode_after_update g h h' G data dataL c :
  heap_graphs h !! g = Some G →
  graph_wf h g G →
  graph_data G = Some data →
  heap_lists h !! data = Some dataL →
  update g h = Some h' →
  let calls :=
    filter (λ p, p.2 ∈ list__indices dataL)
      (zip (graph_nodes G) (seq 0 (length (graph_nodes G)))) in
  eachNode cb g h' c = Some (calls, foldl (λ c p, cb p.1 p.2 c) c calls).
Proof.
  intros HG Hwf Hdata HdataL Hrun.
  destruct (update_stages _ _ _ _ HG Hrun)
    as (data' & edgeData & dataL' & edgeDataL & kept & h1 & Hdata' & HedgeData
        & HdataL' & HedgeDataL & Hnodes & Hkept & Hedges & Hedges1 & Hnodes'
        & Hgraphs' & Hlists').
  rewrite Hdata in Hdata'. injection Hdata' as <-.
  rewrite HdataL in HdataL'. injection HdataL' as <-.
  unfold eachNode. rewrite Hgraphs', HG. simpl.
  apply eachNode_from_rows. intros k n Hk. simpl.
  assert (Hin : n ∈ graph_nodes G) by exact (list_elem_of_lookup_2 _ _ _ Hk).
  destruct (wf_node _ _ _ Hwf n Hin) as (N0 & HN0 & _).
  pose proof (reset_node_dataIndex_lookup (graph_nodes G) h n) as Hreset.
  rewrite HN0, bool_decide_eq_true_2 in Hreset by done. simpl in Hreset.
  destruct (same_topology_node_lookup _ _ n _
              (same_topology_assign_node_dataIndex _ _ _ _ _ Hnodes) Hreset)
    as (N & HN & _).
  exists N. split; [by rewrite Hnodes'|]. split.
  - intros Hlive.
    destruct (assign_node_dataIndex_lookup _ _ _ _ _ Hnodes n N HN)
      as (N1 & HN1 & _ & Hidx).
    rewrite Hreset in HN1. injection HN1 as <-.
    destruct Hidx as [Hsame|(i & rawIdx & _ & Hraw & Hn & _)];
      [simpl in Hsame; lia|].
    rewrite (NoDup_lookup _ _ _ _ (wf_nodes_NoDup _ _ _ Hwf) Hk Hn).
    exact (list_elem_of_lookup_2 _ _ _ Hraw).
  - intros Hrow. apply list_elem_of_lookup_1 in Hrow as (i & Hi).
    eapply (assign_node_dataIndex_named _ _ _ _ _ Hnodes i k n N); try done.
    apply elem_of_seq. apply lookup_lt_Some in Hi. unfold List_count. lia.
Qed.

(** X4.  After [update] on a well-formed graph, [eachEdge] calls the
    callback on [edges[r]] with [r], for exactly the storage indices [r]
    left in the edge table, by increasing [r]: the test of the two ends
    excludes no edge that has a row. *)
Theorem eachEdge_after_update g h h' G edgeData edgeDataL' c :
  heap_graphs h !! g = Some G →
  graph_wf h g G →
  graph_edgeData G = Some edgeData →
  update g h = Some h' →
  heap_lists h' !! edgeData = Some edgeDataL' →
  let calls :=
    filter (λ p, p.2 ∈ list__indices edgeDataL')
      (zip (graph_edges G) (seq 0 (length (graph_edges G)))) in
  eachEdge cb g h' c = Some (calls, foldl (λ c p, cb p.1 p.2 c) c calls).
Proof.
  intros HG Hwf HedgeData Hrun HedgeDataL'.
  destruct (update_stages _ _ _ _ HG Hrun)
    as (data & edgeData' & dataL & edgeDataL & kept & h1 & Hdata & HedgeData'
        & HdataL & HedgeDataL & Hnodes & Hkept & Hedges & Hedges1 & Hnodes'
        & Hgraphs' & Hlists').
  rewrite HedgeData in HedgeData'. injection HedgeData' as <-.
  rewrite Hlists', list_lookup_alter_eq, HedgeDataL in HedgeDataL'.
  simpl in HedgeDataL'. injection HedgeDataL' as <-. simpl.
  unfold eachEdge. rewrite Hgraphs', HG. simpl.
  apply eachEdge_from_rows. intros k e Hk. simpl.
  assert (Hin : e ∈ graph_edges G) by exact (list_elem_of_lookup_2 _ _ _ Hk).
  destruct (wf_edge _ _ _ Hwf e Hin) as (E0 & _ & _ & HE0 & _).
  pose proof (reset_edge_dataIndex_lookup (graph_edges G)
                (alter_list (λ _, mkList kept) edgeData h1) e) as Hreset.
  simpl in Hreset.
  rewrite Hedges1, HE0, bool_decide_eq_true_2 in Hreset by done.
  simpl in Hreset.
  destruct (same_topology_edge_lookup _ _ e _
              (same_topology_assign_edge_dataIndex _ _ _ _ _ Hedges) Hreset)
    as (E & HE & _).
  exists E. split; [done|].
  destruct (assign_edge_dataIndex_lookup _ _ _ _ _ Hedges e E HE)
    as (E1 & HE1 & HeqE & Hidx).
  rewrite Hreset in HE1. injection HE1 as <-.
  unfold edge_is_live. destruct (decide (k ∈ kept)) as [Hrow|Hrow].
  - rewrite (bool_decide_eq_true_2 (k ∈ kept)) by done.
    apply list_elem_of_lookup_1 in Hrow as Hi. destruct Hi as (i & Hi).
    assert (Hlive : 0 ≤ edge_dataIndex E).
    { eapply (assign_edge_dataIndex_named _ _ _ _ _ Hedges i k e E); try done.
      apply elem_of_seq. apply lookup_lt_Some in Hi. lia. }
    rewrite bool_decide_eq_true_2 by done.
    destruct (filter_indices_kept _ _ _ _ _ Hkept Hrow) as (j & Hj & Hkeep).
    apply both_ends_live_true in Hkeep
      as (rawIdx' & e' & E' & N1 & N2 & Hraw' & He' & HE' & HN1 & HN2 & ? & ?).
    unfold List_getRawIndex in Hraw'. simpl in Hraw'.
    rewrite Hj in Hraw'. injection Hraw' as <-.
    rewrite Hk in He'. injection He' as <-.
    rewrite Hedges1, HE0 in HE'. injection HE' as <-.
    rewrite HeqE. simpl. rewrite Hnodes', HN1. simpl.
    rewrite bool_decide_eq_true_2 by done. rewrite HN2. simpl.
    by rewrite bool_decide_eq_true_2.
  - rewrite (bool_decide_eq_false_2 (k ∈ kept)) by done.
    destruct Hidx as [Hsame|(i & rawIdx & _ & Hraw & He & _)].
    + by rewrite Hsame.
    + exfalso. apply Hrow.
      rewrite (NoDup_lookup _ _ _ _ (wf_edges_NoDup _ _ _ Hwf) Hk He).
      exact (list_elem_of_lookup_2 _ _ _ Hraw).
Qed.
End EachProperties.

(** ** What no operation undoes *)

Lemma node_grows_refl N : node_grows N N.
Proof. by constructor. Qed.

Lemma node_grows_trans N1 N2 N3 :
  node_grows N1 N2 → node_grows N2 N3 → node_grows N1 N3.
Proof.
  intros [] []. constructor; try congruence; by etrans.
Qed.

Lemma graph_grows_refl G : graph_grows G G.
Proof. by constructor. Qed.

Lemma graph_grows_trans G1 G2 G3 :
  graph_grows G1 G2 → graph_grows G2 G3 → graph_grows G1 G3.
Proof.
  intros [] []. constructor; try congruence; by etrans.
Qed.

Lemma store_grows_refl h : store_grows h h.
Proof.
  split_and!.
  - intros n N HN. exists N. split; [done|apply node_grows_refl].
  - intros e E HE. by exists E.
  - intros g G HG. exists G. split; [done|apply graph_grows_refl].
Qed.

Lemma store_grows_trans h1 h2 h3 :
  store_grows h1 h2 → store_grows h2 h3 → store_grows h1 h3.
Proof.
  intros (Hn12 & He12 & Hg12) (Hn23 & He23 & Hg23). split_and!.
  - intros n N1 HN1. destruct (Hn12 n N1 HN1) as (N2 & HN2 & ?).
    destruct (Hn23 n N2 HN2) as (N3 & HN3 & ?).
    exists N3. split; [done|by eapply node_grows_trans].
  - intros e E1 HE1. destruct (He12 e E1 HE1) as (E2 & HE2 & ?).
    destruct (He23 e E2 HE2) as (E3 & HE3 & ?).
    exists E3. split; [done|congruence].
  - intros g G1 HG1. destruct (Hg12 g G1 HG1) as (G2 & HG2 & ?).
    destruct (Hg23 g G2 HG2) as (G3 & HG3 & ?).
    exists G3. split; [done|by eapply graph_grows_trans].
Qed.

Lemma store_grows_same_topology h h' : same_topology h h' → store_grows h h'.
Proof.
  intros Htopo. split_and!.
  - intros n N HN.
    destruct (same_topology_node_lookup _ _ _ _ Htopo HN) as (N' & HN' & HN'').
    apply node_topology_eq in HN'' as (Hid & Hin & Hout & Hall & Hhost).
    exists N'. split; [done|]. constructor; try done.
    + by rewrite Hin.
    + by rewrite Hout.
    + by rewrite Hall.
  - intros e E HE. by eapply same_topology_edge_lookup.
  - intros g G HG. exists G. destruct Htopo as (-> & _).
    split; [done|apply graph_grows_refl].
Qed.

Lemma store_grows_new_Graph directed h : store_grows h (new_Graph directed h).2.
Proof.
  split_and!; simpl.
  - intros n N HN. exists N. split; [done|apply node_grows_refl].
  - intros e E HE. by exists E.
  - intros g G HG. exists G.
    split; [by apply lookup_app_l_Some|apply graph_grows_refl].
Qed.

Lemma store_grows_addNode g id dataIndex h r h' :
  addNode g id dataIndex h = Some (r, h') → store_grows h h'.
Proof.
  intros Hadd.
  destruct (heap_graphs h !! g) as [G|] eqn:HG;
    [|unfold addNode in Hadd; by rewrite HG in Hadd].
  destruct (graph__nodesMap G !! generateNodeKey (normalize_id id dataIndex))
    as [n|] eqn:Hkey.
  { rewrite (addNode_duplicate _ _ _ _ _ _ HG Hkey) in Hadd.
    injection Hadd as _ <-. apply store_grows_refl. }
  rewrite (addNode_fresh _ _ _ _ _ HG Hkey) in Hadd.
  injection Hadd as _ <-. split_and!; simpl.
  - intros n N HN. exists N.
    split; [by apply lookup_app_l_Some|apply node_grows_refl].
  - intros e E HE. by exists E.
  - intros g2 G2 HG2. rewrite list_lookup_alter. case_decide as Hg.
    + subst g2. rewrite HG2. simpl. eexists. split; [done|].
      rewrite HG in HG2. injection HG2 as <-.
      constructor; simpl; try done.
      * by apply prefix_app_r.
      * by apply insert_subseteq.
    + exists G2. split; [done|apply graph_grows_refl].
Qed.

Lemma node_grows_linked_node directed edge n1 n2 m N :
  node_grows N (linked_node directed edge n1 n2 m N).
Proof. constructor; simpl; try done; by apply prefix_app_r. Qed.

Lemma store_grows_addEdge g a b dataIndex h r h' :
  addEdge g a b dataIndex h = Some (r, h') → store_grows h h'.
Proof.
  intros Hadd. destruct r as [e|].
  2:{ rewrite (addEdge_None_inv _ _ _ _ _ _ Hadd). apply store_grows_refl. }
  destruct (addEdge_Some_inv _ _ _ _ _ _ _ Hadd)
    as (G & n1 & n2 & N1 & N2 & HG & Hn1 & Hn2 & HN1 & HN2 & Hkey).
  destruct (addEdge_fresh g a b dataIndex h G n1 n2 N1 N2)
    as (h1 & Hadd1 & Hedges & Hgraphs & Hlists & Hlen & Hnodes); try done.
  rewrite Hadd in Hadd1. injection Hadd1 as _ ->. split_and!.
  - intros n N HN. rewrite Hnodes, HN. simpl. eexists. split; [done|].
    apply node_grows_linked_node.
  - intros e' E HE. exists E. rewrite Hedges.
    split; [by apply lookup_app_l_Some|done].
  - intros g2 G2 HG2. rewrite Hgraphs, list_lookup_alter. case_decide as Hg.
    + subst g2. rewrite HG2. simpl. eexists. split; [done|].
      rewrite HG in HG2. injection HG2 as <-.
      constructor; simpl; try done.
      * by apply prefix_app_r.
      * by apply insert_subseteq.
    + exists G2. split; [done|apply graph_grows_refl].
Qed.

Lemma store_grows_clone_nodes graph nodes : ∀ h h',
  clone_nodes graph nodes h = Some h' → store_grows h h'.
Proof.
  induction nodes as [|n nodes IH]; intros h h' Hrun; simpl in Hrun.
  - injection Hrun as <-. apply store_grows_refl.
  - destruct (heap_nodes h !! n) as [N|]; [simpl in Hrun|done].
    destruct (addNode graph _ _ h) as [[r h1]|] eqn:Hadd; [simpl in Hrun|done].
    eapply store_grows_trans; [by eapply store_grows_addNode|by apply IH].
Qed.

Lemma store_grows_clone_edges graph edges : ∀ h h',
  clone_edges graph edges h = Some h' → store_grows h h'.
Proof.
  induction edges as [|e edges IH]; intros h h' Hrun; simpl in Hrun.
  - injection Hrun as <-. apply store_grows_refl.
  - destruct (heap_edges h !! e) as [E|]; [simpl in Hrun|done].
    destruct (heap_nodes h !! edge_node1 E) as [N1|]; [simpl in Hrun|done].
    destruct (heap_nodes h !! edge_node2 E) as [N2|]; [simpl in Hrun|done].
    destruct (addEdge graph _ _ _ h) as [[r h1]|] eqn:Hadd; [simpl in Hrun|done].
    eapply store_grows_trans; [by eapply store_grows_addEdge|by apply IH].
Qed.

Lemma store_grows_clone g h graph h' :
  clone g h = Some (graph, h') → store_grows h h'.
Proof.
  unfold clone. intros Hrun.
  destruct (heap_graphs h !! g) as [G|]; [simpl in Hrun|done].
  destruct (clone_nodes _ _ _) as [h1|] eqn:Hnodes; [simpl in Hrun|done].
  destruct (clone_edges _ _ _) as [h2|] eqn:Hedges; [simpl in Hrun|done].
  injection Hrun as _ <-.
  eapply store_grows_trans;
    [apply (store_grows_new_Graph (Some (graph__directed G)))|].
  eapply store_grows_trans;
    [by eapply store_grows_clone_nodes|by eapply store_grows_clone_edges].
Qed.

(** X5.  No operation removes, moves or renames anything: whatever the
    constructor, [addNode], [addEdge], a traversal, [update] or [clone]
    does, every node of the store keeps its id and its graph, every edge
    its two ends, every graph its [directed] flag and its tables; the
    arrays [nodes], [edges] and the three edge lists of a node only get
    longer at their end, and the two indices keep every entry. *)
Theorem operations_only_grow h :
  (∀ directed, store_grows h (new_Graph directed h).2) ∧
  (∀ g id dataIndex r h',
     addNode g id dataIndex h = Some (r, h') → store_grows h h') ∧
  (∀ g a b dataIndex r h',
     addEdge g a b dataIndex h = Some (r, h') → store_grows h h') ∧
  (∀ (Ctx : Type) (cb : nref → option nref → Ctx → bool * Ctx)
     g startNode direction c vs fin h' c',
     breadthFirstTraverse cb g startNode direction h c = Some (vs, fin, h', c') →
     store_grows h h') ∧
  (∀ g h', update g h = Some h' → store_grows h h') ∧
  (∀ g graph h', clone g h = Some (graph, h') → store_grows h h').
Proof.
  split_and!.
  - intros directed. apply store_grows_new_Graph.
  - intros g id dataIndex r h'. apply store_grows_addNode.
  - intros g a b dataIndex r h'. apply store_grows_addEdge.
  - intros Ctx cb g startNode direction c vs fin h' c' Hrun.
    apply store_grows_same_topology.
    by eapply same_topology_breadthFirstTraverse.
  - intros g h' Hrun. apply store_grows_same_topology.
    by eapply same_topology_update.
  - intros g graph h'. apply store_grows_clone.
Qed.

(** ** What [clone] leaves alone *)

Lemma linked_node_other_eq directed edge n1 n2 m N :
  m ≠ n1 → m ≠ n2 → linked_node directed edge n1 n2 m N = N.
Proof.
  intros H1 H2. unfold linked_node.
  rewrite !bool_decide_eq_false_2 by tauto.
  rewrite andb_false_r, !app_nil_r. by destruct N.
Qed.

Lemma cloning_addNode h h' id dataIndex r h'' :
  cloning h h' →
  addNode (length (heap_graphs h)) id dataIndex h' = Some (r, h'') →
  cloning h h''.
Proof.
  intros (nodes & edges & Gc & Hnodes & Hedges & Hgraphs & Hlists & Hdata
          & HedgeData & Hmap) Hadd.
  assert (HGc : heap_graphs h' !! length (heap_graphs h) = Some Gc).
  { rewrite Hgraphs. by apply list_lookup_middle. }
  destruct (graph__nodesMap Gc !! generateNodeKey (normalize_id id dataIndex))
    as [n|] eqn:Hkey.
  { rewrite (addNode_duplicate _ _ _ _ _ _ HGc Hkey) in Hadd.
    injection Hadd as _ <-. by exists nodes, edges, Gc. }
  rewrite (addNode_fresh _ _ _ _ _ HGc Hkey) in Hadd.
  injection Hadd as _ <-.
  eexists (nodes ++ [_]), edges, _. simpl. split_and!.
  - by rewrite Hnodes, <- app_assoc.
  - done.
  - rewrite Hgraphs.
    rewrite <- (Nat.add_0_r (length (heap_graphs h))) at 1.
    by rewrite alter_app_r.
  - done.
  - done.
  - done.
  - simpl. intros k n Hk.
    destruct (decide (generateNodeKey (normalize_id id dataIndex) = k)) as [<-|Hne].
    + rewrite lookup_insert_eq in Hk. injection Hk as <-.
      rewrite Hnodes, length_app. lia.
    + rewrite lookup_insert_ne in Hk by done. by eapply Hmap.
Qed.

Lemma cloning_addEdge h h' id1 id2 dataIndex r h'' :
  cloning h h' →
  addEdge (length (heap_graphs h)) (ArgId id1) (ArgId id2) dataIndex h'
    = Some (r, h'') →
  cloning h h''.
Proof.
  intros Hcl Hadd. destruct r as [e|].
  2:{ by rewrite (addEdge_None_inv _ _ _ _ _ _ Hadd). }
  destruct Hcl as (nodes & edges & Gc & Hnodes & Hedges & Hgraphs & Hlists
                   & Hdata & HedgeData & Hmap).
  assert (HGc : heap_graphs h' !! length (heap_graphs h) = Some Gc).
  { rewrite Hgraphs. by apply list_lookup_middle. }
  destruct (addEdge_Some_inv _ _ _ _ _ _ _ Hadd)
    as (G & n1 & n2 & N1 & N2 & HG & Hn1 & Hn2 & HN1 & HN2 & Hkey).
  rewrite HGc in HG. injection HG as <-.
  destruct (addEdge_fresh (length (heap_graphs h)) (ArgId id1) (ArgId id2)
              dataIndex h' Gc n1 n2 N1 N2)
    as (h1 & Hadd1 & Hedges1 & Hgraphs1 & Hlists1 & Hlen1 & Hnodes1); try done.
  rewrite Hadd in Hadd1. injection Hadd1 as _ <-.
  apply Hmap in Hn1. apply Hmap in Hn2.
  eexists (drop (length (heap_nodes h)) (heap_nodes h'')), (edges ++ [_]), _.
  split_and!.
  - rewrite <- (take_drop (length (heap_nodes h)) (heap_nodes h'')) at 1.
    f_equal. apply list_eq. intros m.
    destruct (decide (m < length (heap_nodes h))%nat) as [Hlt|Hge].
    + rewrite lookup_take_lt by done. rewrite Hnodes1, Hnodes.
      rewrite lookup_app_l by done.
      destruct (heap_nodes h !! m) as [N|] eqn:HN; [|done]. simpl.
      rewrite linked_node_other_eq by lia. done.
    + rewrite lookup_take_ge by lia. symmetry. apply lookup_ge_None. lia.
  - by rewrite Hedges1, Hedges, <- app_assoc.
  - rewrite Hgraphs1, Hgraphs.
    rewrite <- (Nat.add_0_r (length (heap_graphs h))) at 1.
    by rewrite alter_app_r.
  - by rewrite Hlists1.
  - done.
  - done.
  - done.
Qed.

Lemma cloning_clone_nodes h nodes : ∀ h' h'',
  cloning h h' →
  clone_nodes (length (heap_graphs h)) nodes h' = Some h'' →
  cloning h h''.
Proof.
  induction nodes as [|n nodes IH]; intros h' h'' Hcl Hrun; simpl in Hrun.
  - by injection Hrun as <-.
  - destruct (heap_nodes h' !! n) as [N|]; [simpl in Hrun|done].
    destruct (addNode _ _ _ h') as [[r h1]|] eqn:Hadd; [simpl in Hrun|done].
    eapply IH; [|done]. by eapply cloning_addNode.
Qed.

Lemma cloning_clone_edges h edges : ∀ h' h'',
  cloning h h' →
  clone_edges (length (heap_graphs h)) edges h' = Some h'' →
  cloning h h''.
Proof.
  induction edges as [|e edges IH]; intros h' h'' Hcl Hrun; simpl in Hrun.
  - by injection Hrun as <-.
  - destruct (heap_edges h' !! e) as [E|]; [simpl in Hrun|done].
    destruct (heap_nodes h' !! edge_node1 E) as [N1|]; [simpl in Hrun|done].
    destruct (heap_nodes h' !! edge_node2 E) as [N2|]; [simpl in Hrun|done].
    destruct (addEdge _ _ _ _ h') as [[r h1]|] eqn:Hadd; [simpl in Hrun|done].
    eapply IH; [|done]. by eapply cloning_addEdge.
Qed.

(** X6.  [clone] writes no object that was there before the call: the
    nodes, edges and graphs of the store, the cloned graph among them, and
    the tables are as they were, followed by the objects of the copy.
    The copy is directed exactly when the source is, and it has no tables:
    [update] and the lookups by row raise on it until tables are bound. *)
Theorem clone_leaves_the_store g h graph h' :
  clone g h = Some (graph, h') →
  graph = length (heap_graphs h) ∧
  ∃ nodes edges G',
    heap_nodes h' = heap_nodes h ++ nodes ∧
    heap_edges h' = heap_edges h ++ edges ∧
    heap_graphs h' = heap_graphs h ++ [G'] ∧
    heap_lists h' = heap_lists h ∧
    graph_data G' = None ∧
    graph_edgeData G' = None ∧
    isDirected graph h' = isDirected g h ∧
    update graph h' = None ∧
    ∀ dataIndex,
      getNodeByIndex graph dataIndex h' = None ∧
      getEdgeByIndex graph dataIndex h' = None.
Proof.
  unfold clone. intros Hrun.
  destruct (heap_graphs h !! g) as [G|] eqn:HG; [simpl in Hrun|done].
  destruct (clone_nodes _ _ _) as [h1|] eqn:Hnodes; [simpl in Hrun|done].
  destruct (clone_edges _ _ _) as [h2|] eqn:Hedges; [simpl in Hrun|done].
  injection Hrun as <- <-. split; [done|].
  assert (Hflag : ∃ G2, heap_graphs h2 !! length (heap_graphs h) = Some G2 ∧
                        graph__directed G2 = graph__directed G).
  { destruct (store_grows_trans _ _ _ (store_grows_clone_nodes _ _ _ _ Hnodes)
                (store_grows_clone_edges _ _ _ _ Hedges)) as (_ & _ & Hgraphs).
    destruct (Hgraphs (length (heap_graphs h))
                (mkGraph [] [] None None (graph__directed G) ∅ ∅))
      as (G2 & HG2 & Hgrows); [simpl; by apply list_lookup_middle|].
    exists G2. split; [done|]. by destruct Hgrows. }
  assert (Hcl : cloning h h2).
  { eapply cloning_clone_edges; [|done].
    eapply cloning_clone_nodes; [|done].
    eexists [], [], _. simpl. rewrite !app_nil_r. by split_and!. }
  destruct Hcl as (nodes & edges & Gc & Hn & He & Hg & Hl & Hdata & HedgeData & _).
  exists nodes, edges, Gc.
  assert (HGc : heap_graphs h2 !! length (heap_graphs h) = Some Gc).
  { rewrite Hg. by apply list_lookup_middle. }
  split_and!; try done.
  - destruct Hflag as (G2 & HG2 & Hdirected).
    rewrite HGc in HG2. injection HG2 as <-.
    unfold isDirected. rewrite HGc, HG. simpl. by rewrite Hdirected.
  - unfold update. rewrite HGc. simpl. by rewrite Hdata.
  - intros dataIndex. unfold getNodeByIndex, getEdgeByIndex.
    rewrite HGc. simpl. by rewrite Hdata, HedgeData.
Qed.

(** ** Adjacency, exactly *)

Lemma filter_ext_elem_of {A} (P Q : A → Prop)
    `{!∀ x, Decision (P x)} `{!∀ x, Decision (Q x)} (l : list A) :
  (∀ x, x ∈ l → (P x ↔ Q x)) → filter P l = filter Q l.
Proof.
  induction l as [|x l IH]; intros Hext; [done|].
  assert (Hl : filter P l = filter Q l).
  { apply IH. intros y Hy. apply Hext. by right. }
  destruct (decide (P x)) as [HP|HP].
  - rewrite !filter_cons_True; [by rewrite Hl| |done].
    apply Hext; [by left|done].
  - rewrite !filter_cons_False; [done| |done].
    intros HQ. apply HP. apply Hext; [by left|done].
Qed.

Lemma filter_none {A} (P : A → Prop) `{!∀ x, Decision (P x)} (l : list A) :
  (∀ x, x ∈ l → ¬ P x) → filter P l = [].
Proof.
  induction l as [|x l IH]; intros Hnone; [done|].
  rewrite filter_cons_False by (apply Hnone; by left).
  apply IH. intros y Hy. apply Hnone. by right.
Qed.

(** The three tests read the ends of the edge only. *)
Lemma edge_tests_ends h h' e E E' :
  heap_edges h !! e = Some E → heap_edges h' !! e = Some E' →
  edge_ends E' = edge_ends E →
  ∀ n, edge_at h' n e = edge_at h n e ∧
       edge_from h' n e = edge_from h n e ∧
       edge_to h' n e = edge_to h n e.
Proof.
  intros HE HE' Hends n. apply edge_ends_eq in Hends as [H1 H2].
  unfold edge_at, edge_from, edge_to. by rewrite HE, HE', H1, H2.
Qed.

Lemma adjacency_exact_transfer h h' g G :
  graph_wf h g G →
  adjacency_exact h G →
  (∀ n N, n ∈ graph_nodes G → heap_nodes h !! n = Some N →
     ∃ N', heap_nodes h' !! n = Some N' ∧ node_topology N' = node_topology N) →
  (∀ e E, e ∈ graph_edges G → heap_edges h !! e = Some E →
     ∃ E', heap_edges h' !! e = Some E' ∧ edge_ends E' = edge_ends E) →
  adjacency_exact h' G.
Proof.
  intros Hwf Hexact Hnodes Hedges.
  assert (Hnode' : ∀ n N', n ∈ graph_nodes G → heap_nodes h' !! n = Some N' →
            ∃ N, heap_nodes h !! n = Some N ∧ node_topology N' = node_topology N).
  { intros n N' Hn HN'. destruct (wf_node _ _ _ Hwf n Hn) as (N & HN & _).
    destruct (Hnodes n N Hn HN) as (N'' & HN'' & Htopo).
    rewrite HN'' in HN'. injection HN' as <-. by exists N. }
  assert (Htests : ∀ n e, e ∈ graph_edges G →
            edge_at h' n e = edge_at h n e ∧
            edge_from h' n e = edge_from h n e ∧
            edge_to h' n e = edge_to h n e).
  { intros n e He.
    destruct (wf_edge _ _ _ Hwf e He) as (E & _ & _ & HE & _).
    destruct (Hedges e E He HE) as (E' & HE' & Hends).
    by apply (edge_tests_ends h h' e E E'). }
  constructor; intros n N' Hn HN';
    destruct (Hnode' n N' Hn HN') as (N & HN & Htopo);
    apply node_topology_eq in Htopo as (_ & Hin & Hout & Hall & _).
  - rewrite Hall, (exact_edges _ _ Hexact n N Hn HN).
    apply filter_ext_elem_of. intros e He.
    by destruct (Htests n e He) as (-> & _).
  - rewrite Hout, (exact_outEdges _ _ Hexact n N Hn HN).
    destruct (graph__directed G); [|done].
    apply filter_ext_elem_of. intros e He.
    by destruct (Htests n e He) as (_ & -> & _).
  - rewrite Hin, (exact_inEdges _ _ Hexact n N Hn HN).
    destruct (graph__directed G); [|done].
    apply filter_ext_elem_of. intros e He.
    by destruct (Htests n e He) as (_ & _ & ->).
Qed.

Lemma heap_exact_empty : heap_exact empty_heap.
Proof. intros g G HG. simpl in HG. by rewrite lookup_nil in HG. Qed.

Lemma heap_exact_same_topology h h' :
  same_topology h h' → heap_inv h → heap_exact h → heap_exact h'.
Proof.
  intros Htopo Hinv Hexact g G HG.
  pose proof Htopo as (Hgraphs & _).
  rewrite Hgraphs in HG. destruct (Hinv g G HG) as [Hwf _].
  apply (adjacency_exact_transfer h h' g); [done|exact (Hexact g G HG)| |].
  - intros n N _ HN. by apply (same_topology_node_lookup h h' n N).
  - intros e E _ HE. by apply (same_topology_edge_lookup h h' e E).
Qed.

Lemma heap_exact_new_Graph directed h :
  heap_inv h → heap_exact h → heap_exact (new_Graph directed h).2.
Proof.
  intros Hinv Hexact g G HG. simpl in HG.
  apply lookup_snoc_Some in HG as [[Hlt HG]|[-> <-]].
  - destruct (Hinv g G HG) as [Hwf _].
    apply (adjacency_exact_transfer h _ g); [done|by apply (Hexact g)| |].
    + intros n N _ HN. by exists N.
    + intros e E _ HE. by exists E.
  - constructor; simpl; intros n N Hn; by apply elem_of_nil in Hn.
Qed.

Lemma heap_exact_addNode g id dataIndex h r h' :
  heap_inv h → heap_exact h →
  addNode g id dataIndex h = Some (r, h') → heap_exact h'.
Proof.
  intros Hinv Hexact Hadd.
  destruct (heap_graphs h !! g) as [G|] eqn:HG;
    [|unfold addNode in Hadd; by rewrite HG in Hadd].
  destruct (graph__nodesMap G !! generateNodeKey (normalize_id id dataIndex))
    as [n|] eqn:Hkey.
  { rewrite (addNode_duplicate _ _ _ _ _ _ HG Hkey) in Hadd. by simplify_eq. }
  rewrite (addNode_fresh _ _ _ _ _ HG Hkey) in Hadd.
  injection Hadd as <- <-.
  set (N0 := set_node_hostGraph g _).
  set (key := generateNodeKey _) in *.
  set (h' := mkHeap _ _ _ _).
  assert (Hold : ∀ g2 G2, heap_graphs h !! g2 = Some G2 → adjacency_exact h' G2).
  { intros g2 G2 HG2. destruct (Hinv g2 G2 HG2) as [Hwf _].
    apply (adjacency_exact_transfer h h' g2); [done|by apply (Hexact g2)| |].
    - intros n N _ HN. exists N. split; [|done]. simpl.
      by apply lookup_app_l_Some.
    - intros e E _ HE. by exists E. }
  intros g2 G2' HG2'. simpl in HG2'. rewrite list_lookup_alter in HG2'.
  case_decide as Hg; [|by apply (Hold g2)].
  subst g2. rewrite HG in HG2'. simpl in HG2'. injection HG2' as <-.
  pose proof (Hold g G HG) as HexactG.
  destruct (Hinv g G HG) as [Hwf _].
  assert (Hnew : ∀ e, e ∈ graph_edges G →
            ¬ edge_at h' (length (heap_nodes h)) e ∧
            ¬ edge_from h' (length (heap_nodes h)) e ∧
            ¬ edge_to h' (length (heap_nodes h)) e).
  { intros e He.
    destruct (wf_edge _ _ _ Hwf e He) as (E & _ & _ & HE & Hn1 & Hn2 & _).
    apply (graph_wf_node_lt _ _ _ _ Hwf) in Hn1, Hn2.
    unfold edge_at, edge_from, edge_to. simpl. rewrite HE.
    rewrite !bool_decide_eq_false_2 by lia. split_and!; by intros ?. }
  constructor; simpl;
    intros n N [Hn| ->%list_elem_of_singleton]%elem_of_app HN.
  - by apply (exact_edges _ _ HexactG).
  - simpl in HN. rewrite list_lookup_middle in HN by done.
    injection HN as <-. simpl. symmetry. apply filter_none.
    intros e He. by destruct (Hnew e He) as (? & _).
  - by apply (exact_outEdges _ _ HexactG).
  - simpl in HN. rewrite list_lookup_middle in HN by done.
    injection HN as <-. simpl. destruct (graph__directed G); [|done].
    symmetry. apply filter_none.
    intros e He. by destruct (Hnew e He) as (_ & ? & _).
  - by apply (exact_inEdges _ _ HexactG).
  - simpl in HN. rewrite list_lookup_middle in HN by done.
    injection HN as <-. simpl. destruct (graph__directed G); [|done].
    symmetry. apply filter_none.
    intros e He. by destruct (Hnew e He) as (_ & _ & ?).
Qed.

Lemma filter_singleton_bool {A} (p : A → bool) (x : A) :
  filter (λ y, p y) [x] = if p x then [x] else [].
Proof.
  destruct (p x) eqn:Hp.
  - rewrite filter_cons_True by (rewrite Hp; exact I). done.
  - rewrite filter_cons_False by (rewrite Hp; exact id). done.
Qed.

Lemma heap_exact_addEdge g G a b dataIndex h r h' :
  heap_inv h → heap_exact h →
  heap_graphs h !! g = Some G →
  arg_in_graph G a →
  arg_in_graph G b →
  addEdge g a b dataIndex h = Some (r, h') →
  heap_exact h'.
Proof.
  intros Hinv Hexact HG Ha Hb Hadd.
  destruct (Hinv g G HG) as [Hwf _].
  destruct r as [e|].
  2:{ by rewrite (addEdge_None_inv _ _ _ _ _ _ Hadd). }
  destruct (addEdge_Some_inv _ _ _ _ _ _ _ Hadd)
    as (G0 & n1 & n2 & N1 & N2 & HG0 & Hn1 & Hn2 & HN1 & HN2 & Hkey).
  rewrite HG in HG0. injection HG0 as <-.
  destruct (addEdge_fresh g a b dataIndex h G n1 n2 N1 N2)
    as (h1 & Hadd1 & Hedges & Hgraphs & Hlists & Hlen & Hnodes); try done.
  rewrite Hadd in Hadd1. injection Hadd1 as -> <-.
  apply (resolve_node_in_graph _ _ _ _ _ Hwf Ha) in Hn1.
  apply (resolve_node_in_graph _ _ _ _ _ Hwf Hb) in Hn2.
  set (e := length (heap_edges h)) in *.
  assert (Hold : ∀ g2 G2 e' E, heap_graphs h !! g2 = Some G2 →
            e' ∈ graph_edges G2 → heap_edges h !! e' = Some E →
            ∃ E', heap_edges h' !! e' = Some E' ∧ edge_ends E' = edge_ends E).
  { intros g2 G2 e' E _ _ HE. exists E. split; [|done]. rewrite Hedges.
    by apply lookup_app_l_Some. }
  intros g2 G2' HG2'. rewrite Hgraphs, list_lookup_alter in HG2'.
  case_decide as Hg.
  - subst g2. rewrite HG in HG2'. simpl in HG2'. injection HG2' as <-.
    pose proof (Hexact g G HG) as HexactG.
    assert (Htests : ∀ n e', e' ∈ graph_edges G →
              edge_at h' n e' = edge_at h n e' ∧
              edge_from h' n e' = edge_from h n e' ∧
              edge_to h' n e' = edge_to h n e').
    { intros n e' He'.
      destruct (wf_edge _ _ _ Hwf e' He') as (E & _ & _ & HE & _).
      destruct (Hold g G e' E HG He' HE) as (E' & HE' & Hends).
      by apply (edge_tests_ends h h' e' E E'). }
    assert (HE : heap_edges h' !! e
                 = Some (mkGraphEdge n1 n2 (default (-1) dataIndex) (Some g))).
    { rewrite Hedges. by apply list_lookup_middle. }
    constructor; simpl; intros n N' Hn HN'; rewrite Hnodes in HN';
      (destruct (heap_nodes h !! n) as [N|] eqn:HN; [|done]);
      simpl in HN'; injection HN' as <-; simpl;
      rewrite ?filter_app, ?filter_singleton_bool.
    + rewrite (exact_edges _ _ HexactG n N Hn HN). f_equal.
      * apply filter_ext_elem_of. intros e' He'.
        by destruct (Htests n e' He') as (-> & _).
      * unfold edge_at. by rewrite HE.
    + rewrite (exact_outEdges _ _ HexactG n N Hn HN).
      destruct (graph__directed G); [|done]. simpl. f_equal.
      * apply filter_ext_elem_of. intros e' He'.
        by destruct (Htests n e' He') as (_ & -> & _).
      * unfold edge_from. by rewrite HE.
    + rewrite (exact_inEdges _ _ HexactG n N Hn HN).
      destruct (graph__directed G); [|done]. simpl. f_equal.
      * apply filter_ext_elem_of. intros e' He'.
        by destruct (Htests n e' He') as (_ & _ & ->).
      * unfold edge_to. by rewrite HE.
  - destruct (Hinv g2 G2' HG2') as [Hwf2 _].
    apply (adjacency_exact_transfer h h' g2); [done|by apply (Hexact g2)| |].
    + intros n N Hn HN.
      exists (linked_node (graph__directed G) e n1 n2 n N).
      rewrite Hnodes, HN. split; [done|].
      destruct (wf_node _ _ _ Hwf2 n Hn) as (N' & HN' & Hhost' & _).
      destruct (wf_node _ _ _ Hwf n1 Hn1) as (M1 & HM1 & Hhost1 & _).
      destruct (wf_node _ _ _ Hwf n2 Hn2) as (M2 & HM2 & Hhost2 & _).
      apply linked_node_other; intros ->; congruence.
    + intros e' E He' HE. by apply (Hold g2 G2').
Qed.

Lemma heap_exact_clone_nodes graph nodes : ∀ h h',
  heap_inv h → heap_exact h →
  clone_nodes graph nodes h = Some h' → heap_exact h'.
Proof.
  induction nodes as [|n nodes IH]; intros h h' Hinv Hexact Hrun; simpl in Hrun.
  - by injection Hrun as <-.
  - destruct (heap_nodes h !! n) as [N|]; [simpl in Hrun|done].
    destruct (addNode graph _ _ h) as [[r h1]|] eqn:Hadd; [simpl in Hrun|done].
    eapply (IH h1); [|by eapply heap_exact_addNode|done].
    by eapply heap_inv_addNode.
Qed.

Lemma heap_exact_clone_edges graph edges : ∀ h h',
  heap_inv h → heap_exact h →
  clone_edges graph edges h = Some h' → heap_exact h'.
Proof.
  induction edges as [|e edges IH]; intros h h' Hinv Hexact Hrun; simpl in Hrun.
  - by injection Hrun as <-.
  - destruct (heap_edges h !! e) as [E|]; [simpl in Hrun|done].
    destruct (heap_nodes h !! edge_node1 E) as [N1|]; [simpl in Hrun|done].
    destruct (heap_nodes h !! edge_node2 E) as [N2|]; [simpl in Hrun|done].
    destruct (addEdge graph _ _ _ h) as [[r h1]|] eqn:Hadd; [simpl in Hrun|done].
    destruct (heap_graphs h !! graph) as [G|] eqn:HG;
      [|unfold addEdge in Hadd; by rewrite HG in Hadd].
    eapply (IH h1); [| |done].
    + exact (heap_inv_addEdge graph G (ArgId (node_id N1)) (ArgId (node_id N2))
               _ h r h1 Hinv HG I I Hadd).
    + exact (heap_exact_addEdge graph G (ArgId (node_id N1)) (ArgId (node_id N2))
               _ h r h1 Hinv Hexact HG I I Hadd).
Qed.

Lemma heap_exact_clone g h graph h' :
  heap_inv h → heap_exact h → clone g h = Some (graph, h') → heap_exact h'.
Proof.
  unfold clone. intros Hinv Hexact Hrun.
  destruct (heap_graphs h !! g) as [G|]; [simpl in Hrun|done].
  destruct (clone_nodes _ _ _) as [h1|] eqn:Hnodes; [simpl in Hrun|done].
  destruct (clone_edges _ _ _) as [h2|] eqn:Hedges; [simpl in Hrun|done].
  injection Hrun as _ <-.
  pose proof (heap_inv_new_Graph (Some (graph__directed G)) h Hinv) as Hinv0.
  pose proof (heap_exact_new_Graph (Some (graph__directed G)) h Hinv Hexact)
    as Hexact0.
  eapply heap_exact_clone_edges; [|by eapply heap_exact_clone_nodes|done].
  by eapply heap_inv_clone_nodes.
Qed.

(** X7.  The edge lists of a node are the edges of its graph, filtered:
    in every store built by the operations, [n.edges] is [graph.edges]
    restricted to the edges that have [n] as an end, a self-loop once,
    and in a directed graph [n.outEdges] and [n.inEdges] are [graph.edges]
    restricted to the edges that leave and that enter [n], all in the
    order of [graph.edges]; in an undirected graph the two are empty.
    This holds in the empty store and every operation keeps it. *)
Theorem adjacency_exact_preserved h :
  heap_inv h → heap_exact h →
  (∀ directed, heap_exact (new_Graph directed h).2) ∧
  (∀ g id dataIndex r h',
     addNode g id dataIndex h = Some (r, h') → heap_exact h') ∧
  (∀ g G a b dataIndex r h',
     heap_graphs h !! g = Some G → arg_in_graph G a → arg_in_graph G b →
     addEdge g a b dataIndex h = Some (r, h') → heap_exact h') ∧
  (∀ (Ctx : Type) (cb : nref → option nref → Ctx → bool * Ctx)
     g startNode direction c vs fin h' c',
     breadthFirstTraverse cb g startNode direction h c = Some (vs, fin, h', c') →
     heap_exact h') ∧
  (∀ g h', update g h = Some h' → heap_exact h') ∧
  (∀ g graph h', clone g h = Some (graph, h') → heap_exact h').
Proof.
  intros Hinv Hexact. split_and!.
  - intros directed. by apply heap_exact_new_Graph.
  - intros g id dataIndex r h'. by apply heap_exact_addNode.
  - intros g G a b dataIndex r h'. by apply heap_exact_addEdge.
  - intros Ctx cb g startNode direction c vs fin h' c' Hrun.
    apply (heap_exact_same_topology h); [|done..].
    by eapply same_topology_breadthFirstTraverse.
  - intros g h' Hrun. apply (heap_exact_same_topology h); [|done..].
    by eapply same_topology_update.
  - intros g graph h'. by apply heap_exact_clone.
Qed.

(** ** Degrees *)

Lemma sum_filter_cons {A B} (p : A → B → bool) (x : A) (xs : list A) (ys : list B) :
  sum_list ((λ y, length (filter (λ x', p x' y) (x :: xs))) <$> ys) =
    (length (filter (λ y, p x y) ys)
     + sum_list ((λ y, length (filter (λ x', p x' y) xs)) <$> ys))%nat.
Proof.
  induction ys as [|y ys IH]; [done|].
  rewrite !fmap_cons. simpl sum_list_with. rewrite IH.
  destruct (p x y) eqn:Hp.
  - rewrite (filter_cons_True (λ x', p x' y)) by (rewrite Hp; exact I).
    rewrite (filter_cons_True (λ y', p x y')) by (rewrite Hp; exact I).
    simpl. lia.
  - rewrite (filter_cons_False (λ x', p x' y)) by (rewrite Hp; exact id).
    rewrite (filter_cons_False (λ y', p x y')) by (rewrite Hp; exact id).
    simpl. lia.
Qed.

(** Counting the pairs of a relation by rows or by columns. *)
Lemma sum_filter_swap {A B} (p : A → B → bool) (xs : list A) (ys : list B) :
  sum_list ((λ x, length (filter (λ y, p x y) ys)) <$> xs) =
  sum_list ((λ y, length (filter (λ x, p x y) xs)) <$> ys).
Proof.
  induction xs as [|x xs IH].
  - simpl. symmetry. rewrite (sum_list_fmap_same 0%nat); [lia|].
    by apply Forall_forall.
  - rewrite fmap_cons. simpl sum_list_with. rewrite IH.
    by rewrite sum_filter_cons.
Qed.

Lemma length_filter_one (a : nat) (l : list nat) :
  NoDup l → a ∈ l → length (filter (λ n, n = a) l) = 1%nat.
Proof.
  induction l as [|x l IH]; intros Hnodup Hin; [by apply elem_of_nil in Hin|].
  apply NoDup_cons in Hnodup as [Hx Hnodup].
  destruct (decide (x = a)) as [->|Hne].
  - rewrite filter_cons_True by done.
    rewrite filter_none; [done|]. intros y Hy ->. done.
  - rewrite filter_cons_False by done.
    apply elem_of_cons in Hin as [->|Hin]; [done|]. by apply IH.
Qed.

Lemma length_filter_or {A} (P Q : A → Prop)
    `{!∀ x, Decision (P x)} `{!∀ x, Decision (Q x)} (l : list A) :
  (∀ x, P x → Q x → False) →
  length (filter (λ x, P x ∨ Q x) l)
    = (length (filter P l) + length (filter Q l))%nat.
Proof.
  intros Hdisjoint. induction l as [|x l IH]; [done|].
  destruct (decide (P x)) as [HP|HP]; destruct (decide (Q x)) as [HQ|HQ].
  - by destruct (Hdisjoint x).
  - rewrite (filter_cons_True (λ x, P x ∨ Q x)) by by left.
    rewrite (filter_cons_True P), (filter_cons_False Q) by done.
    simpl. by rewrite IH.
  - rewrite (filter_cons_True (λ x, P x ∨ Q x)) by by right.
    rewrite (filter_cons_False P), (filter_cons_True Q) by done.
    simpl. rewrite IH. lia.
  - rewrite (filter_cons_False (λ x, P x ∨ Q x)) by tauto.
    rewrite (filter_cons_False P), (filter_cons_False Q) by done.
    done.
Qed.

(** An edge of a well-formed graph is counted by two nodes of the graph,
    and by one when it is a self-loop. *)
Lemma ends_of_edge h g G e :
  graph_wf h g G → e ∈ graph_edges G →
  (length (filter (λ n, edge_at h n e) (graph_nodes G))
   + (if is_loop h e then 1 else 0) = 2)%nat ∧
  length (filter (λ n, edge_from h n e) (graph_nodes G)) = 1%nat ∧
  length (filter (λ n, edge_to h n e) (graph_nodes G)) = 1%nat.
Proof.
  intros Hwf He.
  destruct (wf_edge _ _ _ Hwf e He) as (E & _ & _ & HE & Hn1 & Hn2 & _).
  pose proof (wf_nodes_NoDup _ _ _ Hwf) as Hnodup.
  unfold is_loop. rewrite HE. split_and!.
  - rewrite (filter_ext_elem_of _ (λ n, n = edge_node1 E ∨ n = edge_node2 E)).
    2:{ intros n _. unfold edge_at. rewrite HE. apply bool_decide_spec. }
    case_bool_decide as Hloop.
    + rewrite (filter_ext_elem_of _ (λ n, n = edge_node1 E)).
      2:{ intros n _. rewrite Hloop. tauto. }
      by rewrite length_filter_one.
    + rewrite length_filter_or by congruence.
      by rewrite !length_filter_one.
  - rewrite (filter_ext_elem_of _ (λ n, n = edge_node1 E)).
    2:{ intros n _. unfold edge_from. rewrite HE. apply bool_decide_spec. }
    by apply length_filter_one.
  - rewrite (filter_ext_elem_of _ (λ n, n = edge_node2 E)).
    2:{ intros n _. unfold edge_to. rewrite HE. apply bool_decide_spec. }
    by apply length_filter_one.
Qed.

Lemma sum_two_less_loops {A} (c : A → nat) (p : A → bool) (l : list A) :
  Forall (λ x, (c x + (if p x then 1 else 0) = 2)%nat) l →
  (sum_list (c <$> l) + length (filter (λ x, p x) l) = 2 * length l)%nat.
Proof.
  induction 1 as [|x l Hx _ IH]; [done|].
  rewrite fmap_cons. simpl sum_list_with. simpl length.
  destruct (p x) eqn:Hp.
  - rewrite filter_cons_True by (rewrite Hp; exact I). simpl. lia.
  - rewrite filter_cons_False by (rewrite Hp; exact id). lia.
Qed.

(** X8.  The degrees of a graph add up: over the nodes of a well-formed
    graph with exact adjacency, [degree()] sums to twice the number of
    edges less the number of self-loops (a self-loop is once in the
    [edges] of its node); in a directed graph [inDegree()] and
    [outDegree()] each sum to the number of edges, in an undirected graph
    to zero. *)
Theorem degree_sum h g G :
  graph_wf h g G →
  adjacency_exact h G →
  ∃ degrees inDegrees outDegrees,
    mapM (λ n, degree n h) (graph_nodes G) = Some degrees ∧
    mapM (λ n, inDegree n h) (graph_nodes G) = Some inDegrees ∧
    mapM (λ n, outDegree n h) (graph_nodes G) = Some outDegrees ∧
    (sum_list degrees + length (filter (λ e, is_loop h e) (graph_edges G))
     = 2 * length (graph_edges G))%nat ∧
    sum_list inDegrees
      = (if graph__directed G then length (graph_edges G) else 0%nat) ∧
    sum_list outDegrees
      = (if graph__directed G then length (graph_edges G) else 0%nat).
Proof.
  intros Hwf Hexact.
  exists ((λ n, length (filter (λ e, edge_at h n e) (graph_edges G)))
            <$> graph_nodes G),
    ((λ n, if graph__directed G
           then length (filter (λ e, edge_to h n e) (graph_edges G))
           else 0%nat) <$> graph_nodes G),
    ((λ n, if graph__directed G
           then length (filter (λ e, edge_from h n e) (graph_edges G))
           else 0%nat) <$> graph_nodes G).
  split_and!.
  - apply mapM_Some_2, Forall2_fmap_r, Forall_Forall2_diag, Forall_forall.
    intros n Hn. destruct (wf_node _ _ _ Hwf n Hn) as (N & HN & _).
    unfold degree. simpl. rewrite HN. simpl.
    by rewrite (exact_edges _ _ Hexact n N Hn HN).
  - apply mapM_Some_2, Forall2_fmap_r, Forall_Forall2_diag, Forall_forall.
    intros n Hn. destruct (wf_node _ _ _ Hwf n Hn) as (N & HN & _).
    unfold inDegree. simpl. rewrite HN. simpl.
    rewrite (exact_inEdges _ _ Hexact n N Hn HN).
    by destruct (graph__directed G).
  - apply mapM_Some_2, Forall2_fmap_r, Forall_Forall2_diag, Forall_forall.
    intros n Hn. destruct (wf_node _ _ _ Hwf n Hn) as (N & HN & _).
    unfold outDegree. simpl. rewrite HN. simpl.
    rewrite (exact_outEdges _ _ Hexact n N Hn HN).
    by destruct (graph__directed G).
  - rewrite (sum_filter_swap (edge_at h)).
    apply (sum_two_less_loops _ (is_loop h)), Forall_forall. intros e He.
    by destruct (ends_of_edge h g G e Hwf He) as (? & _).
  - destruct (graph__directed G).
    + rewrite (sum_filter_swap (edge_to h)).
      rewrite (sum_list_fmap_same 1%nat); [lia|].
      apply Forall_forall. intros e He.
      by destruct (ends_of_edge h g G e Hwf He) as (_ & _ & ?).
    + rewrite (sum_list_fmap_same 0%nat); [lia|]. by apply Forall_forall.
  - destruct (graph__directed G).
    + rewrite (sum_filter_swap (edge_from h)).
      rewrite (sum_list_fmap_same 1%nat); [lia|].
      apply Forall_forall. intros e He.
      by destruct (ends_of_edge h g G e Hwf He) as (_ & ? & _).
    + rewrite (sum_list_fmap_same 0%nat); [lia|]. by apply Forall_forall.
Qed.

(** ** What a traversal reaches *)

Lemma same_topology_sym h h' : same_topology h h' → same_topology h' h.
Proof. intros (? & ? & ?). by split_and!. Qed.

Lemma step_same_topology h h' direction n m :
  same_topology h h' → step h direction n m → step h' direction n m.
Proof.
  intros Htopo (N & e & E & HN & He & HE & ->).
  destruct (same_topology_node_lookup _ _ _ _ Htopo HN) as (N' & HN' & HtopoN).
  destruct (same_topology_edge_lookup _ _ _ _ Htopo HE) as (E' & HE' & HendsE).
  apply node_topology_eq in HtopoN as (_ & Hin & Hout & Hall & _).
  apply edge_ends_eq in HendsE as [H1 H2].
  exists N', e, E'. split_and!; [done| |done|by rewrite H1, H2].
  destruct direction; simpl in *; congruence.
Qed.

(** In a graph with exact adjacency a step from a node of the graph goes
    along an edge of the graph. *)
Lemma step_linked h g G direction n m :
  graph_wf h g G → adjacency_exact h G → n ∈ graph_nodes G →
  step h direction n m ↔ linked h G direction n m.
Proof.
  intros Hwf Hexact Hn. destruct (wf_node _ _ _ Hwf n Hn) as (N & HN & _).
  pose proof (exact_edges _ _ Hexact n N Hn HN) as Hall.
  pose proof (exact_outEdges _ _ Hexact n N Hn HN) as Hout.
  pose proof (exact_inEdges _ _ Hexact n N Hn HN) as Hin.
  split.
  - intros (N' & e & E & HN' & He & HE & ->).
    rewrite HN in HN'. injection HN' as <-.
    exists e, E. destruct direction; simpl in He.
    + rewrite Hall in He. apply list_elem_of_filter in He as [Hat He].
      unfold edge_at in Hat. rewrite HE in Hat.
      apply bool_decide_unpack in Hat. split_and!; [done..|].
      case_decide; [by left|right]. destruct Hat; [congruence|done].
    + rewrite Hin in He. destruct (graph__directed G); [|by apply elem_of_nil in He].
      apply list_elem_of_filter in He as [Hto He].
      unfold edge_to in Hto. rewrite HE in Hto.
      apply bool_decide_unpack in Hto. split_and!; [done..|].
      case_decide; congruence.
    + rewrite Hout in He. destruct (graph__directed G); [|by apply elem_of_nil in He].
      apply list_elem_of_filter in He as [Hfrom He].
      unfold edge_from in Hfrom. rewrite HE in Hfrom.
      apply bool_decide_unpack in Hfrom. split_and!; [done..|].
      by rewrite decide_True.
  - intros (e & E & He & HE & Hends).
    exists N, e, E. split_and!; [done| |done|].
    + destruct direction; simpl.
      * rewrite Hall. apply list_elem_of_filter. split; [|done].
        unfold edge_at. rewrite HE. apply bool_decide_pack.
        destruct Hends as [[? _]|[? _]]; auto.
      * destruct Hends as (Hd & ? & _). rewrite Hin, Hd.
        apply list_elem_of_filter. split; [|done].
        unfold edge_to. rewrite HE. by apply bool_decide_pack.
      * destruct Hends as (Hd & ? & _). rewrite Hout, Hd.
        apply list_elem_of_filter. split; [|done].
        unfold edge_from. rewrite HE. by apply bool_decide_pack.
    + destruct direction.
      * destruct Hends as [[? ?]|[? ?]]; case_decide; congruence.
      * destruct Hends as (_ & ? & ?). case_decide; congruence.
      * destruct Hends as (_ & ? & ?). case_decide; congruence.
Qed.

Lemma reset___visited_lookup nodes : ∀ h n,
  heap_nodes (reset___visited nodes h) !! n =
    (λ N, if bool_decide (n ∈ nodes) then set_node___visited false N else N)
      <$> heap_nodes h !! n.
Proof.
  induction nodes as [|a nodes IH]; intros h n; simpl.
  - by destruct (heap_nodes h !! n).
  - rewrite IH. simpl. rewrite list_lookup_alter. case_decide as Hna.
    + subst a. destruct (heap_nodes h !! n) as [N|]; simpl; [|done].
      rewrite (bool_decide_eq_true_2 (n ∈ n :: nodes)) by left.
      by case_bool_decide.
    + destruct (heap_nodes h !! n) as [N|]; simpl; [|done].
      f_equal. apply (f_equal (λ b : bool, if b then _ else _)).
      apply bool_decide_ext. split; [by right|].
      by intros [?|?]%elem_of_cons.
Qed.

Lemma reset___visited_unflagged nodes h n :
  n ∈ nodes → ¬ flagged (reset___visited nodes h) n.
Proof.
  intros Hn (N & HN & Hflag). rewrite reset___visited_lookup in HN.
  rewrite bool_decide_eq_true_2 in HN by done.
  destruct (heap_nodes h !! n) as [N0|]; [|done].
  simpl in HN. injection HN as <-. done.
Qed.

Lemma flagged_mark_inv h n m :
  flagged (alter_node (set_node___visited true) m h) n → n = m ∨ flagged h n.
Proof.
  intros (N & HN & Hflag). destruct (decide (n = m)) as [?|Hne]; [by left|right].
  simpl in HN. rewrite list_lookup_alter_ne in HN by done. by exists N.
Qed.

Lemma stopped_by_last_not_all_continue vs :
  stopped_by_last vs → ¬ all_continue vs.
Proof.
  intros (front & v & -> & _ & Hstop) Hall.
  unfold all_continue in Hall. rewrite Forall_app, Forall_singleton in Hall.
  destruct Hall as [_ Hv]. congruence.
Qed.

Section TraverseReach.
Context {Ctx : Type}.
Variable cb : nref → option nref → Ctx → bool * Ctx.

(** The loop over the edges of [currentNode], run to its end: the nodes
    it visits are other ends of these edges and go to the end of the
    queue; afterwards the other end of every edge is flagged, and a flag
    that is new is the flag of a visit. *)
Lemma traverse_edges_reach currentNode edges :
  ∀ queue h c vs queue' h' c',
    traverse_edges cb currentNode edges queue h c
      = Some (vs, Continue queue', h', c') →
    queue' = queue ++ (visit_node <$> vs) ∧
    heap_edges h' = heap_edges h ∧
    (∀ v, v ∈ vs →
       ∃ e E, e ∈ edges ∧ heap_edges h !! e = Some E ∧
              visit_node v = if decide (edge_node1 E = currentNode)
                             then edge_node2 E else edge_node1 E) ∧
    (∀ e E, e ∈ edges → heap_edges h !! e = Some E →
       flagged h' (if decide (edge_node1 E = currentNode)
                   then edge_node2 E else edge_node1 E)) ∧
    (∀ m, flagged h' m → flagged h m ∨ m ∈ visit_node <$> vs).
Proof.
  induction edges as [|e edges IH]; intros queue h c vs queue' h' c' Hrun.
  - simpl in Hrun. simplify_eq. rewrite app_nil_r. split_and!; try done.
    + intros v Hv. by apply elem_of_nil in Hv.
    + intros e E He. by apply elem_of_nil in He.
    + intros m Hm. by left.
  - pose proof (traverse_edges_once cb _ _ _ _ _ _ _ _ _ Hrun)
      as (_ & _ & Hmono & _).
    simpl in Hrun.
    destruct (heap_edges h !! e) as [E|] eqn:HE; [simpl in Hrun|done].
    set (otherNode := if decide (edge_node1 E = currentNode)
                      then edge_node2 E else edge_node1 E) in *.
    destruct (heap_nodes h !! otherNode) as [O|] eqn:HO; [simpl in Hrun|done].
    destruct (node___visited O) eqn:Hflag.
    { destruct (IH _ _ _ _ _ _ _ Hrun) as (Hq & Hedges & Hvs & Hflags & Hframe).
      split_and!; try done.
      - intros v Hv. destruct (Hvs v Hv) as (e' & E' & ? & ? & ?).
        exists e', E'. split_and!; [by right|done..].
      - intros e' E' [->|He']%elem_of_cons HE'; [|by apply (Hflags e' E')].
        rewrite HE in HE'. injection HE' as <-. apply Hmono. by exists O. }
    destruct (cb otherNode (Some currentNode) c) as [stop c1].
    destruct stop; [done|].
    destruct (traverse_edges _ _ _ _ _ _) as [[[[vs1 exit1] h1] c2]|] eqn:Hrest;
      [simpl in Hrun|done].
    injection Hrun as <- -> <- <-.
    pose proof (traverse_edges_once cb _ _ _ _ _ _ _ _ _ Hrest)
      as (_ & _ & Hmono1 & _).
    destruct (IH _ _ _ _ _ _ _ Hrest) as (Hq & Hedges & Hvs & Hflags & Hframe).
    split_and!.
    + rewrite Hq, fmap_cons, <- app_assoc. done.
    + by rewrite Hedges.
    + intros v [->|Hv]%elem_of_cons.
      * exists e, E. split_and!; [by left|done..].
      * destruct (Hvs v Hv) as (e' & E' & ? & ? & ?).
        exists e', E'. split_and!; [by right|done..].
    + intros e' E' [->|He']%elem_of_cons HE'; [|by apply (Hflags e' E')].
      rewrite HE in HE'. injection HE' as <-.
      apply Hmono1. by apply (flagged_marked h otherNode O).
    + intros m Hm. rewrite fmap_cons.
      destruct (Hframe m Hm) as [Hm1|Hm1].
      * apply flagged_mark_inv in Hm1 as [->|?]; [right; by left|by left].
      * right. by right.
Qed.

(** The queue loop, run to its end without a stop: every step from a
    node of the queue or from a visited node leads to a flagged node; a
    new flag is the flag of a visit; and what holds of the queue and is
    kept by steps holds of every visit. *)
Lemma traverse_queue_reach (P : nref → Prop) fuel direction :
  ∀ queue h c vs h' c',
    traverse_queue cb fuel direction queue h c = Some (vs, true, h', c') →
    all_continue vs →
    (∀ n, n ∈ queue ∨ n ∈ visit_node <$> vs →
       ∀ m, step h direction n m → flagged h' m) ∧
    (∀ m, flagged h' m → flagged h m ∨ m ∈ visit_node <$> vs) ∧
    ((∀ n, n ∈ queue → P n) →
     (∀ n m, P n → step h direction n m → P m) →
     ∀ v, v ∈ vs → P (visit_node v)).
Proof.
  induction fuel as [|fuel IH]; intros queue h c vs h' c' Hrun Hall;
    destruct queue as [|currentNode queue]; simpl in Hrun;
    try discriminate Hrun;
    try (simplify_eq; split_and!;
         [intros n [Hn|Hn]; by apply elem_of_nil in Hn
         |intros m Hm; by left
         |intros _ _ v Hv; by apply elem_of_nil in Hv]).
  destruct (heap_nodes h !! currentNode) as [C|] eqn:HC; [simpl in Hrun|done].
  destruct (traverse_edges _ _ _ _ _ _) as [[[[vs1 exit1] h1] c1]|] eqn:Hedges;
    [simpl in Hrun|done].
  pose proof (traverse_edges_visits cb _ _ _ _ _ _ _ _ _ Hedges) as (_ & Hexit).
  pose proof (same_topology_traverse_edges cb _ _ _ _ _ _ _ _ _ Hedges) as Htopo.
  destruct exit1 as [queue1|].
  2:{ injection Hrun as <- <- <-.
      by destruct (stopped_by_last_not_all_continue _ Hexit). }
  destruct (traverse_queue _ _ _ _ _ _) as [[[[vs2 fin2] h2] c2]|] eqn:Hrest;
    [simpl in Hrun|done].
  injection Hrun as <- -> <- <-.
  unfold all_continue in Hall. apply Forall_app in Hall as [Hall1 Hall2].
  destruct (traverse_edges_reach _ _ _ _ _ _ _ _ _ Hedges)
    as (-> & Hedges1 & Hvs1 & Hflags1 & Hframe1).
  destruct (IH _ _ _ _ _ _ Hrest Hall2) as (Hdone2 & Hframe2 & Hsound2).
  pose proof (traverse_queue_once cb _ _ _ _ _ _ _ _ _ Hrest)
    as (_ & _ & Hmono2).
  assert (Hstep1 : ∀ v, v ∈ vs1 → step h direction currentNode (visit_node v)).
  { intros v Hv. destruct (Hvs1 v Hv) as (e & E & He & HE & Hother).
    by exists C, e, E. }
  split_and!.
  - intros n Hn m Hstep.
    assert (Hcases : n = currentNode ∨ n ∈ queue ++ (visit_node <$> vs1)
                     ∨ n ∈ visit_node <$> vs2).
    { rewrite fmap_app in Hn. rewrite !elem_of_app in Hn. rewrite elem_of_app.
      rewrite elem_of_cons in Hn. tauto. }
    destruct Hcases as [->|Hn'].
    + destruct Hstep as (C' & e & E & HC' & He & HE & ->).
      rewrite HC in HC'. injection HC' as <-.
      apply Hmono2. by apply (Hflags1 e E).
    + apply (Hdone2 n Hn'). by apply (step_same_topology h).
  - intros m Hm. rewrite fmap_app, elem_of_app.
    destruct (Hframe2 m Hm) as [Hm1|?]; [|tauto].
    destruct (Hframe1 m Hm1); tauto.
  - intros Hqueue Hclosed v [Hv|Hv]%elem_of_app.
    + apply (Hclosed currentNode); [apply Hqueue; by left|by apply Hstep1].
    + apply Hsound2; [| |done].
      * intros n [Hn|(w & -> & Hw)%list_elem_of_fmap]%elem_of_app.
        -- apply Hqueue. by right.
        -- apply (Hclosed currentNode); [apply Hqueue; by left|by apply Hstep1].
      * intros n m HPn Hstep. apply (Hclosed n m HPn).
        apply (step_same_topology h1 h); [by apply same_topology_sym|done].
Qed.

End TraverseReach.

(** ** Stores built by the operations *)

Lemma store_ok_empty : store_ok empty_heap.
Proof. split; [apply heap_inv_empty|apply heap_exact_empty]. Qed.

Lemma store_ok_new_Graph directed h :
  store_ok h → store_ok (new_Graph directed h).2.
Proof.
  intros [Hinv Hexact].
  split; [by apply heap_inv_new_Graph|by apply heap_exact_new_Graph].
Qed.

Lemma store_ok_after_addNode g id dataIndex h :
  store_ok h → store_ok (after (addNode g id dataIndex h)).
Proof.
  intros [Hinv Hexact].
  destruct (addNode g id dataIndex h) as [[r h']|] eqn:Hadd;
    [|apply store_ok_empty].
  split; [by eapply heap_inv_addNode|by eapply heap_exact_addNode].
Qed.

(** Endpoints given by id or by index. *)
Lemma store_ok_after_addEdge g a b dataIndex h :
  (∀ G, arg_in_graph G a) → (∀ G, arg_in_graph G b) →
  store_ok h → store_ok (after (addEdge g a b dataIndex h)).
Proof.
  intros Ha Hb [Hinv Hexact].
  destruct (addEdge g a b dataIndex h) as [[r h']|] eqn:Hadd;
    [|apply store_ok_empty].
  destruct (heap_graphs h !! g) as [G|] eqn:HG;
    [|unfold addEdge in Hadd; by rewrite HG in Hadd].
  split.
  - exact (heap_inv_addEdge g G a b dataIndex h r h' Hinv HG (Ha G) (Hb G) Hadd).
  - exact (heap_exact_addEdge g G a b dataIndex h r h' Hinv Hexact HG (Ha G)
             (Hb G) Hadd).
Qed.

Lemma store_ok_same_topology h h' : same_topology h h' → store_ok h → store_ok h'.
Proof.
  intros Htopo [Hinv Hexact].
  split; [by eapply heap_inv_same_topology|by eapply heap_exact_same_topology].
Qed.

(** A new table. *)
Lemma store_ok_alloc_list L h : store_ok h → store_ok (alloc_list L h).2.
Proof. by apply store_ok_same_topology. Qed.

(** [graph.data = ...] and [graph.edgeData = ...] *)
Lemma store_ok_bind_tables f g h :
  (∀ G, graph_nodes (f G) = graph_nodes G ∧
        graph_edges (f G) = graph_edges G ∧
        graph__directed (f G) = graph__directed G ∧
        graph__nodesMap (f G) = graph__nodesMap G ∧
        graph__edgesMap (f G) = graph__edgesMap G) →
  store_ok h → store_ok (alter_graph f g h).
Proof.
  intros Hf [Hinv Hexact].
  assert (Hsame : ∀ g2 G2', heap_graphs (alter_graph f g h) !! g2 = Some G2' →
            ∃ G2, heap_graphs h !! g2 = Some G2 ∧
                  graph_nodes G2' = graph_nodes G2 ∧
                  graph_edges G2' = graph_edges G2 ∧
                  graph__directed G2' = graph__directed G2 ∧
                  graph__nodesMap G2' = graph__nodesMap G2 ∧
                  graph__edgesMap G2' = graph__edgesMap G2).
  { intros g2 G2' HG2'. simpl in HG2'. rewrite list_lookup_alter in HG2'.
    case_decide as Hg; [subst g2|by exists G2'].
    destruct (heap_graphs h !! g) as [G2|]; [|done].
    simpl in HG2'. injection HG2' as <-. exists G2. split; [done|apply Hf]. }
  split; intros g2 G2' HG2';
    destruct (Hsame g2 G2' HG2') as (G2 & HG2 & Hn & He & Hd & Hnm & Hem).
  - destruct (Hinv g2 G2 HG2) as [Hwf Hadj]. split; constructor; simpl.
    + rewrite Hn. exact (wf_nodes_NoDup _ _ _ Hwf).
    + rewrite He. exact (wf_edges_NoDup _ _ _ Hwf).
    + rewrite Hn, Hnm. exact (wf_node _ _ _ Hwf).
    + rewrite Hn, Hnm. exact (wf_nodesMap _ _ _ Hwf).
    + rewrite Hn, He, Hem. exact (wf_edge _ _ _ Hwf).
    + rewrite He, Hd. exact (adj_edge _ _ Hadj).
    + rewrite Hn, He. exact (adj_node _ _ Hadj).
    + rewrite Hn, Hd. exact (adj_undirected _ _ Hadj).
  - pose proof (Hexact g2 G2 HG2) as HexactG. constructor; simpl.
    + rewrite Hn, He. exact (exact_edges _ _ HexactG).
    + rewrite Hn, He, Hd. exact (exact_outEdges _ _ HexactG).
    + rewrite Hn, He, Hd. exact (exact_inEdges _ _ HexactG).
Qed.

Lemma store_ok_set_graph_data l g h :
  store_ok h → store_ok (alter_graph (set_graph_data l) g h).
Proof. by apply store_ok_bind_tables. Qed.

Lemma store_ok_set_graph_edgeData l g h :
  store_ok h → store_ok (alter_graph (set_graph_edgeData l) g h).
Proof. by apply store_ok_bind_tables. Qed.

Lemma store_ok_graph h g G :
  store_ok h → heap_graphs h !! g = Some G →
  graph_wf h g G ∧ adjacency_consistent h G ∧ adjacency_exact h G.
Proof.
  intros [Hinv Hexact] HG. destruct (Hinv g G HG).
  split_and!; [done..|by apply (Hexact g)].
Qed.

Lemma heap_A_B_C_bound_ok : store_ok heap_A_B_C_bound.
Proof.
  pose (h0 := (new_Graph (Some true) empty_heap).2).
  pose (h1 := after (addNode 0%nat (Some "A") (Some 0) h0)).
  pose (h2 := after (addNode 0%nat (Some "B") (Some 1) h1)).
  pose (h3 := after (addNode 0%nat (Some "C") (Some 2) h2)).
  pose (h4 := after (addEdge 0%nat (ArgId "A") (ArgId "B") (Some 0) h3)).
  pose (h5 := after (addEdge 0%nat (ArgId "B") (ArgId "C") (Some 1) h4)).
  pose (h6 := after (addEdge 0%nat (ArgId "C") (ArgId "A") (Some 2) h5)).
  pose (h7 := (alloc_list (mkList [2%nat; 0%nat]) h6).2).
  pose (h8 := (alloc_list (mkList [0%nat; 2%nat; 1%nat]) h7).2).
  assert (heap_A_B_C_bound =
            alter_graph (set_graph_edgeData 1%nat) 0%nat
              (alter_graph (set_graph_data 0%nat) 0%nat h8)) as ->
    by (vm_compute; reflexivity).
  apply store_ok_set_graph_edgeData, store_ok_set_graph_data,
    store_ok_alloc_list, store_ok_alloc_list.
  do 3 (apply store_ok_after_addEdge; [by intros ?..|]).
  do 3 apply store_ok_after_addNode.
  apply store_ok_new_Graph, store_ok_empty.
Qed.

Lemma heap_A_A_linked_ok : store_ok heap_A_A_linked.
Proof.
  apply store_ok_after_addEdge; [by intros ?..|].
  do 2 apply store_ok_after_addNode.
  apply store_ok_new_Graph, store_ok_empty.
Qed.

Lemma heap_path_A_B_C_ok : store_ok heap_path_A_B_C.
Proof.
  pose (h0 := (new_Graph (Some true) empty_heap).2).
  pose (h1 := after (addNode 0%nat (Some "A") (Some 0) h0)).
  pose (h2 := after (addNode 0%nat (Some "B") (Some 1) h1)).
  pose (h3 := after (addNode 0%nat (Some "C") (Some 2) h2)).
  pose (h4 := after (addEdge 0%nat (ArgId "A") (ArgId "B") None h3)).
  assert (heap_path_A_B_C
          = after (addEdge 0%nat (ArgId "B") (ArgId "C") None h4)) as ->
    by (vm_compute; reflexivity).
  do 2 (apply store_ok_after_addEdge; [by intros ?..|]).
  do 3 apply store_ok_after_addNode.
  apply store_ok_new_Graph, store_ok_empty.
Qed.

(** ** [update] twice *)

Lemma same_topology_node_None h h' n :
  same_topology h h' → heap_nodes h !! n = None → heap_nodes h' !! n = None.
Proof.
  intros (_ & Hnodes & _) HN.
  apply (f_equal (λ l, l !! n)) in Hnodes.
  rewrite !list_lookup_fmap, HN in Hnodes.
  by destruct (heap_nodes h' !! n).
Qed.

Lemma same_topology_edge_None h h' e :
  same_topology h h' → heap_edges h !! e = None → heap_edges h' !! e = None.
Proof.
  intros (_ & _ & Hedges) HE.
  apply (f_equal (λ l, l !! e)) in Hedges.
  rewrite !list_lookup_fmap, HE in Hedges.
  by destruct (heap_edges h' !! e).
Qed.

(** Resetting and assigning writes the [dataIndex] of the listed nodes
    and nothing else. *)
Lemma assign_reset_node_dataIndex data nodes idxs h h1 :
  assign_node_dataIndex data nodes idxs (reset_node_dataIndex nodes h) = Some h1 →
  ∀ n, heap_nodes h1 !! n =
         (λ N, if bool_decide (n ∈ nodes)
               then set_node_dataIndex
                      (default (-1) (node_dataIndex <$> heap_nodes h1 !! n)) N
               else N) <$> heap_nodes h !! n.
Proof.
  intros Hrun n.
  pose proof (same_topology_trans _ _ _
                (same_topology_reset_node_dataIndex nodes h)
                (same_topology_assign_node_dataIndex _ _ _ _ _ Hrun)) as Htopo.
  destruct (heap_nodes h !! n) as [N|] eqn:HN.
  2:{ by rewrite (same_topology_node_None _ _ _ Htopo HN). }
  destruct (same_topology_node_lookup _ _ _ _ Htopo HN) as (N1 & HN1 & _).
  rewrite HN1. simpl. f_equal.
  destruct (assign_node_dataIndex_lookup _ _ _ _ _ Hrun n N1 HN1)
    as (N0 & HN0 & HeqN & Hidx).
  rewrite reset_node_dataIndex_lookup, HN in HN0. simpl in HN0.
  injection HN0 as <-. case_bool_decide as Hin.
  - rewrite HeqN at 1. by destruct N.
  - destruct Hidx as [Hsame|(i & rawIdx & _ & _ & Hn & _)].
    + rewrite HeqN, Hsame. by destruct N.
    + destruct Hin. exact (list_elem_of_lookup_2 _ _ _ Hn).
Qed.

Lemma reset_node_dataIndex_again nodes h h1 :
  (∀ n, ∃ i, heap_nodes h1 !! n =
               (λ N, if bool_decide (n ∈ nodes) then set_node_dataIndex i N else N)
                 <$> heap_nodes h !! n) →
  heap_nodes (reset_node_dataIndex nodes h1)
    = heap_nodes (reset_node_dataIndex nodes h).
Proof.
  intros Hagree. apply list_eq. intros n.
  rewrite !reset_node_dataIndex_lookup. destruct (Hagree n) as (i & ->).
  destruct (heap_nodes h !! n) as [N|]; [simpl|done].
  by case_bool_decide.
Qed.

(** Assigning reads and writes the nodes of the store only. *)
Lemma assign_node_dataIndex_nodes_only data nodes idxs : ∀ ha hb ha',
  heap_nodes hb = heap_nodes ha →
  assign_node_dataIndex data nodes idxs ha = Some ha' →
  ∃ hb', assign_node_dataIndex data nodes idxs hb = Some hb' ∧
         heap_nodes hb' = heap_nodes ha' ∧
         heap_edges hb' = heap_edges hb ∧
         heap_graphs hb' = heap_graphs hb ∧
         heap_lists hb' = heap_lists hb.
Proof.
  induction idxs as [|i idxs IH]; intros ha hb ha' Hnodes Hrun; simpl in *.
  - injection Hrun as <-. by exists hb.
  - destruct (List_getRawIndex data i) as [rawIdx|]; [simpl in *|done].
    destruct (nodes !! rawIdx) as [n|]; [simpl in *|done].
    destruct (IH (alter_node (set_node_dataIndex (Z.of_nat i)) n ha)
                (alter_node (set_node_dataIndex (Z.of_nat i)) n hb) ha')
      as (hb' & Hrun' & ? & ? & ? & ?); [simpl; by rewrite Hnodes|done|].
    by exists hb'.
Qed.
(** Resetting and assigning writes the [dataIndex] of the listed edges
    and nothing else. *)
Lemma assign_reset_edge_dataIndex edgeData edges idxs h h1 :
  assign_edge_dataIndex edgeData edges idxs (reset_edge_dataIndex edges h) = Some h1 →
  ∀ e, heap_edges h1 !! e =
         (λ E, if bool_decide (e ∈ edges)
               then set_edge_dataIndex
                      (default (-1) (edge_dataIndex <$> heap_edges h1 !! e)) E
               else E) <$> heap_edges h !! e.
Proof.
  intros Hrun e.
  pose proof (same_topology_trans _ _ _
                (same_topology_reset_edge_dataIndex edges h)
                (same_topology_assign_edge_dataIndex _ _ _ _ _ Hrun)) as Htopo.
  destruct (heap_edges h !! e) as [E|] eqn:HE.
  2:{ by rewrite (same_topology_edge_None _ _ _ Htopo HE). }
  destruct (same_topology_edge_lookup _ _ _ _ Htopo HE) as (E1 & HE1 & _).
  rewrite HE1. simpl. f_equal.
  destruct (assign_edge_dataIndex_lookup _ _ _ _ _ Hrun e E1 HE1)
    as (E0 & HE0 & HeqE & Hidx).
  rewrite reset_edge_dataIndex_lookup, HE in HE0. simpl in HE0.
  injection HE0 as <-. case_bool_decide as Hin.
  - rewrite HeqE at 1. by destruct E.
  - destruct Hidx as [Hsame|(i & rawIdx & _ & _ & He & _)].
    + rewrite HeqE, Hsame. by destruct E.
    + destruct Hin. exact (list_elem_of_lookup_2 _ _ _ He).
Qed.

Lemma reset_edge_dataIndex_again edges h h1 :
  (∀ e, ∃ i, heap_edges h1 !! e =
               (λ E, if bool_decide (e ∈ edges) then set_edge_dataIndex i E else E)
                 <$> heap_edges h !! e) →
  heap_edges (reset_edge_dataIndex edges h1)
    = heap_edges (reset_edge_dataIndex edges h).
Proof.
  intros Hagree. apply list_eq. intros e.
  rewrite !reset_edge_dataIndex_lookup. destruct (Hagree e) as (i & ->).
  destruct (heap_edges h !! e) as [E|]; [simpl|done].
  by case_bool_decide.
Qed.

(** Assigning reads and writes the edges of the store only. *)
Lemma assign_edge_dataIndex_edges_only edgeData edges idxs : ∀ ha hb ha',
  heap_edges hb = heap_edges ha →
  assign_edge_dataIndex edgeData edges idxs ha = Some ha' →
  ∃ hb', assign_edge_dataIndex edgeData edges idxs hb = Some hb' ∧
         heap_edges hb' = heap_edges ha' ∧
         heap_nodes hb' = heap_nodes hb ∧
         heap_graphs hb' = heap_graphs hb ∧
         heap_lists hb' = heap_lists hb.
Proof.
  induction idxs as [|i idxs IH]; intros ha hb ha' Hes Hrun; simpl in *.
  - injection Hrun as <-. by exists hb.
  - destruct (List_getRawIndex edgeData i) as [rawIdx|]; [simpl in *|done].
    destruct (edges !! rawIdx) as [e|]; [simpl in *|done].
    destruct (IH (alter_edge (set_edge_dataIndex (Z.of_nat i)) e ha)
                (alter_edge (set_edge_dataIndex (Z.of_nat i)) e hb) ha')
      as (hb' & Hrun' & ? & ? & ? & ?); [simpl; by rewrite Hes|done|].
    by exists hb'.
Qed.

Lemma filter_indices_all cb indices : ∀ idx,
  (∀ j : nat, (j < length indices)%nat → cb (idx + j)%nat = Some true) →
  filter_indices cb idx indices = Some indices.
Proof.
  induction indices as [|r indices IH]; intros idx Hall; simpl; [done|].
  rewrite <- (Nat.add_0_r idx) at 1. rewrite (Hall 0%nat) by (simpl; lia).
  simpl. rewrite IH; [done|].
  intros j Hj. rewrite Nat.add_succ_l, <- Nat.add_succ_r.
  apply Hall. simpl. lia.
Qed.

Lemma heap_eq h h' :
  heap_nodes h' = heap_nodes h → heap_edges h' = heap_edges h →
  heap_graphs h' = heap_graphs h → heap_lists h' = heap_lists h → h' = h.
Proof. destruct h, h'. simpl. by intros -> -> -> ->. Qed.

(** X10.  [update] is idempotent: when the node table and the edge table
    are two objects, a second [update] right after the first changes
    nothing. *)
Theorem update_idempotent g h h' G :
  heap_graphs h !! g = Some G →
  graph_data G ≠ graph_edgeData G →
  update g h = Some h' →
  update g h' = Some h'.
Proof.
  intros HG Hdistinct Hrun.
  destruct (update_stages _ _ _ _ HG Hrun)
    as (data & edgeData & dataL & edgeDataL & kept & h1 & Hdata & HedgeData
        & HdataL & HedgeDataL & Hnodes & Hkept & Hedges & Hedges1 & Hnodes'
        & Hgraphs' & Hlists').
  assert (Hne : data ≠ edgeData) by congruence.
  set (h3 := alter_list (λ _, mkList kept) edgeData h1) in *.
  (* the nodes get the same rows *)
  assert (Hreset1 : heap_nodes (reset_node_dataIndex (graph_nodes G) h')
                    = heap_nodes (reset_node_dataIndex (graph_nodes G) h)).
  { apply reset_node_dataIndex_again. intros n. eexists.
    rewrite Hnodes'. apply (assign_reset_node_dataIndex _ _ _ _ _ Hnodes). }
  destruct (assign_node_dataIndex_nodes_only _ _ _ _ _ _ Hreset1 Hnodes)
    as (h1' & Hnodes1' & Hn1' & He1' & Hg1' & Hl1').
  destruct (reset_node_dataIndex_frame (graph_nodes G) h') as (He0' & Hg0' & Hl0').
  rewrite He0' in He1'. rewrite Hg0' in Hg1'. rewrite Hl0' in Hl1'.
  (* every row left in the edge table stays *)
  assert (Hkept' : filter_indices (both_ends_live (mkList kept) (graph_edges G) h1') 0 kept
                   = Some kept).
  { apply filter_indices_all. intros j Hj. simpl.
    destruct (lookup_lt_is_Some_2 kept j Hj) as (rawIdx & Hraw).
    destruct (filter_indices_kept _ _ _ _ _ Hkept
                (list_elem_of_lookup_2 _ _ _ Hraw)) as (j0 & Hj0 & Hlive).
    apply both_ends_live_true in Hlive
      as (rawIdx' & e & E & N1 & N2 & Hraw' & He & HE & HN1 & HN2 & ? & ?).
    unfold List_getRawIndex in Hraw'. simpl in Hraw'.
    rewrite Hj0 in Hraw'. injection Hraw' as <-.
    pose proof (assign_reset_edge_dataIndex _ _ _ h3 _ Hedges e) as HE'.
    simpl in HE'. rewrite HE in HE'. simpl in HE'.
    unfold both_ends_live, List_getRawIndex. simpl. rewrite Hraw. simpl.
    rewrite He. simpl. rewrite He1', HE'. simpl.
    assert (Hends : ∀ (b : bool) i,
              edge_ends (if b then set_edge_dataIndex i E else E) = edge_ends E)
      by (by intros []).
    destruct (edge_ends_eq _ _ (Hends (bool_decide (e ∈ (graph_edges G)))
                (default (-1) (edge_dataIndex <$> heap_edges h' !! e))))
      as [-> ->].
    rewrite Hn1', HN1. simpl. rewrite bool_decide_eq_true_2 by done.
    rewrite HN2. simpl. by rewrite bool_decide_eq_true_2. }
  (* the edges get the same rows *)
  set (h3' := alter_list (λ _, mkList kept) edgeData h1').
  assert (Hreset3 : heap_edges (reset_edge_dataIndex (graph_edges G) h3')
                    = heap_edges (reset_edge_dataIndex (graph_edges G) h3)).
  { apply reset_edge_dataIndex_again. intros e. eexists. simpl.
    rewrite He1'. apply (assign_reset_edge_dataIndex _ _ _ h3 _ Hedges). }
  destruct (assign_edge_dataIndex_edges_only _ _ _ _ _ _ Hreset3 Hedges)
    as (h'' & Hedges'' & He'' & Hn'' & Hg'' & Hl'').
  destruct (reset_edge_dataIndex_spec (graph_edges G) h3') as (Hn3' & Hg3' & Hl3' & _).
  rewrite Hn3' in Hn''. rewrite Hg3' in Hg''. rewrite Hl3' in Hl''.
  simpl in Hn'', Hg'', Hl''.
  assert (Hlists3 : alter (λ _, mkList kept) edgeData (heap_lists h1')
                    = heap_lists h').
  { rewrite Hl1', Hlists'. apply list_eq. intros l.
    destruct (decide (edgeData = l)) as [->|Hl].
    - rewrite !list_lookup_alter_eq. by destruct (heap_lists h !! l).
    - by rewrite !list_lookup_alter_ne. }
  assert (h'' = h') as ->.
  { apply heap_eq.
    - by rewrite Hn'', Hn1'.
    - done.
    - by rewrite Hg'', Hg1'.
    - by rewrite Hl'', Hlists3. }
  (* the second run *)
  unfold update. rewrite Hgraphs', HG. simpl. rewrite Hdata. simpl.
  rewrite Hl0', Hlists', list_lookup_alter_ne, HdataL by done. simpl.
  rewrite Hnodes1'. simpl. rewrite HedgeData. simpl.
  rewrite Hl1', Hlists', list_lookup_alter_eq, HedgeDataL. simpl.
  unfold List_filterSelf. simpl. rewrite Hkept'. simpl.
  fold h3'. rewrite Hl3'. simpl.
  rewrite Hl1', Hlists', !list_lookup_alter_eq, HedgeDataL. simpl.
  exact Hedges''.
Qed.

(** ** What [update] and a traversal write *)

(** X11.  [update] writes the [dataIndex] of the nodes and edges of its
    graph and the rows of the edge table, and nothing else: the graphs
    and every other table are as before, every node and edge is still
    there, the ones of other graphs as they were, the ones of this graph
    with all fields but [dataIndex] as they were; the edge table keeps a
    part of its rows, in their order. *)
Theorem update_writes_only g h h' G :
  heap_graphs h !! g = Some G →
  update g h = Some h' →
  heap_graphs h' = heap_graphs h ∧
  (∀ n N, heap_nodes h !! n = Some N →
     ∃ i, heap_nodes h' !! n =
            Some (if bool_decide (n ∈ graph_nodes G)
                  then set_node_dataIndex i N else N)) ∧
  (∀ e E, heap_edges h !! e = Some E →
     ∃ i, heap_edges h' !! e =
            Some (if bool_decide (e ∈ graph_edges G)
                  then set_edge_dataIndex i E else E)) ∧
  (∀ l, graph_edgeData G ≠ Some l → heap_lists h' !! l = heap_lists h !! l) ∧
  (∀ l L, graph_edgeData G = Some l → heap_lists h !! l = Some L →
     ∃ L', heap_lists h' !! l = Some L' ∧
           sublist (list__indices L') (list__indices L)).
Proof.
  intros HG Hrun.
  destruct (update_stages _ _ _ _ HG Hrun)
    as (data & edgeData & dataL & edgeDataL & kept & h1 & Hdata & HedgeData
        & HdataL & HedgeDataL & Hnodes & Hkept & Hedges & Hedges1 & Hnodes'
        & Hgraphs' & Hlists').
  split_and!.
  - done.
  - intros n N HN. eexists.
    rewrite Hnodes', (assign_reset_node_dataIndex _ _ _ _ _ Hnodes n), HN.
    done.
  - intros e E HE. eexists.
    rewrite (assign_reset_edge_dataIndex _ _ _ _ _ Hedges e). simpl.
    rewrite Hedges1, HE. done.
  - intros l Hl. rewrite Hlists', list_lookup_alter_ne; [done|congruence].
  - intros l L Hl HL. rewrite HedgeData in Hl. injection Hl as <-.
    rewrite HedgeDataL in HL. injection HL as <-.
    exists (mkList kept). rewrite Hlists', list_lookup_alter_eq, HedgeDataL.
    split; [done|]. by eapply filter_indices_sublist.
Qed.

Lemma only_flags_refl h : only_flags h h.
Proof. by split_and!. Qed.

Lemma only_flags_trans h1 h2 h3 :
  only_flags h1 h2 → only_flags h2 h3 → only_flags h1 h3.
Proof. intros (? & ? & ? & ?) (? & ? & ? & ?). split_and!; congruence. Qed.

Lemma only_flags_set___visited b n h :
  only_flags h (alter_node (set_node___visited b) n h).
Proof.
  split_and!; try done. simpl. apply list_eq. intros m.
  rewrite !list_lookup_fmap, list_lookup_alter. case_decide; [subst|done].
  by destruct (heap_nodes h !! m).
Qed.

Lemma only_flags_reset___visited nodes : ∀ h,
  only_flags h (reset___visited nodes h).
Proof.
  induction nodes as [|n nodes IH]; intros h; simpl; [apply only_flags_refl|].
  eapply only_flags_trans; [apply (only_flags_set___visited false n)|apply IH].
Qed.

Lemma only_flags_lookup h h' n N :
  only_flags h h' → heap_nodes h !! n = Some N →
  ∃ b, heap_nodes h' !! n = Some (set_node___visited b N).
Proof.
  intros (_ & _ & _ & Hnodes) HN.
  apply (f_equal (λ l, l !! n)) in Hnodes.
  rewrite !list_lookup_fmap, HN in Hnodes.
  destruct (heap_nodes h' !! n) as [N'|]; [|done].
  simpl in Hnodes. exists (node___visited N'). f_equal.
  injection Hnodes as Hid Hin Hout Hall Hhost Hidx.
  destruct N, N'. unfold set_node___visited. simpl in *. congruence.
Qed.

Section TraverseWrites.
Context {Ctx : Type}.
Variable cb : nref → option nref → Ctx → bool * Ctx.

Lemma only_flags_traverse_edges currentNode edges :
  ∀ queue h c vs exit h' c',
    traverse_edges cb currentNode edges queue h c = Some (vs, exit, h', c') →
    only_flags h h'.
Proof.
  induction edges as [|e edges IH]; intros queue h c vs exit h' c' Hrun;
    simpl in Hrun.
  - injection Hrun as _ _ <- _. apply only_flags_refl.
  - destruct (heap_edges h !! e) as [E|]; [simpl in Hrun|done].
    set (otherNode := if decide (edge_node1 E = currentNode)
                      then edge_node2 E else edge_node1 E) in *.
    destruct (heap_nodes h !! otherNode) as [O|]; [simpl in Hrun|done].
    destruct (node___visited O); [by eapply IH|].
    destruct (cb otherNode (Some currentNode) c) as [stop c1].
    destruct stop; [injection Hrun as _ _ <- _; apply only_flags_refl|].
    destruct (traverse_edges _ _ _ _ _ _) as [[[[vs1 exit1] h1] c2]|] eqn:Hrest;
      [simpl in Hrun|done].
    injection Hrun as _ _ <- _.
    eapply only_flags_trans; [apply (only_flags_set___visited true otherNode)|].
    by eapply IH.
Qed.

Lemma only_flags_traverse_queue fuel direction :
  ∀ queue h c vs fin h' c',
    traverse_queue cb fuel direction queue h c = Some (vs, fin, h', c') →
    only_flags h h'.
Proof.
  induction fuel as [|fuel IH]; intros queue h c vs fin h' c' Hrun;
    destruct queue as [|currentNode queue]; simpl in Hrun;
    try (injection Hrun as _ _ <- _; apply only_flags_refl).
  destruct (heap_nodes h !! currentNode) as [C|]; [simpl in Hrun|done].
  destruct (traverse_edges _ _ _ _ _ _) as [[[[vs1 exit1] h1] c1]|] eqn:Hedges;
    [simpl in Hrun|done].
  apply only_flags_traverse_edges in Hedges.
  destruct exit1 as [queue1|]; [|by injection Hrun as _ _ <- _].
  destruct (traverse_queue _ _ _ _ _ _) as [[[[vs2 fin2] h2] c2]|] eqn:Hrest;
    [simpl in Hrun|done].
  injection Hrun as _ _ <- _.
  eapply only_flags_trans; [done|by eapply IH].
Qed.

(** X12.  A traversal writes [__visited] flags and nothing else: the
    edges, the graphs and the tables are as before and every node keeps
    all its other fields; when the start node is an id the graph does not
    know, nothing is written and the callback is not called. *)
Theorem breadthFirstTraverse_writes_only g G startNode direction h c vs fin h' c' :
  heap_graphs h !! g = Some G →
  breadthFirstTraverse cb g startNode direction h c = Some (vs, fin, h', c') →
  heap_edges h' = heap_edges h ∧
  heap_graphs h' = heap_graphs h ∧
  heap_lists h' = heap_lists h ∧
  (∀ n N, heap_nodes h !! n = Some N →
     ∃ b, heap_nodes h' !! n = Some (set_node___visited b N)) ∧
  (start_node G startNode = None → vs = [] ∧ h' = h ∧ c' = c).
Proof.
  intros HG Hrun. unfold breadthFirstTraverse in Hrun. rewrite HG in Hrun.
  cbv beta iota delta [mbind option_bind] in Hrun.
  assert (Hflags : only_flags h h' ∧
                   (start_node G startNode = None → vs = [] ∧ h' = h ∧ c' = c)).
  { destruct (start_node G startNode) as [s|].
    2:{ injection Hrun as <- _ <- <-. split; [apply only_flags_refl|done]. }
    split; [|done].
    pose proof (only_flags_reset___visited (graph_nodes G) h) as Hreset.
    destruct (cb s None c) as [stop c1].
    destruct stop; [by injection Hrun as _ _ <- _|].
    destruct (traverse_queue _ _ _ _ _ _) as [[[[vs1 fin1] h1] c2]|] eqn:Hqueue;
      [|done].
    injection Hrun as _ _ <- _.
    eapply only_flags_trans; [done|by eapply only_flags_traverse_queue]. }
  destruct Hflags as [Hflags Hnone].
  pose proof Hflags as (? & ? & ? & _).
  split_and!; try done.
  intros n N HN. by eapply only_flags_lookup.
Qed.
End TraverseWrites.

(** ** Lookups in a well-formed graph *)

(** X13.  In a well-formed graph every node is what [getNodeById] returns
    for its id and every edge is what [getEdge] returns for its two ends,
    given as nodes or by their ids; two nodes of the graph have two ids. *)
Theorem lookups_find_every_object h g G :
  heap_graphs h !! g = Some G →
  graph_wf h g G →
  (∀ n N, n ∈ graph_nodes G → heap_nodes h !! n = Some N →
     getNodeById g (node_id N) h = Some (Some n)) ∧
  (∀ n m N M, n ∈ graph_nodes G → m ∈ graph_nodes G →
     heap_nodes h !! n = Some N → heap_nodes h !! m = Some M →
     node_id N = node_id M → n = m) ∧
  (∀ e E, e ∈ graph_edges G → heap_edges h !! e = Some E →
     ∃ N1 N2,
       heap_nodes h !! edge_node1 E = Some N1 ∧
       heap_nodes h !! edge_node2 E = Some N2 ∧
       ∀ x y,
         x = IsNode (edge_node1 E) ∨ x = IsId (node_id N1) →
         y = IsNode (edge_node2 E) ∨ y = IsId (node_id N2) →
         getEdge g x y h = Some (Some e)).
Proof.
  intros HG Hwf. split_and!.
  - intros n N Hn HN. destruct (wf_node _ _ _ Hwf n Hn) as (N' & HN' & _ & Hkey).
    rewrite HN in HN'. injection HN' as <-.
    unfold getNodeById. rewrite HG. simpl. by rewrite Hkey.
  - intros n m N M Hn Hm HN HM Hid.
    destruct (wf_node _ _ _ Hwf n Hn) as (N' & HN' & _ & HkeyN).
    destruct (wf_node _ _ _ Hwf m Hm) as (M' & HM' & _ & HkeyM).
    rewrite HN in HN'. injection HN' as <-.
    rewrite HM in HM'. injection HM' as <-.
    rewrite Hid, HkeyM in HkeyN. by injection HkeyN.
  - intros e E He HE.
    destruct (wf_edge _ _ _ Hwf e He)
      as (E' & N1 & N2 & HE' & _ & _ & HN1 & HN2 & Hkey).
    rewrite HE in HE'. injection HE' as <-.
    exists N1, N2. split_and!; [done..|]. intros x y Hx Hy.
    rewrite (getEdge_lookup g x y h G (node_id N1) (node_id N2) HG).
    + rewrite Hkey. by destruct (graph__directed G).
    + destruct Hx as [->| ->]; simpl; [by rewrite HN1|done].
    + destruct Hy as [->| ->]; simpl; [by rewrite HN2|done].
Qed.

(** ** Endpoints that do not resolve *)

(** X14.  An endpoint of [addEdge] that is an index outside [nodes]
    counts as the id [undefined]: the call does what it does for that id,
    so it links the node that [addNode] made when it was called without
    id and without [dataIndex].  When an endpoint resolves to no node,
    whatever its form, [addEdge] returns nothing and leaves the store as
    it is. *)
Theorem addEdge_unresolved g G h :
  heap_graphs h !! g = Some G →
  (∀ i b dataIndex, index_Z (graph_nodes G) i = None →
     addEdge g (ArgNumber i) b dataIndex h
       = addEdge g (ArgId "undefined") b dataIndex h) ∧
  (∀ i a dataIndex, index_Z (graph_nodes G) i = None →
     addEdge g a (ArgNumber i) dataIndex h
       = addEdge g a (ArgId "undefined") dataIndex h) ∧
  (∀ n h' G' i b dataIndex,
     addNode g None None h = Some (Some n, h') →
     heap_graphs h' !! g = Some G' →
     index_Z (graph_nodes G') i = None →
     addEdge g (ArgNumber i) b dataIndex h'
       = addEdge g (ArgNode n) b dataIndex h') ∧
  (∀ a b dataIndex,
     resolve_node G a = None ∨ resolve_node G b = None →
     addEdge g a b dataIndex h = Some (None, h)) ∧
  (∀ i, (i < 0 ∨ Z.of_nat (length (graph_nodes G)) ≤ i) →
     index_Z (graph_nodes G) i = None) ∧
  (∀ s, resolve_node G (ArgId s) = None ↔ getNodeById g s h = Some None).
Proof.
  intros HG. split_and!.
  3:{ intros n h' G' i b dataIndex Hadd HG' Hi.
      destruct (graph__nodesMap G !! generateNodeKey (normalize_id None None))
        as [m|] eqn:Hkey.
      { by rewrite (addNode_duplicate _ _ _ _ _ _ HG Hkey) in Hadd. }
      rewrite (addNode_fresh _ _ _ _ _ HG Hkey) in Hadd.
      injection Hadd as <- <-. simpl in HG'.
      rewrite list_lookup_alter_eq, HG in HG'. simpl in HG'.
      injection HG' as <-.
      unfold addEdge. simpl. rewrite list_lookup_alter_eq, HG. simpl.
      unfold resolve_node at 1 3. simpl. simpl in Hi. rewrite Hi.
      simpl. by rewrite lookup_insert_eq. }
  - intros i b dataIndex Hi. unfold addEdge. rewrite HG. simpl.
    unfold resolve_node at 1 3. simpl. by rewrite Hi.
  - intros i a dataIndex Hi. unfold addEdge. rewrite HG. simpl.
    unfold resolve_node at 2 4. simpl. by rewrite Hi.
  - intros a b dataIndex Hnone. unfold addEdge. rewrite HG. simpl.
    destruct Hnone as [-> | ->]; [done|]. by destruct (resolve_node G a).
  - intros i Hi. unfold index_Z. case_decide; [|done].
    apply lookup_ge_None. lia.
  - intros s. unfold getNodeById, resolve_node. rewrite HG. simpl.
    split; [by intros ->|by intros [=]].
Qed.

(** ** Where a visit comes from *)

Section TraverseFrom.
Context {Ctx : Type}.
Variable cb : nref → option nref → Ctx → bool * Ctx.

Lemma traverse_edges_from currentNode edges :
  ∀ queue h c vs exit h' c',
    traverse_edges cb currentNode edges queue h c = Some (vs, exit, h', c') →
    ∀ v, v ∈ vs →
      visit_from v = Some currentNode ∧
      ∃ e E, e ∈ edges ∧ heap_edges h !! e = Some E ∧
             visit_node v = if decide (edge_node1 E = currentNode)
                            then edge_node2 E else edge_node1 E.
Proof.
  induction edges as [|e edges IH]; intros queue h c vs exit h' c' Hrun;
    simpl in Hrun.
  - injection Hrun as <- _ _ _. intros v Hv. by apply elem_of_nil in Hv.
  - destruct (heap_edges h !! e) as [E|] eqn:HE; [simpl in Hrun|done].
    set (otherNode := if decide (edge_node1 E = currentNode)
                      then edge_node2 E else edge_node1 E) in *.
    destruct (heap_nodes h !! otherNode) as [O|]; [simpl in Hrun|done].
    assert (Hlater : ∀ (v : Visit),
              (∃ e' E', e' ∈ edges ∧ heap_edges h !! e' = Some E' ∧
                 visit_node v = if decide (edge_node1 E' = currentNode)
                                then edge_node2 E' else edge_node1 E') →
              ∃ e' E', e' ∈ e :: edges ∧ heap_edges h !! e' = Some E' ∧
                 visit_node v = if decide (edge_node1 E' = currentNode)
                                then edge_node2 E' else edge_node1 E').
    { intros v (e' & E' & ? & ? & ?). exists e', E'.
      split_and!; [by right|done..]. }
    destruct (node___visited O).
    { intros v Hv. destruct (IH _ _ _ _ _ _ _ Hrun v Hv) as [? ?].
      split; [done|by apply Hlater]. }
    destruct (cb otherNode (Some currentNode) c) as [stop c1].
    assert (Hthis : ∃ e' E', e' ∈ e :: edges ∧ heap_edges h !! e' = Some E' ∧
              otherNode = if decide (edge_node1 E' = currentNode)
                          then edge_node2 E' else edge_node1 E').
    { exists e, E. split_and!; [by left|done..]. }
    destruct stop.
    { injection Hrun as <- _ _ _. by intros v ->%list_elem_of_singleton. }
    destruct (traverse_edges _ _ _ _ _ _) as [[[[vs1 exit1] h1] c2]|] eqn:Hrest;
      [simpl in Hrun|done].
    injection Hrun as <- _ _ _.
    intros v [->|Hv]%elem_of_cons; [done|].
    destruct (IH _ _ _ _ _ _ _ Hrest v Hv) as [? ?].
    split; [done|by apply Hlater].
Qed.

Lemma traverse_queue_from fuel direction :
  ∀ seen queue h c vs fin h' c',
    (∀ n, n ∈ queue → n ∈ seen) →
    traverse_queue cb fuel direction queue h c = Some (vs, fin, h', c') →
    ∀ (i : nat) v, vs !! i = Some v →
      ∃ m, visit_from v = Some m ∧
           m ∈ seen ++ (visit_node <$> take i vs) ∧
           step h direction m (visit_node v).
Proof.
  induction fuel as [|fuel IH]; intros seen queue h c vs fin h' c' Hseen Hrun;
    destruct queue as [|currentNode queue]; simpl in Hrun;
    try (injection Hrun as <- _ _ _; intros i v Hv; by rewrite lookup_nil in Hv).
  destruct (heap_nodes h !! currentNode) as [C|] eqn:HC; [simpl in Hrun|done].
  destruct (traverse_edges _ _ _ _ _ _) as [[[[vs1 exit1] h1] c1]|] eqn:Hedges;
    [simpl in Hrun|done].
  pose proof (traverse_edges_from _ _ _ _ _ _ _ _ _ Hedges) as Hfrom1.
  pose proof (same_topology_traverse_edges cb _ _ _ _ _ _ _ _ _ Hedges) as Htopo.
  assert (Hfirst : ∀ (i : nat) v, vs1 !! i = Some v →
            ∃ m, visit_from v = Some m ∧ m ∈ seen ∧
                 step h direction m (visit_node v)).
  { intros i v Hv.
    destruct (Hfrom1 v (list_elem_of_lookup_2 _ _ _ Hv))
      as (Hfrom & e & E & He & HE & Hother).
    exists currentNode. split_and!; [done|apply Hseen; by left|].
    by exists C, e, E. }
  destruct exit1 as [queue1|].
  2:{ injection Hrun as <- _ _ _. intros i v Hv.
      destruct (Hfirst i v Hv) as (m & ? & ? & ?).
      exists m. split_and!; [done| |done]. apply elem_of_app. by left. }
  destruct (traverse_queue _ _ _ _ _ _) as [[[[vs2 fin2] h2] c2]|] eqn:Hrest;
    [simpl in Hrun|done].
  injection Hrun as <- _ _ _.
  destruct (traverse_edges_reach cb _ _ _ _ _ _ _ _ _ Hedges) as (-> & _).
  intros i v Hv.
  destruct (decide (i < length vs1)%nat) as [Hlt|Hge].
  - rewrite lookup_app_l in Hv by done.
    destruct (Hfirst i v Hv) as (m & ? & ? & ?).
    exists m. split_and!; [done| |done]. apply elem_of_app. by left.
  - rewrite lookup_app_r in Hv by lia.
    assert (Hseen' : ∀ n, n ∈ queue ++ (visit_node <$> vs1) →
              n ∈ seen ++ (visit_node <$> vs1)).
    { intros n [Hn|Hn]%elem_of_app; apply elem_of_app;
        [left; apply Hseen; by right|by right]. }
    destruct (IH (seen ++ (visit_node <$> vs1)) _ _ _ _ _ _ _
                Hseen' Hrest _ v Hv) as (m & ? & Hm & Hstep).
    exists m. split_and!; [done| |].
    + rewrite take_app_ge by lia. rewrite fmap_app, app_assoc. done.
    + apply (step_same_topology h1 h); [by apply same_topology_sym|done].
Qed.

(** X15.  Where a visit comes from: the first call of the callback is on
    the start node with no [fromNode]; every later call passes as
    [fromNode] a node that an earlier call passed as [node], and its
    [node] is the other end of an edge that this [fromNode] lists for the
    direction. *)
Theorem breadthFirstTraverse_from g startNode direction h c vs fin h' c' :
  breadthFirstTraverse cb g startNode direction h c = Some (vs, fin, h', c') →
  ∀ (i : nat) v, vs !! i = Some v →
    match i with
    | O =>
        visit_from v = None ∧
        ∃ G, heap_graphs h !! g = Some G ∧
             start_node G startNode = Some (visit_node v)
    | S _ =>
        ∃ m, visit_from v = Some m ∧
             m ∈ visit_node <$> take i vs ∧
             step h direction m (visit_node v)
    end.
Proof.
  intros Hrun. unfold breadthFirstTraverse in Hrun.
  destruct (heap_graphs h !! g) as [G|] eqn:HG; [|done].
  cbv beta iota delta [mbind option_bind] in Hrun.
  destruct (start_node G startNode) as [s|] eqn:Hstart.
  2:{ injection Hrun as <- _ _ _. intros i v Hv. by rewrite lookup_nil in Hv. }
  pose proof (same_topology_reset___visited (graph_nodes G) h) as Htopo0.
  destruct (cb s None c) as [stop c1].
  destruct stop.
  { injection Hrun as <- _ _ _. intros [|i] v Hv; [|done].
    injection Hv as <-. split; [done|by exists G]. }
  destruct (traverse_queue _ _ _ _ _ _) as [[[[vs1 fin1] h1] c2]|] eqn:Hqueue;
    [|done].
  injection Hrun as <- _ _ _.
  intros [|i] v Hv.
  { injection Hv as <-. split; [done|by exists G]. }
  simpl in Hv.
  destruct (traverse_queue_from _ _ [s] _ _ _ _ _ _ _ (λ n Hn, Hn) Hqueue i v Hv)
    as (m & Hfrom & Hm & Hstep).
  exists m. split_and!; [done|done|].
  apply (step_same_topology (reset___visited (graph_nodes G) h) h);
    [by apply same_topology_sym|done].
Qed.
(** The traversal, run to its end without a stop, on a well-formed graph
    with exact adjacency: the first visit is the start node; the later
    visits are nodes of the graph, each once, that can be reached; an
    edge from the start node or from a visited node leads to a later
    visit, so every node that can be reached is visited; and every later
    visit comes along an edge from the start node or from a node visited
    before. *)
Lemma breadthFirstTraverse_explores g G startNode s direction h c vs h' c' :
  graph_wf h g G →
  adjacency_exact h G →
  heap_graphs h !! g = Some G →
  start_node G startNode = Some s →
  s ∈ graph_nodes G →
  breadthFirstTraverse cb g startNode direction h c = Some (vs, true, h', c') →
  all_continue vs →
  ∃ vs1,
    vs = mkVisit s None false :: vs1 ∧
    NoDup (visit_node <$> vs1) ∧
    (∀ v, v ∈ vs1 →
       visit_node v ∈ graph_nodes G ∧
       rtc (linked h G direction) s (visit_node v)) ∧
    (∀ n m, n ∈ s :: (visit_node <$> vs1) → linked h G direction n m →
       m ∈ visit_node <$> vs1) ∧
    (∀ n, rtc (linked h G direction) s n → n ∈ s :: (visit_node <$> vs1)) ∧
    (∀ (i : nat) v, vs1 !! i = Some v →
       ∃ m, m ∈ s :: (visit_node <$> take i vs1) ∧
            visit_from v = Some m ∧
            linked h G direction m (visit_node v)).
Proof.
  intros Hwf Hexact HG Hstart Hs Hrun Hall.
  unfold breadthFirstTraverse in Hrun. rewrite HG in Hrun.
  cbv beta iota delta [mbind option_bind] in Hrun. rewrite Hstart in Hrun.
  set (h0 := reset___visited (graph_nodes G) h) in *.
  pose proof (same_topology_reset___visited (graph_nodes G) h) as Htopo0.
  fold h0 in Htopo0.
  destruct (cb s None c) as [stop c1].
  destruct stop.
  { injection Hrun as <- _ _. unfold all_continue in Hall.
    rewrite Forall_singleton in Hall. simpl in Hall. congruence. }
  destruct (traverse_queue _ _ _ _ _ _) as [[[[vs1 fin1] h1] c2]|] eqn:Hqueue;
    [|done].
  injection Hrun as <- -> <- <-.
  unfold all_continue in Hall. apply Forall_cons in Hall as [_ Hall].
  (* a step from a node of the graph goes along an edge, to a node of the graph *)
  assert (Hlinked : ∀ n m, n ∈ graph_nodes G →
            (step h0 direction n m ↔ linked h G direction n m)).
  { intros n m Hn. rewrite <- (step_linked h g G direction n m Hwf Hexact Hn).
    split; apply step_same_topology; [by apply same_topology_sym|done]. }
  assert (Hinside : ∀ n m, n ∈ graph_nodes G → linked h G direction n m →
            m ∈ graph_nodes G).
  { intros n m Hn (e & E & He & HE & Hends).
    destruct (wf_edge _ _ _ Hwf e He) as (E' & _ & _ & HE' & Hn1 & Hn2 & _).
    rewrite HE in HE'. injection HE' as <-.
    destruct direction; [destruct Hends as [[_ <-]|[_ <-]]
                        |destruct Hends as (_ & _ & <-)
                        |destruct Hends as (_ & _ & <-)]; done. }
  destruct (traverse_queue_reach cb
              (λ n, n ∈ graph_nodes G ∧ rtc (linked h G direction) s n)
              _ _ _ _ _ _ _ _ Hqueue Hall) as (Hdone & Hframe & Hsound).
  assert (Hvisits : ∀ v, v ∈ vs1 →
            visit_node v ∈ graph_nodes G ∧
            rtc (linked h G direction) s (visit_node v)).
  { apply Hsound.
    - intros n ->%list_elem_of_singleton. split; [done|apply rtc_refl].
    - intros n m [Hn Hreach] Hstep. apply (Hlinked n m Hn) in Hstep.
      split; [by apply (Hinside n m)|by eapply rtc_r]. }
  assert (Hvisited : ∀ n, n ∈ s :: (visit_node <$> vs1) → n ∈ graph_nodes G).
  { intros n [->|(v & -> & Hv)%list_elem_of_fmap]%elem_of_cons;
      [done|by apply Hvisits]. }
  assert (Hclosed : ∀ n m, n ∈ s :: (visit_node <$> vs1) →
            linked h G direction n m → m ∈ visit_node <$> vs1).
  { intros n m Hn Hnm. pose proof (Hvisited n Hn) as Hgraph.
    assert (Hflag : flagged h1 m).
    { apply (Hdone n).
      - apply elem_of_cons in Hn as [->|?]; [left; by left|by right].
      - by apply Hlinked. }
    destruct (Hframe m Hflag) as [Hflag0|?]; [|done].
    destruct (reset___visited_unflagged (graph_nodes G) h m); [|done].
    by apply (Hinside n m). }
  exists vs1. split_and!; [done| |done|done| |].
  - by destruct (traverse_queue_once cb _ _ _ _ _ _ _ _ _ Hqueue) as (? & _).
  - apply (rtc_ind_r (λ z, z ∈ s :: (visit_node <$> vs1))); [by left|].
    intros y z _ Hyz Hy. right. by apply (Hclosed y z).
  - intros i v Hv.
    destruct (traverse_queue_from _ _ [s] _ _ _ _ _ _ _ (λ n Hn, Hn) Hqueue i v Hv)
      as (m & Hfrom & Hm & Hstep).
    exists m. split_and!; [done..|].
    apply Hlinked; [|done]. apply Hvisited.
    apply elem_of_cons in Hm as [->|Hm]; [by left|right].
    apply list_elem_of_fmap in Hm as (w & -> & Hw).
    apply list_elem_of_fmap. exists w. split; [done|].
    apply list_elem_of_lookup_1 in Hw as (j & Hj).
    apply lookup_take_Some in Hj as [Hj _].
    exact (list_elem_of_lookup_2 _ _ _ Hj).
Qed.

(** X9.  A traversal that runs to its end without a stop visits exactly
    the nodes that can be reached from the start node: in a well-formed
    graph with exact adjacency, a node is passed to the callback if and
    only if a path of edges of the graph leads to it from the start node,
    along the edges for [out], against them for [in], either way for
    [none]. *)
Theorem breadthFirstTraverse_reaches g G startNode s direction h c vs h' c' :
  graph_wf h g G →
  adjacency_exact h G →
  heap_graphs h !! g = Some G →
  start_node G startNode = Some s →
  s ∈ graph_nodes G →
  breadthFirstTraverse cb g startNode direction h c = Some (vs, true, h', c') →
  all_continue vs →
  ∀ n, n ∈ visit_node <$> vs ↔ rtc (linked h G direction) s n.
Proof.
  intros Hwf Hexact HG Hstart Hs Hrun Hall.
  destruct (breadthFirstTraverse_explores _ _ _ _ _ _ _ _ _ _
              Hwf Hexact HG Hstart Hs Hrun Hall)
    as (vs1 & -> & _ & Hvisits & _ & Hreached & _).
  intros n. rewrite fmap_cons. simpl. split; [|apply Hreached].
  intros [->|(v & -> & Hv)%list_elem_of_fmap]%elem_of_cons;
    [apply rtc_refl|by apply Hvisits].
Qed.

(** X16.  How often a node is visited by a traversal that runs to its end
    without a stop: after the first call, which is on the start node, no
    node is passed to the callback twice; and the start node is passed
    again exactly when an edge leads back to it from a node that can be
    reached, the start node included.  So every other node that can be
    reached is visited once, and the start node twice when it lies on a
    cycle. *)
Theorem breadthFirstTraverse_start_again g G startNode s direction h c vs h' c' :
  graph_wf h g G →
  adjacency_exact h G →
  heap_graphs h !! g = Some G →
  start_node G startNode = Some s →
  s ∈ graph_nodes G →
  breadthFirstTraverse cb g startNode direction h c = Some (vs, true, h', c') →
  all_continue vs →
  NoDup (visit_node <$> tail vs) ∧
  (s ∈ visit_node <$> tail vs ↔
   ∃ m, rtc (linked h G direction) s m ∧ linked h G direction m s).
Proof.
  intros Hwf Hexact HG Hstart Hs Hrun Hall.
  destruct (breadthFirstTraverse_explores _ _ _ _ _ _ _ _ _ _
              Hwf Hexact HG Hstart Hs Hrun Hall)
    as (vs1 & -> & Hnodup & Hvisits & Hclosed & Hreached & Hfrom).
  simpl. split; [done|]. split.
  - intros (v & Hs' & Hv)%list_elem_of_fmap.
    apply list_elem_of_lookup_1 in Hv as (i & Hi).
    destruct (Hfrom i v Hi) as (m & Hm & _ & Hlinked).
    exists m. split; [|by rewrite Hs'].
    apply elem_of_cons in Hm as [->|Hm]; [apply rtc_refl|].
    apply list_elem_of_fmap in Hm as (w & -> & Hw). apply Hvisits.
    apply list_elem_of_lookup_1 in Hw as (j & Hj).
    apply lookup_take_Some in Hj as [Hj _].
    exact (list_elem_of_lookup_2 _ _ _ Hj).
  - intros (m & Hreach & Hback). by apply (Hclosed m s); [apply Hreached|].
Qed.

End TraverseFrom.

(** ** The properties on the sample stores *)

Lemma update_getByIndex_witness :
  ∃ h',
    update 0%nat heap_A_B_C_bound = Some h' ∧
    (∀ e E, e ∈ graph_edges (graph_at heap_A_B_C_bound 0%nat) →
       heap_edges h' !! e = Some E →
       0 ≤ edge_dataIndex E →
       getEdgeByIndex 0%nat (edge_dataIndex E) h' = Some (Some e)) ∧
    (graph_data (graph_at heap_A_B_C_bound 0%nat)
       ≠ graph_edgeData (graph_at heap_A_B_C_bound 0%nat) →
     ∀ n N, n ∈ graph_nodes (graph_at heap_A_B_C_bound 0%nat) →
       heap_nodes h' !! n = Some N →
       0 ≤ node_dataIndex N →
       getNodeByIndex 0%nat (node_dataIndex N) h' = Some (Some n)).
Proof.
  destruct (update 0%nat heap_A_B_C_bound) as [h'|] eqn:Hrun;
    [|vm_compute in Hrun; discriminate].
  exists h'. split; [reflexivity|].
  apply (update_getByIndex 0%nat heap_A_B_C_bound h'
           (graph_at heap_A_B_C_bound 0%nat)); [|exact Hrun].
  vm_compute. reflexivity.
Defined.

Lemma update_rows_name_objects_witness :
  ∃ h',
    update 0%nat heap_A_B_C_bound = Some h' ∧
    (∀ i : nat, (i < List_count (mkList [2%nat; 0%nat]))%nat →
       ∃ n N, getNodeByIndex 0%nat (Z.of_nat i) h' = Some (Some n) ∧
              n ∈ graph_nodes (graph_at heap_A_B_C_bound 0%nat) ∧
              heap_nodes h' !! n = Some N ∧
              node_dataIndex N = Z.of_nat i) ∧
    (∃ edgeDataL',
       heap_lists h' !! 1%nat = Some edgeDataL' ∧
       sublist (list__indices edgeDataL')
         (list__indices (mkList [0%nat; 2%nat; 1%nat])) ∧
       ∀ i : nat, (i < List_count edgeDataL')%nat →
         ∃ e E, getEdgeByIndex 0%nat (Z.of_nat i) h' = Some (Some e) ∧
                e ∈ graph_edges (graph_at heap_A_B_C_bound 0%nat) ∧
                heap_edges h' !! e = Some E ∧
                edge_dataIndex E = Z.of_nat i).
Proof.
  destruct (update 0%nat heap_A_B_C_bound) as [h'|] eqn:Hrun;
    [|vm_compute in Hrun; discriminate].
  exists h'. split; [reflexivity|].
  assert (HG : heap_graphs heap_A_B_C_bound !! 0%nat
               = Some (graph_at heap_A_B_C_bound 0%nat))
    by (vm_compute; reflexivity).
  apply (update_rows_name_objects 0%nat heap_A_B_C_bound h'
           (graph_at heap_A_B_C_bound 0%nat) 0%nat 1%nat
           (mkList [2%nat; 0%nat]) (mkList [0%nat; 2%nat; 1%nat]));
    try exact Hrun; try exact HG; try (vm_compute; reflexivity).
  - apply (store_ok_graph _ _ _ heap_A_B_C_bound_ok HG).
  - lia.
  - simpl. apply (bool_decide_unpack _). vm_compute. reflexivity.
  - simpl. apply (bool_decide_unpack _). vm_compute. reflexivity.
Defined.

Lemma eachNode_after_update_witness :
  ∃ h',
    update 0%nat heap_A_B_C_bound = Some h' ∧
    eachNode (λ n i c, c ++ [(n, i)]) 0%nat h' []
      = Some ([(0%nat, 0%nat); (2%nat, 2%nat)], [(0%nat, 0%nat); (2%nat, 2%nat)]).
Proof.
  destruct (update 0%nat heap_A_B_C_bound) as [h'|] eqn:Hrun;
    [|vm_compute in Hrun; discriminate].
  exists h'. split; [reflexivity|].
  assert (HG : heap_graphs heap_A_B_C_bound !! 0%nat
               = Some (graph_at heap_A_B_C_bound 0%nat))
    by (vm_compute; reflexivity).
  apply (eachNode_after_update (λ n i c, c ++ [(n, i)]) 0%nat heap_A_B_C_bound h'
           (graph_at heap_A_B_C_bound 0%nat) 0%nat (mkList [2%nat; 0%nat]) []
           HG (proj1 (store_ok_graph _ _ _ heap_A_B_C_bound_ok HG))
           eq_refl eq_refl Hrun).
Defined.

Lemma eachEdge_after_update_witness :
  ∃ h',
    update 0%nat heap_A_B_C_bound = Some h' ∧
    eachEdge (λ e i c, c ++ [(e, i)]) 0%nat h' []
      = Some ([(2%nat, 2%nat)], [(2%nat, 2%nat)]).
Proof.
  destruct (update 0%nat heap_A_B_C_bound) as [h'|] eqn:Hrun;
    [|vm_compute in Hrun; discriminate].
  exists h'. split; [reflexivity|].
  assert (HG : heap_graphs heap_A_B_C_bound !! 0%nat
               = Some (graph_at heap_A_B_C_bound 0%nat))
    by (vm_compute; reflexivity).
  assert (HL : heap_lists h' !! 1%nat = Some (mkList [2%nat])).
  { vm_compute in Hrun. injection Hrun as <-. reflexivity. }
  apply (eachEdge_after_update (λ e i c, c ++ [(e, i)]) 0%nat heap_A_B_C_bound h'
           (graph_at heap_A_B_C_bound 0%nat) 1%nat (mkList [2%nat]) []
           HG (proj1 (store_ok_graph _ _ _ heap_A_B_C_bound_ok HG))
           eq_refl Hrun HL).
Defined.

Lemma operations_only_grow_witness :
  store_grows heap_A_B heap_A_B_linked ∧
  store_grows heap_A_B_linked (after (clone 0%nat heap_A_B_linked)).
Proof.
  split.
  - apply (proj1 (proj2 (proj2 (operations_only_grow heap_A_B)))
             0%nat (ArgId "A") (ArgId "B") None (Some 0%nat)).
    vm_compute. reflexivity.
  - destruct (clone 0%nat heap_A_B_linked) as [[graph h']|] eqn:Hrun;
      [|vm_compute in Hrun; discriminate].
    apply (proj2 (proj2 (proj2 (proj2 (proj2
             (operations_only_grow heap_A_B_linked))))) 0%nat graph h' Hrun).
Defined.

Lemma clone_leaves_the_store_witness :
  ∃ graph h',
    clone 0%nat heap_A_B_linked = Some (graph, h') ∧
    graph = length (heap_graphs heap_A_B_linked) ∧
    ∃ nodes edges G',
      heap_nodes h' = heap_nodes heap_A_B_linked ++ nodes ∧
      heap_edges h' = heap_edges heap_A_B_linked ++ edges ∧
      heap_graphs h' = heap_graphs heap_A_B_linked ++ [G'] ∧
      heap_lists h' = heap_lists heap_A_B_linked ∧
      graph_data G' = None ∧
      graph_edgeData G' = None ∧
      isDirected graph h' = isDirected 0%nat heap_A_B_linked ∧
      update graph h' = None ∧
      ∀ dataIndex,
        getNodeByIndex graph dataIndex h' = None ∧
        getEdgeByIndex graph dataIndex h' = None.
Proof.
  destruct (clone 0%nat heap_A_B_linked) as [[graph h']|] eqn:Hrun;
    [|vm_compute in Hrun; discriminate].
  exists graph, h'. split; [reflexivity|].
  apply (clone_leaves_the_store 0%nat heap_A_B_linked graph h' Hrun).
Defined.

Lemma adjacency_exact_preserved_witness :
  heap_exact (after (addEdge 0%nat (ArgId "B") (ArgNumber 0) None heap_A_A_linked)) ∧
  heap_exact (after (clone 0%nat heap_A_A_linked)).
Proof.
  destruct (adjacency_exact_preserved heap_A_A_linked
              (proj1 heap_A_A_linked_ok) (proj2 heap_A_A_linked_ok))
    as (_ & _ & Hedge & _ & _ & Hclone).
  split.
  - apply (Hedge 0%nat (graph_at heap_A_A_linked 0%nat) (ArgId "B")
             (ArgNumber 0) None (Some 1%nat)).
    + vm_compute. reflexivity.
    + exact I.
    + exact I.
    + vm_compute. reflexivity.
  - apply (Hclone 0%nat 1%nat). vm_compute. reflexivity.
Defined.

Lemma degree_sum_witness :
  ∃ degrees inDegrees outDegrees,
    mapM (λ n, degree n heap_A_A_linked) [0%nat; 1%nat] = Some degrees ∧
    mapM (λ n, inDegree n heap_A_A_linked) [0%nat; 1%nat] = Some inDegrees ∧
    mapM (λ n, outDegree n heap_A_A_linked) [0%nat; 1%nat] = Some outDegrees ∧
    (sum_list degrees + length (filter (λ e, is_loop heap_A_A_linked e) [0%nat])
     = 2 * length [0%nat])%nat ∧
    sum_list inDegrees = 0%nat ∧
    sum_list outDegrees = 0%nat.
Proof.
  assert (HG : heap_graphs heap_A_A_linked !! 0%nat
               = Some (graph_at heap_A_A_linked 0%nat))
    by (vm_compute; reflexivity).
  destruct (store_ok_graph _ _ _ heap_A_A_linked_ok HG) as (Hwf & _ & Hexact).
  exact (degree_sum heap_A_A_linked 0%nat (graph_at heap_A_A_linked 0%nat)
           Hwf Hexact).
Defined.

Lemma breadthFirstTraverse_reaches_witness :
  ∃ vs h' c',
    breadthFirstTraverse visit_all 0%nat (IsId "A") DirOut heap_path_A_B_C tt
      = Some (vs, true, h', c') ∧
    ∀ n, n ∈ visit_node <$> vs ↔
         rtc (linked heap_path_A_B_C (graph_at heap_path_A_B_C 0%nat) DirOut)
           0%nat n.
Proof.
  destruct (breadthFirstTraverse visit_all 0%nat (IsId "A") DirOut
              heap_path_A_B_C tt) as [[[[vs fin] h'] c']|] eqn:Hrun;
    [|vm_compute in Hrun; discriminate].
  assert (Hvs : vs = [mkVisit 0%nat None false;
                      mkVisit 1%nat (Some 0%nat) false;
                      mkVisit 2%nat (Some 1%nat) false] ∧ fin = true).
  { vm_compute in Hrun. by injection Hrun as <- <- _ _. }
  destruct Hvs as [Hvs ->].
  exists vs, h', c'. split; [reflexivity|].
  assert (HG : heap_graphs heap_path_A_B_C !! 0%nat
               = Some (graph_at heap_path_A_B_C 0%nat))
    by (vm_compute; reflexivity).
  destruct (store_ok_graph _ _ _ heap_path_A_B_C_ok HG) as (Hwf & _ & Hexact).
  apply (breadthFirstTraverse_reaches visit_all 0%nat
           (graph_at heap_path_A_B_C 0%nat) (IsId "A") 0%nat DirOut
           heap_path_A_B_C tt vs h' c' Hwf Hexact HG).
  - vm_compute. reflexivity.
  - change (0%nat ∈ [0%nat; 1%nat; 2%nat]). by left.
  - exact Hrun.
  - rewrite Hvs. by repeat constructor.
Defined.

Lemma update_idempotent_witness :
  ∃ h', update 0%nat heap_A_B_C_bound = Some h' ∧ update 0%nat h' = Some h'.
Proof.
  destruct (update 0%nat heap_A_B_C_bound) as [h'|] eqn:Hrun;
    [|vm_compute in Hrun; discriminate].
  exists h'. split; [reflexivity|].
  apply (update_idempotent 0%nat heap_A_B_C_bound h'
           (graph_at heap_A_B_C_bound 0%nat)); [| |exact Hrun].
  - vm_compute. reflexivity.
  - vm_compute. discriminate.
Defined.

Lemma update_writes_only_witness :
  ∃ h',
    update 0%nat heap_A_B_C_bound = Some h' ∧
    heap_graphs h' = heap_graphs heap_A_B_C_bound ∧
    (∀ n N, heap_nodes heap_A_B_C_bound !! n = Some N →
       ∃ i, heap_nodes h' !! n =
              Some (if bool_decide
                         (n ∈ graph_nodes (graph_at heap_A_B_C_bound 0%nat))
                    then set_node_dataIndex i N else N)) ∧
    (∀ e E, heap_edges heap_A_B_C_bound !! e = Some E →
       ∃ i, heap_edges h' !! e =
              Some (if bool_decide
                         (e ∈ graph_edges (graph_at heap_A_B_C_bound 0%nat))
                    then set_edge_dataIndex i E else E)) ∧
    (∀ l, graph_edgeData (graph_at heap_A_B_C_bound 0%nat) ≠ Some l →
       heap_lists h' !! l = heap_lists heap_A_B_C_bound !! l) ∧
    (∀ l L, graph_edgeData (graph_at heap_A_B_C_bound 0%nat) = Some l →
       heap_lists heap_A_B_C_bound !! l = Some L →
       ∃ L', heap_lists h' !! l = Some L' ∧
             sublist (list__indices L') (list__indices L)).
Proof.
  destruct (update 0%nat heap_A_B_C_bound) as [h'|] eqn:Hrun;
    [|vm_compute in Hrun; discriminate].
  exists h'. split; [reflexivity|].
  apply (update_writes_only 0%nat heap_A_B_C_bound h'
           (graph_at heap_A_B_C_bound 0%nat)); [|exact Hrun].
  vm_compute. reflexivity.
Defined.

Lemma breadthFirstTraverse_writes_only_witness :
  ∃ vs fin h' c',
    breadthFirstTraverse visit_all 0%nat (IsId "A") DirNone heap_A_B_linked tt
      = Some (vs, fin, h', c') ∧
    heap_edges h' = heap_edges heap_A_B_linked ∧
    heap_graphs h' = heap_graphs heap_A_B_linked ∧
    heap_lists h' = heap_lists heap_A_B_linked ∧
    (∀ n N, heap_nodes heap_A_B_linked !! n = Some N →
       ∃ b, heap_nodes h' !! n = Some (set_node___visited b N)) ∧
    (start_node (graph_at heap_A_B_linked 0%nat) (IsId "A") = None →
     vs = [] ∧ h' = heap_A_B_linked ∧ c' = tt).
Proof.
  destruct (breadthFirstTraverse visit_all 0%nat (IsId "A") DirNone
              heap_A_B_linked tt) as [[[[vs fin] h'] c']|] eqn:Hrun;
    [|vm_compute in Hrun; discriminate].
  exists vs, fin, h', c'. split; [reflexivity|].
  apply (breadthFirstTraverse_writes_only visit_all 0%nat
           (graph_at heap_A_B_linked 0%nat) (IsId "A") DirNone heap_A_B_linked tt
           vs fin h' c'); [|exact Hrun].
  vm_compute. reflexivity.
Defined.

Lemma lookups_find_every_object_witness :
  getNodeById 0%nat "B" heap_A_B_linked = Some (Some 1%nat) ∧
  getEdge 0%nat (IsNode 0%nat) (IsId "B") heap_A_B_linked = Some (Some 0%nat).
Proof.
  assert (HG : heap_graphs heap_A_B_linked !! 0%nat
               = Some (graph_at heap_A_B_linked 0%nat))
    by (vm_compute; reflexivity).
  destruct (lookups_find_every_object heap_A_B_linked 0%nat
              (graph_at heap_A_B_linked 0%nat) HG
              (proj1 (heap_A_B_linked_inv _ _ HG))) as (Hnode & _ & Hedge).
  split.
  - apply (Hnode 1%nat (mkGraphNode "B" [] [] [0%nat] (Some 0%nat) (-1) false)).
    + change (1%nat ∈ [0%nat; 1%nat]). right. by left.
    + vm_compute. reflexivity.
  - destruct (Hedge 0%nat (mkGraphEdge 0%nat 1%nat (-1) (Some 0%nat)))
      as (N1 & N2 & HN1 & HN2 & Hget).
    + change (0%nat ∈ [0%nat]). by left.
    + vm_compute. reflexivity.
    + vm_compute in HN2. injection HN2 as <-.
      apply Hget; [by left|by right].
Defined.

Lemma addEdge_unresolved_witness :
  addEdge 0%nat (ArgNumber 7) (ArgId "B") None heap_A_B
    = addEdge 0%nat (ArgId "undefined") (ArgId "B") None heap_A_B ∧
  addEdge 0%nat (ArgId "Z") (ArgId "B") None heap_A_B = Some (None, heap_A_B).
Proof.
  assert (HG : heap_graphs heap_A_B !! 0%nat = Some (graph_at heap_A_B 0%nat))
    by (vm_compute; reflexivity).
  destruct (addEdge_unresolved 0%nat (graph_at heap_A_B 0%nat) heap_A_B HG)
    as (Hfirst & _ & _ & Hnone & _ & _).
  split.
  - apply Hfirst. vm_compute. reflexivity.
  - apply Hnone. left. vm_compute. reflexivity.
Defined.

Lemma breadthFirstTraverse_from_witness :
  ∃ vs fin h' c',
    breadthFirstTraverse visit_all 0%nat (IsId "A") DirOut heap_path_A_B_C tt
      = Some (vs, fin, h', c') ∧
    ∀ (i : nat) v, vs !! i = Some v →
      match i with
      | O =>
          visit_from v = None ∧
          ∃ G, heap_graphs heap_path_A_B_C !! 0%nat = Some G ∧
               start_node G (IsId "A") = Some (visit_node v)
      | S _ =>
          ∃ m, visit_from v = Some m ∧
               m ∈ visit_node <$> take i vs ∧
               step heap_path_A_B_C DirOut m (visit_node v)
      end.
Proof.
  destruct (breadthFirstTraverse visit_all 0%nat (IsId "A") DirOut
              heap_path_A_B_C tt) as [[[[vs fin] h'] c']|] eqn:Hrun;
    [|vm_compute in Hrun; discriminate].
  exists vs, fin, h', c'. split; [reflexivity|].
  exact (breadthFirstTraverse_from visit_all 0%nat (IsId "A") DirOut
           heap_path_A_B_C tt vs fin h' c' Hrun).
Defined.

Lemma breadthFirstTraverse_start_again_witness :
  ∃ vs h' c',
    breadthFirstTraverse visit_all 0%nat (IsId "A") DirOut heap_A_B_C_bound tt
      = Some (vs, true, h', c') ∧
    NoDup (visit_node <$> tail vs) ∧
    (0%nat ∈ visit_node <$> tail vs ↔
     ∃ m, rtc (linked heap_A_B_C_bound (graph_at heap_A_B_C_bound 0%nat) DirOut)
            0%nat m ∧
          linked heap_A_B_C_bound (graph_at heap_A_B_C_bound 0%nat) DirOut
            m 0%nat).
Proof.
  destruct (breadthFirstTraverse visit_all 0%nat (IsId "A") DirOut
              heap_A_B_C_bound tt) as [[[[vs fin] h'] c']|] eqn:Hrun;
    [|vm_compute in Hrun; discriminate].
  assert (Hvs : vs = [mkVisit 0%nat None false;
                      mkVisit 1%nat (Some 0%nat) false;
                      mkVisit 2%nat (Some 1%nat) false;
                      mkVisit 0%nat (Some 2%nat) false] ∧ fin = true).
  { vm_compute in Hrun. by injection Hrun as <- <- _ _. }
  destruct Hvs as [Hvs ->].
  exists vs, h', c'. split; [reflexivity|].
  assert (HG : heap_graphs heap_A_B_C_bound !! 0%nat
               = Some (graph_at heap_A_B_C_bound 0%nat))
    by (vm_compute; reflexivity).
  destruct (store_ok_graph _ _ _ heap_A_B_C_bound_ok HG) as (Hwf & _ & Hexact).
  apply (breadthFirstTraverse_start_again visit_all 0%nat
           (graph_at heap_A_B_C_bound 0%nat) (IsId "A") 0%nat DirOut
           heap_A_B_C_bound tt vs h' c' Hwf Hexact HG).
  - vm_compute. reflexivity.
  - change (0%nat ∈ [0%nat; 1%nat; 2%nat]). by left.
  - exact Hrun.
  - rewrite Hvs. by repeat constructor.
Defined.
